(** * add_watermark.py: watermarking and thumbnail batch utility

    A shallow embedding of [src/add_watermark.py] and the properties its
    specification states.  Python integers are [Z], Python floats are
    binary64 primitive floats, strings are [string], paths are lists of
    path components, the file system is a finite map from paths to nodes
    and exceptions are an explicit outcome type. *)

From Stdlib Require Import ZArith Lia Bool Ascii String List Permutation.
From Stdlib Require Import Floats.
From stdpp Require Import base option list gmap strings pretty.

Set Warnings "-inexact-float".
Local Open Scope Z_scope.

(** ** Strings: the operations of [str] the script relies on *)

Module Str.

(** [s.startswith(p)] *)
Fixpoint starts_with (p s : string) : bool :=
  match p, s with
  | EmptyString, _ => true
  | String a p', String b s' => Ascii.eqb a b && starts_with p' s'
  | String _ _, EmptyString => false
  end.

(** [p in s] *)
Fixpoint contains (p s : string) : bool :=
  starts_with p s ||
  match s with
  | EmptyString => false
  | String _ s' => contains p s'
  end.

(** [s.endswith(p)], which is what the glob pattern [*p] tests on a
    name when [p] has no wildcard of its own. *)
Fixpoint ends_with (p s : string) : bool :=
  String.eqb s p ||
  match s with
  | EmptyString => false
  | String _ s' => ends_with p s'
  end.

(** [s.rfind('.')], [None] for Python's [-1]. *)
Fixpoint rfind_dot_from (s : string) (i : nat) (last : option nat) : option nat :=
  match s with
  | EmptyString => last
  | String c s' =>
      rfind_dot_from s' (S i) (if Ascii.eqb c "." then Some i else last)
  end.

Definition rfind_dot (s : string) : option nat := rfind_dot_from s 0 None.

Definition lower_char (c : ascii) : ascii :=
  let n := nat_of_ascii c in
  if (65 <=? n)%nat && (n <=? 90)%nat then ascii_of_nat (n + 32) else c.

(** [s.lower()] on the ASCII range. *)
Fixpoint lower (s : string) : string :=
  match s with
  | EmptyString => EmptyString
  | String c s' => String (lower_char c) (lower s')
  end.

Fixpoint join (sep : string) (l : list string) : string :=
  match l with
  | [] => ""
  | [x] => x
  | x :: l' => x +:+ sep +:+ join sep l'
  end.

End Str.

(** ** Paths, as [pathlib.PurePath] splits them *)

Definition path := list string.

Module PurePath.

(** [p.name]: the final component. *)
Definition name (p : path) : string := List.last p "".

(** [p.parent] *)
Definition parent (p : path) : path := removelast p.

(** [p.suffix]: from the last dot of the name, unless that dot is the
    first or the last character. *)
Definition suffix_of_name (n : string) : string :=
  match Str.rfind_dot n with
  | Some i =>
      if (0 <? i)%nat && (i <? String.length n - 1)%nat
      then String.substring i (String.length n - i) n
      else ""
  | None => ""
  end.

(** [p.stem]: the name without its suffix. *)
Definition stem_of_name (n : string) : string :=
  match Str.rfind_dot n with
  | Some i =>
      if (0 <? i)%nat && (i <? String.length n - 1)%nat
      then String.substring 0 i n
      else n
  | None => n
  end.

Definition suffix (p : path) : string := suffix_of_name (name p).
Definition stem (p : path) : string := stem_of_name (name p).

(** [str(p)] *)
Definition to_string (p : path) : string :=
  match p with
  | [] => "."
  | _ => Str.join "/" p
  end.

End PurePath.

(** ** File discovery (the first half of [main]) *)

(** The set literal of [main]; a Python set has no fixed iteration order,
    so the functions below take the order as an argument. *)
Definition image_extensions : list string :=
  [".jpg"; ".jpeg"; ".png"; ".JPG"; ".JPEG"; ".PNG"].

(** [root_path.rglob(f'*{ext}')], over [walk], the entries below the root
    in the order the directory walk visits them.  The walk yields every
    entry, regular file or directory, whose name matches the pattern. *)
Definition rglob (walk : list path) (ext : string) : list path :=
  List.filter (fun p => Str.ends_with ext (PurePath.name p)) walk.

Definition find_images (exts : list string) (walk : list path) : list path :=
  let image_files := flat_map (rglob walk) exts in
  List.filter (fun f => negb (Str.contains "-thumb" (PurePath.stem f))) image_files.

(** ** Exceptions and effects *)

(** What [str(e)] shows of an exception below [Exception]. *)
Inductive exn : Type := Exception (msg : string).

Definition exn_str (e : exn) : string := let 'Exception m := e in m.

(** How a Python call ends: it returns, an [Exception] propagates, or
    [sys.exit] raises [SystemExit], which is not an [Exception]. *)
Inductive outcome (A : Type) : Type :=
| Returned (a : A)
| Raised (e : exn)
| Exited (code : Z).
Arguments Returned {A} a.
Arguments Raised {A} e.
Arguments Exited {A} code.

Global Instance outcome_ret : MRet outcome := fun A a => Returned a.
Global Instance outcome_bind : MBind outcome := fun A B k m =>
  match m with
  | Returned a => k a
  | Raised e => Raised e
  | Exited c => Exited c
  end.

(** Code running against a state [S]: what was written before an
    exception stays written. *)
Definition stateful (S A : Type) : Type := S -> outcome A * S.

Global Instance stateful_ret {S} : MRet (stateful S) := fun A a s => (Returned a, s).
Global Instance stateful_bind {S} : MBind (stateful S) := fun A B k m s =>
  match m s with
  | (Returned a, s') => k a s'
  | (Raised e, s') => (Raised e, s')
  | (Exited c, s') => (Exited c, s')
  end.

Definition lift {S A} (o : outcome A) : stateful S A := fun s => (o, s).
Definition raise {S A} (msg : string) : stateful S A := lift (Raised (Exception msg)).
Definition sys_exit {S A} (code : Z) : stateful S A := lift (Exited code).

(** [try: body / except Exception as e: handler(e)].  [SystemExit]
    passes through. *)
Definition try_except {S A} (body : stateful S A) (handler : exn -> stateful S A)
  : stateful S A := fun s =>
  match body s with
  | (Raised e, s') => handler e s'
  | r => r
  end.

(** Exit status of the interpreter for a finished [main]. *)
Definition exit_status {A} (o : outcome A) : Z :=
  match o with
  | Returned _ => 0
  | Raised _ => 1
  | Exited c => c
  end.

(** ** Python numbers *)

Module Py.

(** [float(z)]: the nearest binary64, [OverflowError] beyond its range. *)
Definition float_of_int (z : Z) : outcome float :=
  let f := SF2Prim (binary_normalize prec emax z 0 false) in
  if is_infinity f then Raised (Exception "int too large to convert to float")
  else Returned f.

(** [z * f] *)
Definition int_mul_float (z : Z) (f : float) : outcome float :=
  x ← float_of_int z; Returned (x * f)%float.

(** [a / b] on integers (true division), exact on operands below 2^53. *)
Definition truediv (a b : Z) : outcome float :=
  if b =? 0 then Raised (Exception "division by zero")
  else x ← float_of_int a; y ← float_of_int b; Returned (x / y)%float.

(** [z / f] *)
Definition int_div_float (z : Z) (f : float) : outcome float :=
  x ← float_of_int z;
  if is_zero f then Raised (Exception "float division by zero")
  else Returned (x / f)%float.

(** Truncation toward zero of a binary64 value. *)
Definition trunc_sf (x : spec_float) : outcome Z :=
  match x with
  | S754_zero _ => Returned 0
  | S754_finite s m e => Returned (cond_Zopp s (Z.shiftl (Z.pos m) e))
  | S754_infinity _ => Raised (Exception "cannot convert float infinity to integer")
  | S754_nan => Raised (Exception "cannot convert float NaN to integer")
  end.

(** [int(f)] *)
Definition int_of_float (f : float) : outcome Z := trunc_sf (Prim2SF f).

(** A binary64 value rounded to the nearest integer, ties to even. *)
Definition round_sf (x : spec_float) : outcome Z :=
  match x with
  | S754_zero _ => Returned 0
  | S754_finite s m e =>
      let q := Z.shiftl (Z.pos m) e in
      let r := Z.pos m - Z.shiftl q (- e) in
      let half := Z.shiftl 1 (- e - 1) in
      let up := if e <? 0
                then (half <? r) || ((half =? r) && Z.odd q)
                else false in
      Returned (cond_Zopp s (if up then q + 1 else q))
  | S754_infinity _ => Raised (Exception "cannot convert float infinity to integer")
  | S754_nan => Raised (Exception "cannot convert float NaN to integer")
  end.

(** [round(f)] *)
Definition round_float (f : float) : outcome Z := round_sf (Prim2SF f).

End Py.

(** ** Binary64 rounding in arithmetic

    What the specification of the binary64 operations ([SpecFloat])
    computes with shifts and sticky bits, written with quotients and
    remainders. *)

Module Rounding.

(** The quotient of [M] by [2^n] rounded to nearest, ties to even. *)
Definition rne (M n : Z) : Z :=
  let q := M / 2 ^ n in
  let r := M mod 2 ^ n in
  let h := 2 ^ (n - 1) in
  if (h <? r) || ((r =? h) && Z.odd q) then q + 1 else q.

(** The binary64 exponent of a number whose leading bit has weight
    [2^(mag - 1)]. *)
Definition fexp64 (mag : Z) : Z := Z.max (mag - 53) (-1074).

(** The record after [j] one-bit shifts of the mantissa [M]. *)
Definition shifted (M : Z) (j : nat) : shr_record :=
  let n := Z.of_nat j in
  let r := M mod 2 ^ n in
  let h := 2 ^ (n - 1) in
  match j with
  | O => Build_shr_record M false false
  | S _ => Build_shr_record (M / 2 ^ n) (h <=? r) (negb ((r =? 0) || (r =? h)))
  end.

(** The rounded product of mantissa [M] and exponent [E], as an integer
    multiple of [2^-1074]. *)
Definition rounded (M : positive) (E : Z) : Z :=
  let e' := fexp64 (Z.pos (digits2_pos M) + E) in
  rne (Z.pos M) (e' - E) * 2 ^ (e' + 1074).

End Rounding.

(** ** Images, as Pillow stores them *)

(** A pixel is four bytes.  ['RGBA'] keeps red, green, blue and alpha,
    ['RGB'] leaves the fourth byte unused, ['L'] uses the first byte and
    ['LA'] the first and the fourth. *)
Definition pixel : Type := Z * Z * Z * Z.

Definition band (k : nat) (p : pixel) : Z :=
  let '(r, g, b, a) := p in
  match k with
  | 0%nat => r
  | 1%nat => g
  | 2%nat => b
  | _ => a
  end.

Definition alpha_of (p : pixel) : Z := band 3 p.

Definition set_alpha (p : pixel) (a : Z) : pixel :=
  let '(r, g, b, _) := p in (r, g, b, a).

Record Image : Type := mkImage {
  mode : string;
  width : Z;
  height : Z;
  pix : Z -> Z -> pixel          (* column, row *)
}.

Definition size (im : Image) : Z * Z := (width im, height im).

Definition inside (im : Image) (i j : Z) : bool :=
  (0 <=? i) && (i <? width im) && (0 <=? j) && (j <? height im).

(** The parts of Pillow and of the host whose results the script only
    passes along: colour conversion, blending arithmetic, resampling,
    fonts, text rendering and the codecs. *)
Class Pillow : Type := {
  font : Type;
  (** [Image.convert]: per pixel, from a mode to a mode *)
  convert_pixel : string -> string -> pixel -> pixel;
  (** blend of one byte under a mask byte: mask, destination, source *)
  BLEND : Z -> Z -> Z -> Z;
  (** the same for a premultiplied (['RGBa']) mask *)
  PREBLEND : Z -> Z -> Z -> Z;
  (** [Image.resize(..., LANCZOS)]: the pixel at a column and row of the
      result of the given width and height *)
  resample : Image -> Z -> Z -> Z -> Z -> pixel;
  (** [os.path.exists] on a font file *)
  font_file_exists : string -> bool;
  (** [ImageFont.truetype(path, size)], [None] when it raises *)
  truetype : string -> Z -> option font;
  load_default : font;
  (** [font.path] when the font has that attribute *)
  font_path : font -> option string;
  (** [font != ImageFont.load_default()] *)
  differs_from_default : font -> bool;
  (** [ImageDraw.textbbox((0, 0), text, font)] *)
  textbbox : string -> font -> Z * Z * Z * Z;
  (** [ImageDraw.text(xy, text, fill, font)]: the pixels afterwards *)
  draw_text : Image -> Z * Z -> string -> pixel -> font -> Z -> Z -> pixel;
  (** what [Image.open] decodes from a file written in a format at a
      quality *)
  decode : string -> Z -> Image -> Image
}.

Section PillowImage.
Context `{Pillow}.

(** [Image.new(mode, size, color)] *)
Definition Image_new (m : string) (sz : Z * Z) (color : pixel) : outcome Image :=
  let '(w, h) := sz in
  if (w <? 0) || (h <? 0)
  then Raised (Exception "Width and height must be >= 0")
  else Returned (mkImage m w h (fun _ _ => color)).

(** [im.convert(mode)] *)
Definition convert (im : Image) (m : string) : Image :=
  mkImage m (width im) (height im)
          (fun i j => convert_pixel (mode im) m (pix im i j)).

(** [if im.mode != 'RGBA': im = im.convert('RGBA')] *)
Definition ensure_rgba (im : Image) : Image :=
  if negb (String.eqb (mode im) "RGBA") then convert im "RGBA" else im.

(** [im.split()[3]]: the alpha band as an ['L'] image. *)
Definition alpha_band (im : Image) : Image :=
  mkImage "L" (width im) (height im)
          (fun i j => let a := alpha_of (pix im i j) in (a, a, a, a)).

(** [im.putalpha(alpha)] on an ['RGBA'] image. *)
Definition putalpha (im alpha : Image) : Image :=
  mkImage (mode im) (width im) (height im)
          (fun i j => set_alpha (pix im i j) (band 0 (pix alpha i j))).

Definition CLIP8 (v : Z) : Z := Z.max 0 (Z.min 255 v).

(** [im.point(f)] on an ['L'] image: [f] is tabulated on 0..255, the
    table is stored as bytes and every pixel is looked up in it. *)
Fixpoint tabulate (f : Z -> outcome Z) (n : nat) : outcome (list Z) :=
  match n with
  | O => Returned []
  | S n' =>
      l ← tabulate f n';
      v ← f (Z.of_nat n');
      Returned (l ++ [CLIP8 v])
  end.

Definition point (im : Image) (f : Z -> outcome Z) : outcome Image :=
  lut ← tabulate f 256;
  Returned (mkImage (mode im) (width im) (height im)
    (fun i j => let v := nth (Z.to_nat (band 0 (pix im i j))) lut 0 in (v, v, v, v))).

Definition map_bands (f : Z -> Z -> Z) (d s : pixel) : pixel :=
  let '(dr, dg, db, da) := d in
  let '(sr, sg, sb, sa) := s in
  (f dr sr, f dg sg, f db sb, f da sa).

Definition mask_mode_ok (m : string) : bool :=
  String.eqb m "1" || String.eqb m "L" || String.eqb m "LA"
  || String.eqb m "RGBA" || String.eqb m "RGBa".

(** One pixel of [paste] under a mask pixel, by the mode of the mask:
    an ['L'] mask blends with its byte, an ['LA'] or ['RGBA'] mask with
    its alpha byte. *)
Definition paste_pixel (mask_mode : string) (m d s : pixel) : pixel :=
  if String.eqb mask_mode "1" then (if band 0 m =? 0 then d else s)
  else if String.eqb mask_mode "L" then map_bands (BLEND (band 0 m)) d s
  else if String.eqb mask_mode "RGBa" then map_bands (PREBLEND (alpha_of m)) d s
  else map_bands (BLEND (alpha_of m)) d s.

Definition in_box (box : Z * Z) (src : Image) (i j : Z) : bool :=
  let '(x, y) := box in
  (x <=? i) && (i <? x + width src) && (y <=? j) && (j <? y + height src).

(** The source as [paste] uses it: converted to the mode of the
    destination, unless RGB receives LA or RGBA. *)
Definition paste_source (dst src : Image) : Image :=
  if String.eqb (mode dst) (mode src) then src
  else if String.eqb (mode dst) "RGB"
          && (String.eqb (mode src) "LA" || String.eqb (mode src) "RGBA")
       then src
       else convert src (mode dst).

(** [dst.paste(src, box, mask)] with a two-coordinate [box]: the box
    takes the size of the source, the mask must have that size and a
    mask mode, and inside the box (what lies outside the destination is
    clipped away) the pixels are blended under the mask, or copied
    when there is none. *)
Definition paste (dst src : Image) (box : Z * Z) (mask : option Image)
  : outcome Image :=
  let src' := paste_source dst src in
  let '(x, y) := box in
  match mask with
  | None =>
      Returned (mkImage (mode dst) (width dst) (height dst)
        (fun i j => if in_box box src i j then pix src' (i - x) (j - y)
                    else pix dst i j))
  | Some m =>
      if negb ((width m =? width src) && (height m =? height src))
      then Raised (Exception "images do not match")
      else if negb (mask_mode_ok (mode m))
      then Raised (Exception "bad transparency mask")
      else
        Returned (mkImage (mode dst) (width dst) (height dst)
          (fun i j =>
             if in_box box src i j
             then paste_pixel (mode m) (pix m (i - x) (j - y))
                              (pix dst i j) (pix src' (i - x) (j - y))
             else pix dst i j))
  end.

(** [im.resize((w, h), Image.Resampling.LANCZOS)] *)
Definition resize (im : Image) (sz : Z * Z) : outcome Image :=
  let '(w, h) := sz in
  if (width im =? w) && (height im =? h) then Returned im
  else if (w <? 1) || (h <? 1)
  then Raised (Exception "height and width must be > 0")
  else Returned (mkImage (mode im) w h (resample im w h)).

End PillowImage.

(** ** The file system and the console *)

(** A file is an image written in some format at some quality, or
    something Pillow cannot identify. *)
Inductive file_content : Type :=
| Encoded (format : string) (quality : Z) (im : Image)
| Unidentified.

Inductive node : Type :=
| Directory
| File (content : file_content).

Record world : Type := mkWorld {
  files : gmap path node;
  stdout : list string
}.

Abbreviation io := (stateful world).

Definition print (line : string) : io unit := fun w =>
  (Returned tt, mkWorld (files w) (stdout w ++ [line])).

(** [Path.exists()] *)
Definition exists_ (p : path) : io bool := fun w =>
  (Returned (bool_decide (is_Some (files w !! p))), w).

Section Files.
Context `{Pillow}.

(** [Image.open(p)] *)
Definition Image_open (p : path) : io Image := fun w =>
  match files w !! p with
  | None =>
      (Raised (Exception ("No such file or directory: " +:+ PurePath.to_string p)), w)
  | Some Directory =>
      (Raised (Exception ("Is a directory: " +:+ PurePath.to_string p)), w)
  | Some (File Unidentified) =>
      (Raised (Exception ("cannot identify image file " +:+ PurePath.to_string p)), w)
  | Some (File (Encoded fmt q im)) => (Returned (decode fmt q im), w)
  end.

(** The extension [Image.save] reads off a file name
    ([os.path.splitext]): from the last dot, unless only dots come
    before it. *)
Fixpoint all_dots (s : string) (n : nat) : bool :=
  match n, s with
  | O, _ => true
  | S n', String c s' => Ascii.eqb c "." && all_dots s' n'
  | S _, EmptyString => false
  end.

Definition splitext_ext (n : string) : string :=
  match Str.rfind_dot n with
  | Some i =>
      if all_dots n i then ""
      else String.substring i (String.length n - i) n
  | None => ""
  end.

(** The registered formats of the extensions at hand. *)
Definition format_of_extension (ext : string) : option string :=
  if String.eqb ext ".jpg" || String.eqb ext ".jpeg" then Some "JPEG"
  else if String.eqb ext ".png" then Some "PNG"
  else None.

(** The modes each writer accepts. *)
Definition writable_mode (fmt m : string) : bool :=
  if String.eqb fmt "JPEG"
  then String.eqb m "RGB" || String.eqb m "L" || String.eqb m "1"
       || String.eqb m "CMYK"
  else String.eqb m "RGB" || String.eqb m "RGBA" || String.eqb m "L"
       || String.eqb m "LA" || String.eqb m "1" || String.eqb m "P"
       || String.eqb m "I".

(** [im.save(p, quality=q, optimize=True)] *)
Definition save (im : Image) (p : path) (q : Z) : io unit := fun w =>
  match format_of_extension (Str.lower (splitext_ext (PurePath.name p))) with
  | None =>
      (Raised (Exception ("unknown file extension: "
                          +:+ splitext_ext (PurePath.name p))), w)
  | Some fmt =>
      if negb (writable_mode fmt (mode im))
      then (Raised (Exception ("cannot write mode " +:+ mode im +:+ " as " +:+ fmt)), w)
      else
        match files w !! p with
        | Some Directory =>
            (Raised (Exception ("Is a directory: " +:+ PurePath.to_string p)), w)
        | _ =>
            (Returned tt,
             mkWorld (<[p := File (Encoded fmt q im)]> (files w)) (stdout w))
        end
  end.

End Files.

(** ** The script *)

Section Script.
Context `{Pillow}.

Definition font_paths : list string :=
  ["/usr/share/fonts/truetype/dejavu/DejaVuSans-Bold.ttf";
   "/System/Library/Fonts/Helvetica.ttc";
   "C:/Windows/Fonts/arial.ttf"].

(** The loop over [font_paths]: the first existing file that loads. *)
Fixpoint first_font (paths : list string) (text_size : Z) : option font :=
  match paths with
  | [] => None
  | font_path :: rest =>
      if font_file_exists font_path then
        match truetype font_path text_size with
        | Some f => Some f
        | None => first_font rest text_size
        end
      else first_font rest text_size
  end.

Definition choose_font (text_size : Z) : font :=
  match first_font font_paths text_size with
  | Some f => f
  | None => load_default
  end.

(** The font reloaded at the reduced size. *)
Definition shrink_font (f : font) (text_size : Z) : font :=
  if differs_from_default f then
    match truetype (default (hd "" font_paths) (font_path f)) text_size with
    | Some f' => f'
    | None => load_default
    end
  else load_default.

Definition int_scaled (z : Z) (f : float) : outcome Z :=
  x ← Py.int_mul_float z f; Py.int_of_float x.

(** The logo made RGBA and scaled to 80% of the watermark width. *)
Definition scale_logo (logo : Image) (watermark_width : Z) : outcome Image :=
  let logo := ensure_rgba logo in
  logo_aspect ← Py.truediv (width logo) (height logo);
  logo_new_width ← int_scaled watermark_width 0.8;
  q ← Py.int_div_float logo_new_width logo_aspect;
  logo_new_height ← Py.int_of_float q;
  resize logo (logo_new_width, logo_new_height).

(** The body of the first [try]: the logo opened and scaled. *)
Definition load_logo (logo_path : path) (watermark_width : Z) : io Image :=
  logo ← Image_open logo_path;
  lift (scale_logo logo watermark_width).

Definition text : string := "Blackline Studio".

(** The font and the size of the text, reduced once when the text is
    wider than the watermark. *)
Definition fit_text (watermark_width : Z) : outcome (font * Z * Z) :=
  text_size ← int_scaled watermark_width 0.15;
  let font := choose_font text_size in
  let '(x0, y0, x1, y1) := textbbox text font in
  let text_width := x1 - x0 in
  let text_height := y1 - y0 in
  if watermark_width <? text_width then
    ratio ← Py.truediv watermark_width text_width;
    scaled ← Py.int_mul_float text_size ratio;
    text_size ← Py.int_of_float (scaled * 0.9)%float;
    let font := shrink_font font text_size in
    let '(x0, y0, x1, y1) := textbbox text font in
    Returned (font, x1 - x0, y1 - y0)
  else Returned (font, text_width, text_height).

(** The canvas with the logo and the text, before the opacity. *)
Definition draw_watermark (logo : Image) (watermark_width : Z) : outcome Image :=
  '(font, text_width, text_height) ← fit_text watermark_width;
  padding ← int_scaled watermark_width 0.1;
  spacing ← int_scaled watermark_width 0.05;
  let watermark_height := height logo + spacing + text_height + padding * 2 in
  let watermark_width_final := Z.max (width logo) text_width + padding * 2 in
  watermark ← Image_new "RGBA" (watermark_width_final, watermark_height) (0, 0, 0, 0);
  let logo_x := (watermark_width_final - width logo) / 2 in
  let logo_y := padding in
  watermark ← paste watermark logo (logo_x, logo_y) (Some logo);
  let text_x := (watermark_width_final - text_width) / 2 in
  let text_y := logo_y + height logo + spacing in
  let shadow_offset := 1 in
  let watermark :=
    mkImage (mode watermark) (width watermark) (height watermark)
      (draw_text watermark (text_x + shadow_offset, text_y + shadow_offset)
                 text (0, 0, 0, 200) font) in
  let watermark :=
    mkImage (mode watermark) (width watermark) (height watermark)
      (draw_text watermark (text_x, text_y) text (255, 255, 255, 255) font) in
  Returned watermark.

(** The last step: every alpha byte [p] becomes [int(p * opacity)]. *)
Definition apply_opacity (watermark : Image) (opacity : float) : outcome Image :=
  let alpha := alpha_band watermark in
  alpha ← point alpha (fun p => int_scaled p opacity);
  Returned (putalpha watermark alpha).

Definition create_watermark (logo_path : path) (image_width : Z) (opacity : float)
  : io Image :=
  watermark_width ← lift (int_scaled image_width 0.20);
  logo ← try_except (load_logo logo_path watermark_width)
            (fun e => print ("Error loading logo: " +:+ exn_str e) ;; sys_exit 1);
  watermark ← lift (draw_watermark logo watermark_width);
  lift (apply_opacity watermark opacity).

(** The branches on [position]; an unlisted name takes the last one. *)
Definition anchor (position : string) (padding : Z)
           (img_width img_height wm_width wm_height : Z) : Z * Z :=
  if String.eqb position "top_right" then
    (img_width - wm_width - padding, padding)
  else if String.eqb position "top_left" then
    (padding, padding)
  else if String.eqb position "bottom_right" then
    (img_width - wm_width - padding, img_height - wm_height - padding)
  else if String.eqb position "bottom_left" then
    (padding, img_height - wm_height - padding)
  else
    ((img_width - wm_width) / 2, (img_height - wm_height) / 2).

(** [apply_watermark] on image values. *)
Definition apply_watermark (image watermark : Image) (position : string)
           (padding : Z) : outcome Image :=
  let image := ensure_rgba image in
  let watermarked := image in
  let '(img_width, img_height) := size watermarked in
  let '(wm_width, wm_height) := size watermark in
  let xy := anchor position padding img_width img_height wm_width wm_height in
  paste watermarked watermark xy (Some watermark).

(** A transparent or palette image set on white, any other made RGB. *)
Definition normalize (image : Image) : outcome Image :=
  if String.eqb (mode image) "RGBA" || String.eqb (mode image) "LA"
     || String.eqb (mode image) "P" then
    rgb_image ← Image_new "RGB" (size image) (255, 255, 255, 255);
    let image := if String.eqb (mode image) "P"
                 then convert image "RGBA" else image in
    paste rgb_image image (0, 0)
          (if String.eqb (mode image) "RGBA" then Some (alpha_band image) else None)
  else if negb (String.eqb (mode image) "RGB") then
    Returned (convert image "RGB")
  else Returned image.

Definition is_jpeg_suffix (s : string) : bool :=
  let l := Str.lower s in String.eqb l ".jpg" || String.eqb l ".jpeg".

(** The alpha of an RGBA image flattened on white before a JPEG is
    written. *)
Definition flatten_for (p : path) (im : Image) : outcome Image :=
  if is_jpeg_suffix (PurePath.suffix p) then
    if String.eqb (mode im) "RGBA" then
      rgb_image ← Image_new "RGB" (size im) (255, 255, 255, 255);
      paste rgb_image im (0, 0) (Some (alpha_band im))
    else Returned im
  else Returned im.

Definition thumbnail_path_of (image_path : path) : path :=
  PurePath.parent image_path
    ++ [PurePath.stem image_path +:+ "-thumb" +:+ PurePath.suffix image_path].

(** [int(thumbnail_width * (image.height / image.width))] *)
Definition thumbnail_height_of (thumbnail_width : Z) (image : Image) : outcome Z :=
  aspect_ratio ← Py.truediv (height image) (width image);
  int_scaled thumbnail_width aspect_ratio.

Definition watermarked_line (image_path : path) : string :=
  "✓ Watermarked: " +:+ PurePath.to_string image_path.

Definition thumbnail_line (thumbnail_path : path) : string :=
  "✓ Thumbnail: " +:+ PurePath.to_string thumbnail_path.

(** The first half of the [try] of [process_image]: the image opened,
    normalized, watermarked and saved over the original.  The normalized
    image is what the second half goes on with. *)
Definition watermark_original (image_path logo_path : path) : io Image :=
  image ← Image_open image_path;
  image ← lift (normalize image);
  watermark ← create_watermark logo_path (width image) 0.55;
  watermarked_image ← lift (apply_watermark image watermark "top_right" 20);
  watermarked_image ← lift (flatten_for image_path watermarked_image);
  save watermarked_image image_path 95;;
  print (watermarked_line image_path);;
  mret image.

(** The second half: the thumbnail of [image], watermarked and saved
    beside the original. *)
Definition generate_thumbnail (image : Image) (image_path logo_path : path)
           (thumbnail_width : Z) : io unit :=
  thumbnail_height ← lift (thumbnail_height_of thumbnail_width image);
  thumbnail ← lift (resize image (thumbnail_width, thumbnail_height));
  thumbnail_watermark ← create_watermark logo_path (width thumbnail) 0.55;
  watermarked_thumbnail ←
    lift (apply_watermark thumbnail thumbnail_watermark "top_right" 10);
  let thumbnail_path := thumbnail_path_of image_path in
  watermarked_thumbnail ← lift (flatten_for thumbnail_path watermarked_thumbnail);
  save watermarked_thumbnail thumbnail_path 90;;
  print (thumbnail_line thumbnail_path).

Definition process_image_body (image_path logo_path : path) (thumbnail_width : Z)
  : io unit :=
  image ← watermark_original image_path logo_path;
  generate_thumbnail image image_path logo_path thumbnail_width.

Definition error_line (image_path : path) (e : exn) : string :=
  "✗ Error processing " +:+ PurePath.to_string image_path +:+ ": " +:+ exn_str e.

Definition process_image (image_path logo_path : path) (thumbnail_width : Z)
  : io unit :=
  try_except (process_image_body image_path logo_path thumbnail_width)
    (fun e => print (error_line image_path e)).

(** The parsed command line. *)
Record arguments : Type := mkArgs {
  logo : path;
  thumbnail_width_arg : Z;
  root : path
}.

Definition count_str (n : nat) : string := pretty (N.of_nat n).

Definition progress_line (total i : nat) (image_path : path) : string :=
  "[" +:+ count_str i +:+ "/" +:+ count_str total +:+ "] Processing: "
  +:+ PurePath.to_string image_path.

(** The loop of [main] from the [i]-th file on. *)
Fixpoint process_all (total : nat) (i : nat) (image_files : list path)
         (logo_path : path) (thumbnail_width : Z) : io unit :=
  match image_files with
  | [] => mret tt
  | image_path :: rest =>
      print (progress_line total i image_path);;
      process_image image_path logo_path thumbnail_width;;
      process_all total (S i) rest logo_path thumbnail_width
  end.

(** What [main] prints before the loop and after it. *)
Definition header_lines (n : nat) (args : arguments) : list string :=
  ["Found " +:+ count_str n +:+ " image(s) to process.";
   "Using logo: " +:+ PurePath.to_string (logo args);
   "Thumbnail width: " +:+ pretty (thumbnail_width_arg args) +:+ "px";
   ""].

Definition footer_lines (n : nat) : list string :=
  [""; "✓ Completed processing " +:+ count_str n +:+ " image(s)."].

Definition print_lines (lines : list string) : io unit := fun w =>
  (Returned tt, mkWorld (files w) (stdout w ++ lines)).

Definition logo_missing_line (args : arguments) : string :=
  "Error: Logo file not found: " +:+ PurePath.to_string (logo args).

(** [main], given the iteration order of the extension set and the
    entries below the root as the recursive walk returns them. *)
Definition main (exts : list string) (walk : list path) (args : arguments)
  : io unit :=
  let logo_path := logo args in
  found ← exists_ logo_path;
  if negb found then
    print (logo_missing_line args);;
    sys_exit 1
  else
    let image_files := find_images exts walk in
    match image_files with
    | [] => print "No image files found to process.";; sys_exit 0
    | _ =>
        let n := length image_files in
        print_lines (header_lines n args);;
        process_all n 1 image_files logo_path (thumbnail_width_arg args);;
        print_lines (footer_lines n)
    end.

(** The paths a run over [image_files] may write: each image and its
    thumbnail. *)
Definition written_paths (image_files : list path) : list path :=
  flat_map (fun p => [p; thumbnail_path_of p]) image_files.

End Script.

(** ** Footprints

    [w'] comes after [w] with writes within [keep]: every path outside
    [keep] holds what it held, no path was removed, and the console has
    only been appended to. *)
Definition grows (keep : list path) (w w' : world) : Prop :=
  (forall q, ~ In q keep -> files w' !! q = files w !! q) /\
  (forall q, is_Some (files w !! q) -> is_Some (files w' !! q)) /\
  (exists lines, stdout w' = stdout w ++ lines).

(** Code whose every run has its writes within [keep]. *)
Definition footprint {A} (keep : list path) (m : io A) : Prop :=
  forall w, grows keep w (snd (m w)).

(** ** [apply_watermark] on image objects

    Pillow images are mutable objects: [convert] and [copy] allocate a
    new one, [paste] writes into the receiver.  The store maps object
    identities to the current value of each image. *)

Abbreviation store := (gmap positive Image).

Module Obj.
Section Obj.
Context `{Pillow}.

Definition alloc (im : Image) : stateful store positive := fun h =>
  let l := fresh (dom h) in (Returned l, <[l := im]> h).

Definition deref (l : positive) : stateful store Image := fun h =>
  match h !! l with
  | Some im => (Returned im, h)
  | None => (Raised (Exception "no such object"), h)
  end.

Definition assign (l : positive) (im : Image) : stateful store unit := fun h =>
  (Returned tt, <[l := im]> h).

(** [image.convert(m)] *)
Definition convert_obj (image : positive) (m : string) : stateful store positive :=
  im ← deref image; alloc (convert im m).

(** [image.copy()] *)
Definition copy_obj (image : positive) : stateful store positive :=
  im ← deref image; alloc im.

(** [dst.paste(src, box, mask)] *)
Definition paste_obj (dst src : positive) (box : Z * Z) (mask : positive)
  : stateful store unit :=
  d ← deref dst;
  s ← deref src;
  m ← deref mask;
  r ← lift (paste d s box (Some m));
  assign dst r.

Definition apply_watermark (image watermark : positive) (position : string)
           (padding : Z) : stateful store positive :=
  im ← deref image;
  image ← (if negb (String.eqb (mode im) "RGBA")
           then convert_obj image "RGBA" else mret image);
  watermarked ← copy_obj image;
  wd ← deref watermarked;
  wm ← deref watermark;
  let '(img_width, img_height) := size wd in
  let '(wm_width, wm_height) := size wm in
  let xy := anchor position padding img_width img_height wm_width wm_height in
  paste_obj watermarked watermark xy watermark;;
  mret watermarked.

End Obj.
End Obj.

(** ** A small Pillow to run the script on

    Blending as Pillow's [Paste.c] computes it, nearest-neighbour
    resampling, no font file on the host and a default font of fixed
    6 x 11 glyphs that leaves the pixels as they are, lossless codecs. *)

Module Plain.

Definition DIV255 (a : Z) : Z :=
  let tmp := a + 128 in Z.shiftr (Z.shiftr tmp 8 + tmp) 8.

Definition has_alpha (m : string) : bool :=
  String.eqb m "RGBA" || String.eqb m "LA".

#[export] Instance pillow : Pillow := {|
  font := Z;
  convert_pixel := fun from to p =>
    if has_alpha to && negb (has_alpha from) then set_alpha p 255 else p;
  BLEND := fun m d s => DIV255 (d * (255 - m) + s * m);
  PREBLEND := fun m d s => Z.min 255 (s + DIV255 (d * (255 - m)));
  resample := fun im w h i j => pix im (i * width im / w) (j * height im / h);
  font_file_exists := fun _ => false;
  truetype := fun _ _ => None;
  load_default := 10;
  font_path := fun _ => None;
  differs_from_default := fun _ => true;
  textbbox := fun t _ => (0, 0, 6 * Z.of_nat (String.length t), 11);
  draw_text := fun im _ _ _ _ => pix im;
  decode := fun _ _ im => im
|}.

(** A uniform image. *)
Definition solid (m : string) (w h : Z) (color : pixel) : Image :=
  mkImage m w h (fun _ _ => color).

End Plain.

(** ** A directory to run the script on *)

Module Demo.
Import Plain.

Definition logo_image : Image := solid "RGBA" 64 32 (10, 20, 30, 255).

Definition photo (w h : Z) : Image := solid "RGB" w h (200, 100, 50, 255).

Definition logo_png : path := ["logo.png"].
Definition a_png : path := ["img"; "a.png"].
Definition b_jpg : path := ["img"; "b.jpg"].
Definition bad_png : path := ["img"; "bad.png"].
Definition tiny_png : path := ["img"; "tiny.png"].

(** [img/a.png] is 100 x 29, [img/b.jpg] is 1600 x 1000, [img/tiny.png] is
    4 x 4 and [img/bad.png] is not an image. *)
Definition tree : gmap path node :=
  <[logo_png := File (Encoded "PNG" 100 logo_image)]>
  (<[a_png := File (Encoded "PNG" 100 (photo 100 29))]>
  (<[b_jpg := File (Encoded "JPEG" 90 (photo 1600 1000))]>
  (<[bad_png := File Unidentified]>
  (<[tiny_png := File (Encoded "PNG" 100 (photo 4 4))]> ∅)))).

Definition world0 : world := mkWorld tree [].

(** A root [pics] holding a file named [.jpg] and a directory named
    [dir.png], with the logo outside it. *)
Definition dot_jpg : path := ["pics"; ".jpg"].
Definition dir_png : path := ["pics"; "dir.png"].

Definition odd_tree : gmap path node :=
  <[logo_png := File (Encoded "PNG" 100 logo_image)]>
  (<[["pics"] := Directory]>
  (<[dot_jpg := File (Encoded "JPEG" 90 (photo 100 80))]>
  (<[dir_png := Directory]> ∅))).

Definition odd_world : world := mkWorld odd_tree [].

(** The entries below [pics], as a walk lists them. *)
Definition odd_walk : list path := [dot_jpg; dir_png].

(** Two image objects: a photo and the logo. *)
Definition store0 : store :=
  <[1%positive := photo 100 80]> (<[2%positive := logo_image]> ∅).

(** The quality a file of the world was written at. *)
Definition quality_of (w : world) (p : path) : option Z :=
  match files w !! p with
  | Some (File (Encoded _ q _)) => Some q
  | _ => None
  end.




(** The size of the image a file of the world holds. *)
Definition dims (w : world) (p : path) : option (Z * Z) :=
  match files w !! p with
  | Some (File (Encoded _ _ im)) => Some (width im, height im)
  | _ => None
  end.

End Demo.

(** * Properties *)

(** * Running stateful code *)

Lemma bind_returned {S A B} (m : stateful S A) (k : A -> stateful S B)
      (s s' : S) (a : A) :
  m s = (Returned a, s') -> (m ≫= k) s = k a s'.
Proof. intros E. unfold mbind, stateful_bind. now rewrite E. Qed.

Lemma bind_raised {S A B} (m : stateful S A) (k : A -> stateful S B)
      (s s' : S) (e : exn) :
  m s = (Raised e, s') -> (m ≫= k) s = (Raised e, s').
Proof. intros E. unfold mbind, stateful_bind. now rewrite E. Qed.

Lemma bind_exited {S A B} (m : stateful S A) (k : A -> stateful S B)
      (s s' : S) (c : Z) :
  m s = (Exited c, s') -> (m ≫= k) s = (Exited c, s').
Proof. intros E. unfold mbind, stateful_bind. now rewrite E. Qed.

Lemma bind_inv {S A B} (m : stateful S A) (k : A -> stateful S B)
      (s s'' : S) (o : outcome B) :
  (m ≫= k) s = (o, s'') ->
  (exists a s', m s = (Returned a, s') /\ k a s' = (o, s'')) \/
  (exists e, m s = (Raised e, s'') /\ o = Raised e) \/
  (exists c, m s = (Exited c, s'') /\ o = Exited c).
Proof.
  unfold mbind, stateful_bind. destruct (m s) as [[a | e | c] s'].
  - intros E. left. eauto.
  - intros [= <- <-]. right. left. eauto.
  - intros [= <- <-]. right. right. eauto.
Qed.

Lemma bind_returned_inv {S A B} (m : stateful S A) (k : A -> stateful S B)
      (s s'' : S) (b : B) :
  (m ≫= k) s = (Returned b, s'') ->
  exists a s', m s = (Returned a, s') /\ k a s' = (Returned b, s'').
Proof.
  intros E. apply bind_inv in E as [E | [[e [_ E]] | [c [_ E]]]];
    [exact E | discriminate E | discriminate E].
Qed.

Lemma lift_bind {S A B} (o : outcome A) (k : A -> stateful S B) (s : S) :
  (lift o ≫= k) s =
  match o with
  | Returned a => k a s
  | Raised e => (Raised e, s)
  | Exited c => (Exited c, s)
  end.
Proof. unfold mbind, stateful_bind, lift. now destruct o. Qed.

Lemma lift_returned_inv {S A B} (o : outcome A) (k : A -> stateful S B)
      (s s' : S) (b : B) :
  (lift o ≫= k) s = (Returned b, s') ->
  exists a, o = Returned a /\ k a s = (Returned b, s').
Proof. rewrite lift_bind. destruct o; intros E; try discriminate E. eauto. Qed.

(** [SystemExit] is not an [Exception]: it leaves a [try] whose handler
    catches [Exception] as it entered it. *)
Lemma try_except_exited {S A} (body : stateful S A) (handler : exn -> stateful S A)
      (s s' : S) (c : Z) :
  body s = (Exited c, s') -> try_except body handler s = (Exited c, s').
Proof. intros E. unfold try_except. now rewrite E. Qed.

Lemma try_except_returned {S A} (body : stateful S A) (handler : exn -> stateful S A)
      (s s' : S) (a : A) :
  body s = (Returned a, s') -> try_except body handler s = (Returned a, s').
Proof. intros E. unfold try_except. now rewrite E. Qed.

Lemma try_except_raised {S A} (body : stateful S A) (handler : exn -> stateful S A)
      (s s' : S) (e : exn) :
  body s = (Raised e, s') -> try_except body handler s = handler e s'.
Proof. intros E. unfold try_except. now rewrite E. Qed.

(** The pure bind. *)
Lemma outcome_bind_inv {A B} (m : outcome A) (k : A -> outcome B) (b : B) :
  m ≫= k = Returned b -> exists a, m = Returned a /\ k a = Returned b.
Proof. destruct m; simpl; intros E; try discriminate E. eauto. Qed.

(** * Properties of the string and path operations *)

Section Discovery.

#[local] Arguments String.append : simpl nomatch.

Lemma append_assoc (a b c : string) : (a +:+ b) +:+ c = a +:+ (b +:+ c).
Proof. induction a as [|x a IH]; simpl; [reflexivity | now rewrite IH]. Qed.

Lemma append_empty_r (a : string) : a +:+ "" = a.
Proof. induction a as [|x a IH]; simpl; [reflexivity | now rewrite IH]. Qed.

Lemma append_length (a b : string) :
  String.length (a +:+ b) = (String.length a + String.length b)%nat.
Proof. induction a as [|x a IH]; simpl; [reflexivity | now rewrite IH]. Qed.

Lemma starts_with_spec (p s : string) :
  Str.starts_with p s = true <-> exists t, s = p +:+ t.
Proof.
  revert s; induction p as [|a p IH]; intros s; simpl.
  - split; [intros _; now exists s | reflexivity].
  - destruct s as [|b s].
    + split; [discriminate | intros [t Ht]; discriminate].
    + rewrite andb_true_iff, Ascii.eqb_eq, IH. split.
      * intros [-> [t ->]]. now exists t.
      * intros [t Ht]. injection Ht as -> ->. split; [reflexivity | now exists t].
Qed.

Lemma contains_spec (p s : string) :
  Str.contains p s = true <-> exists a b, s = a +:+ p +:+ b.
Proof.
  induction s as [|c s IH]; cbn [Str.contains]; rewrite orb_true_iff, starts_with_spec.
  - split.
    + intros [[t Ht] | Hf]; [| discriminate]. now exists "", t.
    + intros [a [b Hab]]. left. destruct a; [now exists b | discriminate].
  - rewrite IH. split.
    + intros [[t Ht] | [a [b Hab]]].
      * now exists "", t.
      * exists (String c a), b. simpl. now rewrite Hab.
    + intros [a [b Hab]]. destruct a as [|x a]; simpl in Hab.
      * left. now exists b.
      * right. injection Hab as _ ->. now exists a, b.
Qed.

Lemma ends_with_spec (p s : string) :
  Str.ends_with p s = true <-> exists a, s = a +:+ p.
Proof.
  induction s as [|c s IH]; cbn [Str.ends_with]; rewrite orb_true_iff, String.eqb_eq.
  - split.
    + intros [<- | Hf]; [| discriminate]. now exists "".
    + intros [a Ha]. left. destruct a; simpl in Ha; [exact Ha | discriminate].
  - rewrite IH. split.
    + intros [<- | [a ->]]; [now exists "" | now exists (String c a)].
    + intros [a Ha]. destruct a as [|x a]; simpl in Ha.
      * now left.
      * right. injection Ha as _ ->. now exists a.
Qed.

(** Two endings of one string of the same length are the same ending. *)
Lemma append_inj_length (a b x y : string) :
  a +:+ x = b +:+ y -> String.length x = String.length y -> a = b /\ x = y.
Proof.
  revert b; induction a as [|c a IH]; intros b Heq Hlen.
  - destruct b as [|d b]; simpl in *; [now split |].
    apply (f_equal String.length) in Heq. simpl in Heq.
    rewrite append_length in Heq. lia.
  - destruct b as [|d b]; simpl in *.
    + apply (f_equal String.length) in Heq. simpl in Heq.
      rewrite append_length in Heq. lia.
    + injection Heq as -> Heq. destruct (IH b Heq Hlen) as [-> ->]. now split.
Qed.

(** Of two endings of one string, the shorter is an ending of the longer. *)
Lemma ends_with_total (x y s : string) :
  Str.ends_with x s = true -> Str.ends_with y s = true ->
  (String.length x <= String.length y)%nat -> Str.ends_with x y = true.
Proof.
  induction s as [|c s IH]; cbn [Str.ends_with]; rewrite !orb_true_iff, !String.eqb_eq.
  - intros [<- | Hf] [<- | Hg] _; try discriminate. reflexivity.
  - intros [Hx | Hx] [Hy | Hy] Hlen.
    + subst x y. cbn [Str.ends_with]. rewrite String.eqb_refl. reflexivity.
    + subst x. apply ends_with_spec in Hy as [a Ha].
      apply (f_equal String.length) in Ha. rewrite append_length in Ha.
      simpl in Hlen. lia.
    + subst y. cbn [Str.ends_with]. rewrite Hx. apply orb_true_r.
    + now apply IH.
Qed.

Lemma image_extensions_exclusive (e1 e2 s : string) :
  In e1 image_extensions -> In e2 image_extensions ->
  Str.ends_with e1 s = true -> Str.ends_with e2 s = true -> e1 = e2.
Proof.
  intros H1 H2 E1 E2.
  destruct (Nat.le_ge_cases (String.length e1) (String.length e2)) as [Hl | Hl].
  - pose proof (ends_with_total _ _ _ E1 E2 Hl) as Hs.
    simpl in H1, H2.
    repeat (destruct H1 as [<- | H1]); try contradiction;
      repeat (destruct H2 as [<- | H2]); try contradiction;
      first [reflexivity | discriminate Hs].
  - pose proof (ends_with_total _ _ _ E2 E1 Hl) as Hs.
    simpl in H1, H2.
    repeat (destruct H1 as [<- | H1]); try contradiction;
      repeat (destruct H2 as [<- | H2]); try contradiction;
      first [reflexivity | discriminate Hs].
Qed.

(** * File discovery *)

Lemma In_rglob (walk : list path) (ext : string) (f : path) :
  In f (rglob walk ext) <-> In f walk /\ Str.ends_with ext (PurePath.name f) = true.
Proof. unfold rglob. apply filter_In. Qed.

Lemma In_find_images (exts : list string) (walk : list path) (f : path) :
  In f (find_images exts walk) <->
  In f walk /\
  (exists ext, In ext exts /\ Str.ends_with ext (PurePath.name f) = true) /\
  Str.contains "-thumb" (PurePath.stem f) = false.
Proof.
  unfold find_images. rewrite filter_In, in_flat_map, negb_true_iff. split.
  - intros [[ext [He Hf]] Ht]. apply In_rglob in Hf as [Hw Hm]. eauto.
  - intros [Hw [[ext [He Hm]] Ht]]. split; [| exact Ht].
    exists ext. split; [exact He |]. apply In_rglob. now split.
Qed.

Lemma NoDup_flat_map {A B} (g : A -> list B) (l : list A) :
  List.NoDup l ->
  (forall a, In a l -> List.NoDup (g a)) ->
  (forall a a' b, In a l -> In a' l -> In b (g a) -> In b (g a') -> a = a') ->
  List.NoDup (flat_map g l).
Proof.
  induction 1 as [|x l Hx Hl IH]; simpl; intros Hg Hdisj; [constructor |].
  apply List.NoDup_app.
  - apply Hg. now left.
  - apply IH.
    + intros a Ha. apply Hg. now right.
    + intros a a' b Ha Ha'. apply Hdisj; now right.
  - intros b Hb Hb'. apply in_flat_map in Hb' as [a' [Ha' Hb']].
    assert (x = a') by (eapply Hdisj; eauto). subst a'. contradiction.
Qed.

(** Every entry is found at most once, whatever the orders. *)
Lemma NoDup_find_images (exts : list string) (walk : list path) :
  Permutation exts image_extensions -> List.NoDup walk ->
  List.NoDup (find_images exts walk).
Proof.
  intros Hp Hw. unfold find_images. apply List.NoDup_filter.
  apply NoDup_flat_map.
  - apply (Permutation_NoDup (Permutation_sym Hp)).
    unfold image_extensions.
    repeat (constructor; [simpl; intuition discriminate |]). constructor.
  - intros ext _. unfold rglob. now apply List.NoDup_filter.
  - intros e1 e2 f H1 H2 F1 F2.
    apply In_rglob in F1 as [_ F1]. apply In_rglob in F2 as [_ F2].
    eapply image_extensions_exclusive; eauto;
      eapply Permutation_in; eauto.
Qed.

(** * The glob test and [PurePath.suffix] *)

Lemma rfind_dot_from_app (pre rest : string) (i : nat) (last : option nat) :
  (forall j l, Str.rfind_dot_from rest j l = l) ->
  Str.rfind_dot_from (pre +:+ String "." rest) i last
  = Some (i + String.length pre)%nat.
Proof.
  intros Hrest. revert i last. induction pre as [|c pre IH]; intros i last; simpl.
  - rewrite Hrest. f_equal. lia.
  - rewrite IH. f_equal. lia.
Qed.

Lemma substring_app_r (pre s : string) :
  String.substring (String.length pre) (String.length s) (pre +:+ s) = s.
Proof.
  induction pre as [|c pre IH]; simpl; [| exact IH].
  induction s as [|d s IHs]; simpl; [reflexivity | now rewrite IHs].
Qed.

Lemma substring_app_l (pre s : string) :
  String.substring 0 (String.length pre) (pre +:+ s) = pre.
Proof.
  induction pre as [|c pre IH]; simpl; [now destruct s | now rewrite IH].
Qed.

Lemma substring_split (s : string) (i : nat) :
  (i <= String.length s)%nat ->
  s = String.substring 0 i s +:+ String.substring i (String.length s - i) s.
Proof.
  revert i. induction s as [|c s IH]; intros i Hi; simpl in *.
  - destruct i; [reflexivity | lia].
  - destruct i as [|i]; simpl.
    + f_equal. clear. induction s as [|d s IHs]; simpl; [reflexivity | now rewrite <- IHs].
    + f_equal. apply IH. lia.
Qed.

Lemma rfind_dot_from_bound (s : string) (i : nat) (last : option nat) (k : nat) :
  Str.rfind_dot_from s i last = Some k ->
  (forall l, last = Some l -> (l < i)%nat) ->
  (k < i + String.length s)%nat.
Proof.
  revert i last. induction s as [|c s IH]; intros i last Hk Hl; simpl in *.
  - specialize (Hl _ Hk). lia.
  - apply IH in Hk; [lia |].
    intros l. destruct (Ascii.eqb c "."); [intros [= <-]; lia |].
    intros E. specialize (Hl _ E). lia.
Qed.

(** For a name longer than the extension, the glob [*ext] matches exactly
    when [PurePath.suffix] is [ext]; a name that is the bare extension
    (as [.png]) matches the glob and has no suffix. *)
Lemma glob_is_suffix (ext n : string) :
  In ext image_extensions -> n <> ext ->
  (Str.ends_with ext n = true <-> PurePath.suffix_of_name n = ext).
Proof.
  intros Hext Hne. split.
  - intros Hm. apply ends_with_spec in Hm as [pre ->].
    assert (Hpre : (0 < String.length pre)%nat).
    { destruct pre; [now elim Hne | simpl; lia]. }
    unfold PurePath.suffix_of_name, Str.rfind_dot.
    simpl in Hext.
    repeat (destruct Hext as [<- | Hext]); try contradiction;
      (rewrite rfind_dot_from_app by (intros; reflexivity);
       rewrite append_length; simpl String.length; simpl Nat.add;
       replace (0 <? String.length pre)%nat with true
         by (symmetry; apply Nat.ltb_lt; lia);
       match goal with
       | |- context [(?a <? ?b)%nat] =>
           replace (a <? b)%nat with true by (symmetry; apply Nat.ltb_lt; lia)
       end;
       simpl andb; cbv iota;
       match goal with
       | |- String.substring _ ?k (_ +:+ ?e) = _ =>
           replace k with (String.length e) by (simpl; lia)
       end;
       apply substring_app_r).
  - unfold PurePath.suffix_of_name, Str.rfind_dot.
    destruct (Str.rfind_dot_from n 0 None) as [i|] eqn:Ei.
    + destruct ((0 <? i)%nat && (i <? String.length n - 1)%nat) eqn:Eb.
      * intros Hs. apply ends_with_spec.
        exists (String.substring 0 i n). rewrite <- Hs.
        apply substring_split.
        apply rfind_dot_from_bound in Ei; [simpl in Ei; lia | discriminate].
      * intros <-. simpl in Hext. intuition discriminate.
    + intros <-. simpl in Hext. intuition discriminate.
Qed.

(** C1. File discovery.  Whatever the iteration order of the extension set
    and whatever the order of the directory walk, the list [main] builds
    holds exactly the entries below the root, regular files and
    directories alike, whose name ends in one of [.jpg], [.jpeg], [.png],
    [.JPG], [.JPEG], [.PNG] (the test the glob makes) and whose stem does
    not contain [-thumb]; for every name that is not itself one of these
    six strings that test is the test that [suffix] is one of them; a
    directory containing [photo.png] and [photo-thumb.png] yields the
    list with [photo.png] alone; and no entry is listed twice. *)
Theorem file_discovery (exts : list string) (walk : list path) :
  Permutation exts image_extensions ->
  (forall f, In f (find_images exts walk) <->
     In f walk /\
     (exists ext pre, In ext image_extensions /\ PurePath.name f = pre +:+ ext) /\
     ~ (exists a b, PurePath.stem f = a +:+ "-thumb" +:+ b)) /\
  (forall f, ~ In (PurePath.name f) image_extensions ->
     (In f (find_images exts walk) <->
      In f walk /\ In (PurePath.suffix f) image_extensions /\
      ~ (exists a b, PurePath.stem f = a +:+ "-thumb" +:+ b))) /\
  (forall dir,
     Permutation walk [dir ++ ["photo.png"]; dir ++ ["photo-thumb.png"]] ->
     find_images exts walk = [dir ++ ["photo.png"]]) /\
  (List.NoDup walk -> List.NoDup (find_images exts walk)).
Proof.
  intros Hp.
  assert (Hgen : forall f, In f (find_images exts walk) <->
     In f walk /\
     (exists ext pre, In ext image_extensions /\ PurePath.name f = pre +:+ ext) /\
     ~ (exists a b, PurePath.stem f = a +:+ "-thumb" +:+ b)).
  { intros f. rewrite In_find_images. split.
    - intros [Hw [[ext [He Hm]] Ht]]. split; [exact Hw |]. split.
      + apply ends_with_spec in Hm as [pre Hn]. exists ext, pre.
        split; [eapply Permutation_in; eauto | exact Hn].
      + intros Hc. apply contains_spec in Hc. congruence.
    - intros [Hw [[ext [pre [He Hn]]] Ht]]. split; [exact Hw |]. split.
      + exists ext. split.
        * eapply Permutation_in; [apply Permutation_sym; exact Hp | exact He].
        * apply ends_with_spec. now exists pre.
      + destruct (Str.contains "-thumb" (PurePath.stem f)) eqn:E; [| reflexivity].
        elim Ht. now apply contains_spec. }
  split; [exact Hgen |]. split; [| split; [| now apply NoDup_find_images]].
  - intros f Hbare. rewrite Hgen. split.
    + intros [Hw [[ext [pre [He Hn]]] Ht]]. repeat split; try assumption.
      assert (Hm : Str.ends_with ext (PurePath.name f) = true)
        by (apply ends_with_spec; now exists pre).
      apply glob_is_suffix in Hm; [| exact He | congruence].
      unfold PurePath.suffix. now rewrite Hm.
    + intros [Hw [Hs Ht]]. repeat split; try assumption.
      exists (PurePath.suffix f).
      assert (Hm : Str.ends_with (PurePath.suffix f) (PurePath.name f) = true).
      { apply glob_is_suffix; [exact Hs | congruence | reflexivity]. }
      apply ends_with_spec in Hm as [pre Hn]. exists pre. now split.
  - intros dir Hw.
    assert (Hname : forall x, PurePath.name (dir ++ [x]) = x)
      by (intros x; unfold PurePath.name; apply last_last).
    assert (Hin : forall f, In f (find_images exts walk) <-> f = dir ++ ["photo.png"]).
    { intros f. rewrite In_find_images. split.
      - intros [Hf [_ Ht]].
        apply (Permutation_in _ Hw) in Hf. simpl in Hf.
        destruct Hf as [<- | [<- | []]]; [reflexivity |].
        unfold PurePath.stem in Ht. rewrite Hname in Ht. discriminate Ht.
      - intros ->. split; [| split].
        + apply (Permutation_in _ (Permutation_sym Hw)). now left.
        + exists ".png". split.
          * apply (Permutation_in _ (Permutation_sym Hp)). simpl. tauto.
          * rewrite Hname. reflexivity.
        + unfold PurePath.stem. rewrite Hname. reflexivity. }
    assert (Hnd : List.NoDup (find_images exts walk)).
    { apply NoDup_find_images; [exact Hp |].
      apply (Permutation_NoDup (Permutation_sym Hw)).
      constructor; [| constructor; [intros [] | constructor]].
      intros [E | []]. apply app_inv_head in E. discriminate E. }
    destruct (find_images exts walk) as [|a [|b l]].
    + exfalso. apply (proj2 (Hin (dir ++ ["photo.png"]))); reflexivity.
    + f_equal. apply Hin. now left.
    + exfalso. assert (a = b).
      { transitivity (dir ++ ["photo.png"]);
          [apply Hin; now left | symmetry; apply Hin; right; now left]. }
      subst b. inversion Hnd as [|? ? Hn _]. apply Hn. now left.
Qed.

Lemma file_discovery_witness :
  find_images image_extensions [["photo.png"]; ["photo-thumb.png"]] = [["photo.png"]].
Proof.
  exact (proj1 (proj2 (proj2 (file_discovery image_extensions
                                [["photo.png"]; ["photo-thumb.png"]]
                                (Permutation_refl _)))) [] (Permutation_refl _)).
Defined.

(** An entry named [.jpg] is selected although it has no extension:
    its [suffix] is empty and its [stem] is the whole name, and
    [Image.save] finds no extension on it either.  A directory named
    [dir.png] is selected although it is not a file. *)
Lemma bare_extension_and_directory_selected :
  find_images image_extensions Demo.odd_walk = [Demo.dot_jpg; Demo.dir_png] /\
  PurePath.suffix Demo.dot_jpg = "" /\
  ~ In (PurePath.suffix Demo.dot_jpg) image_extensions /\
  PurePath.stem Demo.dot_jpg = ".jpg" /\
  splitext_ext (PurePath.name Demo.dot_jpg) = "" /\
  (exists c, files Demo.odd_world !! Demo.dot_jpg = Some (File c)) /\
  files Demo.odd_world !! Demo.dir_png = Some Directory.
Proof.
  split; [reflexivity |]. split; [reflexivity |].
  split; [simpl; intuition discriminate |].
  split; [reflexivity |]. split; [reflexivity |].
  split; [eexists; vm_compute; reflexivity | vm_compute; reflexivity].
Qed.

End Discovery.

(** * The compositor *)

Section Compositor.
Context `{Pillow}.

Lemma ensure_rgba_size (image : Image) :
  width (ensure_rgba image) = width image /\ height (ensure_rgba image) = height image.
Proof. unfold ensure_rgba. destruct (negb _); simpl; auto. Qed.

Lemma ensure_rgba_mode (image : Image) : mode (ensure_rgba image) = "RGBA".
Proof.
  unfold ensure_rgba. destruct (String.eqb (mode image) "RGBA") eqn:E; simpl.
  - now apply String.eqb_eq in E.
  - reflexivity.
Qed.

Lemma apply_watermark_paste (image watermark : Image) (position : string) (padding : Z) :
  apply_watermark image watermark position padding
  = paste (ensure_rgba image) watermark
      (anchor position padding (width image) (height image)
              (width watermark) (height watermark))
      (Some watermark).
Proof.
  unfold apply_watermark, size. fold (ensure_rgba image).
  destruct (ensure_rgba_size image) as [-> ->]. reflexivity.
Qed.

Lemma anchor_else (position : string) (padding W Hh w h : Z) :
  position <> "top_right" -> position <> "top_left" ->
  position <> "bottom_right" -> position <> "bottom_left" ->
  anchor position padding W Hh w h = ((W - w) / 2, (Hh - h) / 2).
Proof.
  intros H1 H2 H3 H4. unfold anchor.
  apply String.eqb_neq in H1, H2, H3, H4. now rewrite H1, H2, H3, H4.
Qed.

Lemma paste_self_mask (dst wm : Image) (box : Z * Z) :
  mode dst = "RGBA" -> mode wm = "RGBA" ->
  paste dst wm box (Some wm)
  = Returned (mkImage "RGBA" (width dst) (height dst)
      (fun i j =>
         if in_box box wm i j
         then map_bands (BLEND (alpha_of (pix wm (i - fst box) (j - snd box))))
                        (pix dst i j) (pix wm (i - fst box) (j - snd box))
         else pix dst i j)).
Proof.
  intros Hd Hw. unfold paste, paste_source. destruct box as [x y].
  rewrite Hd, Hw, !Z.eqb_refl. simpl. reflexivity.
Qed.

End Compositor.

(** C5. Centre anchoring: with position [center], [apply_watermark]
    pastes the watermark at ((img_width - wm_width) div 2,
    (img_height - wm_height) div 2) on the RGBA copy of the base image,
    and at that place twice the offset between the centre of the
    watermark and the centre of the image is 0 or 1 in each axis, so the
    centres are within one pixel (indeed within half a pixel). *)
Theorem center_anchoring `{Pillow} (image watermark : Image) (padding : Z) :
  let x := (width image - width watermark) / 2 in
  let y := (height image - height watermark) / 2 in
  anchor "center" padding (width image) (height image)
         (width watermark) (height watermark) = (x, y) /\
  apply_watermark image watermark "center" padding
  = paste (ensure_rgba image) watermark (x, y) (Some watermark) /\
  0 <= width image - (2 * x + width watermark) <= 1 /\
  0 <= height image - (2 * y + height watermark) <= 1.
Proof.
  intros x y. split; [reflexivity |]. split.
  - rewrite apply_watermark_paste. reflexivity.
  - unfold x, y. split.
    + pose proof (Z.div_mod (width image - width watermark) 2 ltac:(lia)).
      pose proof (Z.mod_pos_bound (width image - width watermark) 2 ltac:(lia)).
      lia.
    + pose proof (Z.div_mod (height image - height watermark) 2 ltac:(lia)).
      pose proof (Z.mod_pos_bound (height image - height watermark) 2 ltac:(lia)).
      lia.
Qed.

(** C10. Any position name other than [top_right], [top_left],
    [bottom_right] and [bottom_left], listed or not, places the
    watermark at the centre coordinates: [apply_watermark] does with it
    what it does with [center], and with an RGBA watermark it returns an
    image, no error being raised for the name. *)
Theorem unlisted_position_is_center `{Pillow} (image watermark : Image)
        (position : string) (padding : Z) :
  position <> "top_right" -> position <> "top_left" ->
  position <> "bottom_right" -> position <> "bottom_left" ->
  anchor position padding (width image) (height image)
         (width watermark) (height watermark)
  = ((width image - width watermark) / 2, (height image - height watermark) / 2) /\
  apply_watermark image watermark position padding
  = apply_watermark image watermark "center" padding /\
  (mode watermark = "RGBA" ->
   exists r, apply_watermark image watermark position padding = Returned r).
Proof.
  intros H1 H2 H3 H4. split; [now apply anchor_else |]. split.
  - rewrite !apply_watermark_paste. now rewrite anchor_else.
  - intros Hw. rewrite apply_watermark_paste.
    rewrite paste_self_mask; [eauto | apply ensure_rgba_mode | exact Hw].
Qed.

Lemma unlisted_position_is_center_witness :
  "middle" <> "top_right" /\
  anchor "middle" 20 100 80 30 20 = (35, 30) /\
  exists r, @apply_watermark Plain.pillow
              (Plain.solid "RGB" 100 80 (1, 2, 3, 255))
              (Plain.solid "RGBA" 30 20 (9, 9, 9, 128)) "middle" 20
            = Returned r.
Proof.
  pose proof (@unlisted_position_is_center Plain.pillow
                (Plain.solid "RGB" 100 80 (1, 2, 3, 255))
                (Plain.solid "RGBA" 30 20 (9, 9, 9, 128)) "middle" 20
                ltac:(discriminate) ltac:(discriminate)
                ltac:(discriminate) ltac:(discriminate)) as [Ha [_ Hr]].
  split; [discriminate |]. split; [exact Ha | exact (Hr eq_refl)].
Defined.

(** * [apply_watermark] on objects *)

Section Objects.
Context `{Pillow}.

Lemma fresh_lookup (h : store) : h !! fresh (dom h) = None.
Proof. apply not_elem_of_dom. apply is_fresh. Qed.

Lemma lookup_alloc_other (h : store) (im : Image) (l : positive) :
  is_Some (h !! l) -> <[fresh (dom h) := im]> h !! l = h !! l.
Proof.
  intros Hl. apply lookup_insert_ne. intros E. subst l.
  rewrite fresh_lookup in Hl. now destruct Hl.
Qed.

Lemma deref_some (h : store) (l : positive) (im : Image) :
  h !! l = Some im -> Obj.deref l h = (Returned im, h).
Proof. intros E. unfold Obj.deref. now rewrite E. Qed.

(** [convert] and [copy] add one object and touch no other. *)
Lemma alloc_from (h : store) (l : positive) (im : Image) (k : Image -> Image) :
  h !! l = Some im ->
  (Obj.deref l ≫= (fun x => Obj.alloc (k x))) h
  = (Returned (fresh (dom h)), <[fresh (dom h) := k im]> h).
Proof. intros E. now rewrite (bind_returned _ _ _ _ _ (deref_some _ _ _ E)). Qed.

(** What [apply_watermark] does after the conversion: copy, then paste
    into the copy. *)
Lemma copy_then_paste (h : store) (base watermark : positive) (b wm : Image)
      (position : string) (padding : Z) (r : Image) :
  h !! base = Some b -> h !! watermark = Some wm ->
  paste b wm (anchor position padding (width b) (height b) (width wm) (height wm))
        (Some wm) = Returned r ->
  (watermarked ← Obj.copy_obj base;
   wd ← Obj.deref watermarked;
   wm ← Obj.deref watermark;
   let '(img_width, img_height) := size wd in
   let '(wm_width, wm_height) := size wm in
   let xy := anchor position padding img_width img_height wm_width wm_height in
   Obj.paste_obj watermarked watermark xy watermark;;
   mret watermarked) h
  = (Returned (fresh (dom h)), <[fresh (dom h) := r]> (<[fresh (dom h) := b]> h)).
Proof.
  intros Hb Hwm Hp.
  set (l := fresh (dom h)). set (h1 := <[l := b]> h).
  assert (Hl : h !! l = None) by apply fresh_lookup.
  assert (E1 : h1 !! l = Some b) by apply lookup_insert_eq.
  assert (Ew : h1 !! watermark = Some wm).
  { unfold h1. rewrite lookup_insert_ne; [exact Hwm | congruence]. }
  unfold Obj.copy_obj.
  rewrite (bind_returned _ _ h h1 l).
  2:{ apply (alloc_from h base b (fun x => x) Hb). }
  rewrite (bind_returned _ _ _ _ _ (deref_some _ _ _ E1)).
  rewrite (bind_returned _ _ _ _ _ (deref_some _ _ _ Ew)).
  unfold size. cbv beta iota.
  unfold Obj.paste_obj.
  rewrite (bind_returned _ _ h1 (<[l := r]> h1) tt); [reflexivity |].
  rewrite (bind_returned _ _ _ _ _ (deref_some _ _ _ E1)).
  rewrite (bind_returned _ _ _ _ _ (deref_some _ _ _ Ew)).
  rewrite (bind_returned _ _ _ _ _ (deref_some _ _ _ Ew)).
  rewrite (bind_returned _ _ h1 h1 r); [reflexivity |].
  unfold lift. now rewrite Hp.
Qed.

End Objects.

(** C6. [apply_watermark] leaves its input alone.  Run on a store of
    image objects with an RGBA watermark, it returns a new object, one
    that was not in the store; every object that was there, the input
    image and the watermark among them, holds afterwards the pixels it
    held before; and the new object is the RGBA copy of the input with
    the watermark pasted at the anchor, each pixel under the watermark
    blended with the alpha byte of the watermark pixel as the mask. *)
Theorem apply_watermark_fresh_copy `{Pillow} (h : store) (image watermark : positive)
        (im wm : Image) (position : string) (padding : Z) :
  h !! image = Some im -> h !! watermark = Some wm -> mode wm = "RGBA" ->
  exists (l : positive) (h' : store) (r : Image),
    Obj.apply_watermark image watermark position padding h = (Returned l, h') /\
    h !! l = None /\
    h' !! l = Some r /\
    (forall l', is_Some (h !! l') -> h' !! l' = h !! l') /\
    h' !! image = Some im /\
    apply_watermark im wm position padding = Returned r /\
    let '(x, y) := anchor position padding (width im) (height im)
                          (width wm) (height wm) in
    r = mkImage "RGBA" (width im) (height im)
          (fun i j =>
             if in_box (x, y) wm i j
             then map_bands (BLEND (alpha_of (pix wm (i - x) (j - y))))
                            (pix (ensure_rgba im) i j) (pix wm (i - x) (j - y))
             else pix (ensure_rgba im) i j).
Proof.
  intros Him Hwm Hmode.
  pose proof (apply_watermark_paste im wm position padding) as Hval.
  pose proof Hval as Hpaste.
  rewrite paste_self_mask in Hval by (auto using ensure_rgba_mode).
  rewrite Hval in Hpaste. symmetry in Hpaste.
  destruct (ensure_rgba_size im) as [Hw Hh].
  rewrite <- Hw, <- Hh in Hpaste at 1.
  set (r := mkImage "RGBA" _ _ _) in *.
  unfold Obj.apply_watermark.
  rewrite (bind_returned _ _ _ _ _ (deref_some _ _ _ Him)).
  destruct (negb (String.eqb (mode im) "RGBA")) eqn:Em.
  - (* the input is converted first: two objects are allocated *)
    assert (Eb : ensure_rgba im = convert im "RGBA")
      by (unfold ensure_rgba; now rewrite Em).
    set (l1 := fresh (dom h)). set (h1 := <[l1 := convert im "RGBA"]> h).
    assert (Hl1 : h !! l1 = None) by apply fresh_lookup.
    assert (Hframe1 : forall l', is_Some (h !! l') -> h1 !! l' = h !! l')
      by (intros; now apply lookup_alloc_other).
    rewrite (bind_returned _ _ h h1 l1).
    2:{ apply (alloc_from h image im (fun x => convert x "RGBA") Him). }
    rewrite (copy_then_paste h1 l1 watermark (convert im "RGBA") wm position padding r).
    2:{ apply lookup_insert_eq. }
    2:{ rewrite Hframe1; eauto. }
    2:{ rewrite <- Eb. exact Hpaste. }
    set (l2 := fresh (dom h1)).
    assert (Hl2 : h1 !! l2 = None) by apply fresh_lookup.
    assert (Hl2' : h !! l2 = None).
    { destruct (h !! l2) eqn:E; [| reflexivity].
      rewrite <- Hframe1 in E by eauto. congruence. }
    assert (Hframe : forall l', is_Some (h !! l') ->
              <[l2 := r]> (<[l2 := convert im "RGBA"]> h1) !! l' = h !! l').
    { intros l' Hl'. assert (l' <> l2) by (intros ->; destruct Hl'; congruence).
      rewrite !lookup_insert_ne by congruence. now apply Hframe1. }
    exists l2, (<[l2 := r]> (<[l2 := convert im "RGBA"]> h1)), r.
    split; [reflexivity |]. split; [exact Hl2' |].
    split; [apply lookup_insert_eq |]. split; [exact Hframe |].
    split; [rewrite Hframe; eauto |]. split; [exact Hval |].
    unfold r. rewrite Hw, Hh.
    destruct (anchor _ _ _ _ _ _) as [x y]. reflexivity.
  - (* the input is RGBA already: one object is allocated *)
    assert (Eb : ensure_rgba im = im) by (unfold ensure_rgba; now rewrite Em).
    rewrite (bind_returned _ _ h h image) by reflexivity.
    rewrite (copy_then_paste h image watermark im wm position padding r Him Hwm).
    2:{ rewrite Eb in Hpaste. exact Hpaste. }
    set (l2 := fresh (dom h)).
    assert (Hl2 : h !! l2 = None) by apply fresh_lookup.
    assert (Hframe : forall l', is_Some (h !! l') ->
              <[l2 := r]> (<[l2 := im]> h) !! l' = h !! l').
    { intros l' Hl'. assert (l' <> l2) by (intros ->; destruct Hl'; congruence).
      now rewrite !lookup_insert_ne by congruence. }
    exists l2, (<[l2 := r]> (<[l2 := im]> h)), r.
    split; [reflexivity |]. split; [exact Hl2 |].
    split; [apply lookup_insert_eq |]. split; [exact Hframe |].
    split; [rewrite Hframe; eauto |]. split; [exact Hval |].
    unfold r. rewrite Hw, Hh.
    destruct (anchor _ _ _ _ _ _) as [x y]. reflexivity.
Qed.

Lemma apply_watermark_fresh_copy_witness :
  exists l h',
    @Obj.apply_watermark Plain.pillow 1%positive 2%positive "top_right" 20 Demo.store0
    = (Returned l, h') /\
    Demo.store0 !! l = None /\
    h' !! 1%positive = Some (Demo.photo 100 80).
Proof.
  destruct (@apply_watermark_fresh_copy Plain.pillow Demo.store0 1%positive 2%positive
              (Demo.photo 100 80) Demo.logo_image "top_right" 20
              ltac:(vm_compute; reflexivity) ltac:(vm_compute; reflexivity)
              ltac:(reflexivity))
    as (l & h' & r & Hrun & Hfresh & _ & _ & Hin & _).
  exists l, h'. auto.
Defined.

(** * The steps of the script and the world *)

Section Steps.
Context `{Pillow}.

Lemma Image_open_world (p : path) (w w' : world) (o : outcome Image) :
  Image_open p w = (o, w') -> w' = w.
Proof.
  unfold Image_open. destruct (files w !! p) as [[| [f q im |]] |];
    now intros [= _ <-].
Qed.

Lemma Image_open_file (p : path) (w : world) (f : string) (q : Z) (im : Image) :
  files w !! p = Some (File (Encoded f q im)) ->
  Image_open p w = (Returned (decode f q im), w).
Proof. intros E. unfold Image_open. now rewrite E. Qed.

Lemma Image_open_not_exited (p : path) (w w' : world) (c : Z) :
  Image_open p w <> (Exited c, w').
Proof.
  unfold Image_open. destruct (files w !! p) as [[| [f q im |]] |]; discriminate.
Qed.

Lemma load_logo_world (p : path) (ww : Z) (w w' : world) (o : outcome Image) :
  load_logo p ww w = (o, w') -> w' = w.
Proof.
  unfold load_logo. intros E.
  apply bind_inv in E as [(a & s' & E1 & E2) | [(e & E1 & _) | (c & E1 & _)]].
  - apply Image_open_world in E1 as ->. unfold lift in E2. now injection E2.
  - now apply Image_open_world in E1.
  - now apply Image_open_world in E1.
Qed.

(** What [create_watermark] does to the world: nothing when it returns
    or raises; when the logo cannot be loaded or scaled it prints the
    error and leaves through [sys.exit(1)]. *)
Lemma create_watermark_cases (logo_path : path) (image_width : Z) (opacity : float)
      (w : world) :
  match int_scaled image_width 0.20 with
  | Returned ww =>
      match load_logo logo_path ww w with
      | (Returned logo, _) =>
          create_watermark logo_path image_width opacity w
          = (draw_watermark logo ww ≫= (fun wm => apply_opacity wm opacity), w)
      | (Raised e, _) =>
          create_watermark logo_path image_width opacity w
          = (Exited 1, mkWorld (files w)
                               (stdout w ++ ["Error loading logo: " +:+ exn_str e]))
      | (Exited c, _) =>
          create_watermark logo_path image_width opacity w = (Exited c, w)
      end
  | Raised e => create_watermark logo_path image_width opacity w = (Raised e, w)
  | Exited c => create_watermark logo_path image_width opacity w = (Exited c, w)
  end.
Proof.
  unfold create_watermark. rewrite lift_bind.
  destruct (int_scaled image_width 0.20) as [ww | e | c]; try reflexivity.
  destruct (load_logo logo_path ww w) as [[logo | e | c] w1] eqn:El;
    pose proof (load_logo_world _ _ _ _ _ El) as ->.
  - rewrite (bind_returned _ _ w w logo) by (now apply try_except_returned).
    rewrite lift_bind.
    destruct (draw_watermark logo ww) as [wm | e | c]; try reflexivity.
  - unfold mbind at 1, stateful_bind at 1, try_except. rewrite El.
    reflexivity.
  - rewrite (bind_exited _ _ w w c) by (now apply try_except_exited).
    reflexivity.
Qed.

Lemma create_watermark_returned (logo_path : path) (image_width : Z) (opacity : float)
      (w w' : world) (wm : Image) :
  create_watermark logo_path image_width opacity w = (Returned wm, w') ->
  w' = w /\
  exists ww logo canvas,
    int_scaled image_width 0.20 = Returned ww /\
    load_logo logo_path ww w = (Returned logo, w) /\
    draw_watermark logo ww = Returned canvas /\
    apply_opacity canvas opacity = Returned wm.
Proof.
  pose proof (create_watermark_cases logo_path image_width opacity w) as Hc.
  destruct (int_scaled image_width 0.20) as [ww | e | c];
    [| rewrite Hc; discriminate | rewrite Hc; discriminate].
  destruct (load_logo logo_path ww w) as [[logo | e | c] w1] eqn:El;
    pose proof (load_logo_world _ _ _ _ _ El) as ->;
    rewrite Hc; [| discriminate | discriminate].
  intros [= E <-]. split; [reflexivity |].
  apply outcome_bind_inv in E as [canvas [E1 E2]].
  exists ww, logo, canvas. auto.
Qed.

Lemma create_watermark_raised (logo_path : path) (image_width : Z) (opacity : float)
      (w w' : world) (e : exn) :
  create_watermark logo_path image_width opacity w = (Raised e, w') -> w' = w.
Proof.
  pose proof (create_watermark_cases logo_path image_width opacity w) as Hc.
  destruct (int_scaled image_width 0.20) as [ww | e0 | c];
    [| rewrite Hc; now intros [= _ <-] | rewrite Hc; discriminate].
  destruct (load_logo logo_path ww w) as [[logo | e0 | c] w1] eqn:El;
    rewrite Hc; [| discriminate | discriminate].
  now intros [= _ <-].
Qed.

(** The watermark depends on the world through the logo file alone. *)
Lemma create_watermark_same_logo (lp : path) (iw : Z) (opacity : float)
      (w w2 : world) (wm : Image) :
  files w2 !! lp = files w !! lp ->
  create_watermark lp iw opacity w = (Returned wm, w) ->
  create_watermark lp iw opacity w2 = (Returned wm, w2).
Proof.
  intros Hf E.
  pose proof (create_watermark_cases lp iw opacity w) as Hc.
  pose proof (create_watermark_cases lp iw opacity w2) as Hc2.
  destruct (int_scaled iw 0.20) as [ww | e | c];
    [| rewrite Hc in E; discriminate E | rewrite Hc in E; discriminate E].
  assert (Hl : fst (load_logo lp ww w2) = fst (load_logo lp ww w)).
  { unfold load_logo, mbind, stateful_bind, Image_open. rewrite Hf.
    destruct (files w !! lp) as [[| [f q im |]] |]; reflexivity. }
  destruct (load_logo lp ww w) as [[logo_image | e | c] s] eqn:El;
    [| rewrite Hc in E; discriminate E | rewrite Hc in E; discriminate E].
  destruct (load_logo lp ww w2) as [o2 s2] eqn:El2.
  cbn [fst] in Hl. subst o2.
  rewrite Hc in E. rewrite Hc2. injection E as E. now rewrite E.
Qed.

Lemma save_returned (im : Image) (p : path) (q : Z) (w w' : world) :
  save im p q w = (Returned tt, w') ->
  exists fmt, w' = mkWorld (<[p := File (Encoded fmt q im)]> (files w)) (stdout w).
Proof.
  unfold save.
  destruct (format_of_extension _) as [fmt |]; [| discriminate].
  destruct (negb (writable_mode fmt (mode im))); [discriminate |].
  destruct (files w !! p) as [[| c] |]; try discriminate;
    intros [= <-]; now exists fmt.
Qed.

Lemma save_raised (im : Image) (p : path) (q : Z) (w w' : world) (e : exn) :
  save im p q w = (Raised e, w') -> w' = w.
Proof.
  unfold save.
  destruct (format_of_extension _) as [fmt |]; [| now intros [= _ <-]].
  destruct (negb (writable_mode fmt (mode im))); [now intros [= _ <-] |].
  destruct (files w !! p) as [[| c] |]; try discriminate; now intros [= _ <-].
Qed.

Lemma save_not_exited (im : Image) (p : path) (q : Z) (w w' : world) (c : Z) :
  save im p q w <> (Exited c, w').
Proof.
  unfold save.
  destruct (format_of_extension _) as [fmt |]; [| discriminate].
  destruct (negb (writable_mode fmt (mode im))); [discriminate |].
  destruct (files w !! p) as [[| c0] |]; discriminate.
Qed.

(** ** Sizes *)

Lemma paste_size (dst src : Image) (box : Z * Z) (mask : option Image) (r : Image) :
  paste dst src box mask = Returned r ->
  width r = width dst /\ height r = height dst /\ mode r = mode dst.
Proof.
  unfold paste. destruct box as [x y]. destruct mask as [m |].
  - destruct (negb _); [discriminate |]. destruct (negb _); [discriminate |].
    intros [= <-]. auto.
  - intros [= <-]. auto.
Qed.

Lemma Image_new_size (m : string) (w h : Z) (c : pixel) (r : Image) :
  Image_new m (w, h) c = Returned r -> width r = w /\ height r = h /\ mode r = m.
Proof.
  unfold Image_new. destruct (_ || _); [discriminate |]. intros [= <-]. auto.
Qed.

Lemma normalize_size (image r : Image) :
  normalize image = Returned r -> width r = width image /\ height r = height image.
Proof.
  unfold normalize. destruct (_ || _).
  - intros E. apply outcome_bind_inv in E as [c [E1 E2]].
    apply Image_new_size in E1 as (Hw & Hh & _).
    apply paste_size in E2 as (-> & -> & _). auto.
  - destruct (negb _); intros [= <-]; auto.
Qed.

Lemma apply_watermark_size (image wm r : Image) (position : string) (padding : Z) :
  apply_watermark image wm position padding = Returned r ->
  width r = width image /\ height r = height image.
Proof.
  rewrite apply_watermark_paste. intros E.
  apply paste_size in E as (-> & -> & _). apply ensure_rgba_size.
Qed.

Lemma flatten_for_size (p : path) (im r : Image) :
  flatten_for p im = Returned r -> width r = width im /\ height r = height im.
Proof.
  unfold flatten_for. destruct (is_jpeg_suffix _); [| intros [= <-]; auto].
  destruct (String.eqb _ _); [| intros [= <-]; auto].
  intros E. apply outcome_bind_inv in E as [c [E1 E2]].
  apply Image_new_size in E1 as (Hw & Hh & _).
  apply paste_size in E2 as (-> & -> & _). auto.
Qed.

Lemma resize_size (im r : Image) (w h : Z) :
  resize im (w, h) = Returned r -> width r = w /\ height r = h.
Proof.
  unfold resize. destruct (_ && _) eqn:E.
  - intros [= <-]. apply andb_true_iff in E as [E1 E2]. lia.
  - destruct (_ || _); [discriminate |]. intros [= <-]. auto.
Qed.

End Steps.

(** * The two halves of [process_image] *)

Section Halves.
Context `{Pillow}.

Lemma watermark_original_returned (image_path logo_path : path) (w w1 : world)
      (image : Image) :
  watermark_original image_path logo_path w = (Returned image, w1) ->
  exists raw wm wi wi' fmt,
    Image_open image_path w = (Returned raw, w) /\
    normalize raw = Returned image /\
    create_watermark logo_path (width image) 0.55 w = (Returned wm, w) /\
    apply_watermark image wm "top_right" 20 = Returned wi /\
    flatten_for image_path wi = Returned wi' /\
    w1 = mkWorld (<[image_path := File (Encoded fmt 95 wi')]> (files w))
                 (stdout w ++ [watermarked_line image_path]).
Proof.
  unfold watermark_original. intros E.
  apply bind_returned_inv in E as (raw & s1 & E1 & E).
  pose proof (Image_open_world _ _ _ _ E1) as ->.
  apply lift_returned_inv in E as (im & E2 & E).
  apply bind_returned_inv in E as (wm & s3 & E3 & E).
  pose proof (create_watermark_returned _ _ _ _ _ _ E3) as [-> _].
  apply lift_returned_inv in E as (wi & E4 & E).
  apply lift_returned_inv in E as (wi' & E5 & E).
  apply bind_returned_inv in E as ([] & s6 & E6 & E).
  apply save_returned in E6 as [fmt ->].
  apply bind_returned_inv in E as ([] & s7 & E7 & E).
  unfold print in E7. injection E7 as <-.
  unfold mret, stateful_ret in E. injection E as <- <-.
  exists raw, wm, wi, wi', fmt. repeat split; assumption.
Qed.

Lemma generate_thumbnail_returned (image : Image) (image_path logo_path : path)
      (T : Z) (w1 w' : world) :
  generate_thumbnail image image_path logo_path T w1 = (Returned tt, w') ->
  exists th thumbnail wm wt thumb fmt,
    thumbnail_height_of T image = Returned th /\
    resize image (T, th) = Returned thumbnail /\
    create_watermark logo_path (width thumbnail) 0.55 w1 = (Returned wm, w1) /\
    apply_watermark thumbnail wm "top_right" 10 = Returned wt /\
    flatten_for (thumbnail_path_of image_path) wt = Returned thumb /\
    w' = mkWorld (<[thumbnail_path_of image_path := File (Encoded fmt 90 thumb)]>
                    (files w1))
                 (stdout w1 ++ [thumbnail_line (thumbnail_path_of image_path)]).
Proof.
  unfold generate_thumbnail. intros E.
  apply lift_returned_inv in E as (th & E1 & E).
  apply lift_returned_inv in E as (thumbnail & E2 & E).
  apply bind_returned_inv in E as (wm & s3 & E3 & E).
  pose proof (create_watermark_returned _ _ _ _ _ _ E3) as [-> _].
  apply lift_returned_inv in E as (wt & E4 & E).
  apply lift_returned_inv in E as (thumb & E5 & E).
  apply bind_returned_inv in E as ([] & s6 & E6 & E).
  apply save_returned in E6 as [fmt ->].
  unfold print in E. injection E as <-.
  exists th, thumbnail, wm, wt, thumb, fmt. repeat split; assumption.
Qed.

(** An exception in the second half leaves the world as the first half
    left it. *)
Lemma generate_thumbnail_raised (image : Image) (image_path logo_path : path)
      (T : Z) (w1 w2 : world) (e : exn) :
  generate_thumbnail image image_path logo_path T w1 = (Raised e, w2) -> w2 = w1.
Proof.
  unfold generate_thumbnail. intros E.
  rewrite lift_bind in E.
  destruct (thumbnail_height_of T image) as [th | e0 | c];
    [| now injection E | discriminate E].
  rewrite lift_bind in E.
  destruct (resize image (T, th)) as [thumbnail | e0 | c];
    [| now injection E | discriminate E].
  apply bind_inv in E as [(wm & s3 & E3 & E) | [(e0 & E3 & _) | (c & _ & E)]];
    [| now apply create_watermark_raised in E3 | discriminate E].
  pose proof (create_watermark_returned _ _ _ _ _ _ E3) as [-> _].
  cbv beta in E. rewrite lift_bind in E.
  destruct (apply_watermark thumbnail wm "top_right" 10) as [wt | e0 | c];
    [| now injection E | discriminate E].
  rewrite lift_bind in E.
  destruct (flatten_for (thumbnail_path_of image_path) wt) as [thumb | e0 | c];
    [| now injection E | discriminate E].
  apply bind_inv in E as [([] & s6 & E6 & E) | [(e0 & E6 & _) | (c & _ & E)]];
    [| now apply save_raised in E6 | discriminate E].
  unfold print in E. discriminate E.
Qed.

Lemma process_image_body_returned (image_path logo_path : path) (T : Z)
      (w w' : world) :
  process_image_body image_path logo_path T w = (Returned tt, w') ->
  exists image w1,
    watermark_original image_path logo_path w = (Returned image, w1) /\
    generate_thumbnail image image_path logo_path T w1 = (Returned tt, w').
Proof. unfold process_image_body. apply bind_returned_inv. Qed.

Lemma process_all_cons (total i : nat) (p : path) (rest : list path)
      (logo_path : path) (T : Z) (w : world) :
  process_all total i (p :: rest) logo_path T w
  = (process_image p logo_path T ≫=
       (fun _ => process_all total (S i) rest logo_path T))
      (mkWorld (files w) (stdout w ++ [progress_line total i p])).
Proof. reflexivity. Qed.

End Halves.

Lemma pair_of_fst {A B} (r : A * B) (a : A) : fst r = a -> r = (a, snd r).
Proof. destruct r. simpl. now intros ->. Qed.

(** * The per-file processor *)

(** C3. Thumbnail dimensions.  When [process_image] completes on a source
    image of width W and height H with thumbnail width T, the thumbnail
    written beside it has width exactly T and height
    [int(T * (H / W))] as binary64 arithmetic computes it: the quotient
    rounded, the product rounded, the result truncated.  For a
    1600 x 1000 source and T = 400 that height is 250. *)
Theorem thumbnail_dimensions `{Pillow} (image_path logo_path : path) (T : Z)
        (w w' : world) (fmt : string) (q : Z) (src : Image) :
  files w !! image_path = Some (File (Encoded fmt q src)) ->
  process_image_body image_path logo_path T w = (Returned tt, w') ->
  (exists th fmt' thumb,
     Py.truediv (height (decode fmt q src)) (width (decode fmt q src))
       ≫= int_scaled T = Returned th /\
     files w' !! thumbnail_path_of image_path = Some (File (Encoded fmt' 90 thumb)) /\
     width thumb = T /\ height thumb = th) /\
  (width (decode fmt q src) = 1600 -> height (decode fmt q src) = 1000 -> T = 400 ->
   exists fmt' thumb,
     files w' !! thumbnail_path_of image_path = Some (File (Encoded fmt' 90 thumb)) /\
     width thumb = 400 /\ height thumb = 250).
Proof.
  intros Hsrc Hrun.
  apply process_image_body_returned in Hrun as (image & w1 & E1 & E2).
  apply watermark_original_returned in E1
    as (raw & wm & wi & wi' & f1 & Eo & En & _ & _ & _ & ->).
  rewrite (Image_open_file _ _ _ _ _ Hsrc) in Eo. injection Eo as <-.
  apply normalize_size in En as [Hw Hh].
  apply generate_thumbnail_returned in E2
    as (th & thumbnail & wm2 & wt & thumb & f2 & Eh & Er & _ & Ea & Ef & ->).
  apply resize_size in Er as [Hrw Hrh].
  apply apply_watermark_size in Ea as [Haw Hah].
  apply flatten_for_size in Ef as [Hfw Hfh].
  unfold thumbnail_height_of in Eh. rewrite Hw, Hh in Eh.
  assert (Hlook : files (mkWorld
            (<[thumbnail_path_of image_path := File (Encoded f2 90 thumb)]>
               (files (mkWorld (<[image_path := File (Encoded f1 95 wi')]> (files w))
                               (stdout w ++ [watermarked_line image_path]))))
            (stdout (mkWorld (<[image_path := File (Encoded f1 95 wi')]> (files w))
                             (stdout w ++ [watermarked_line image_path]))
             ++ [thumbnail_line (thumbnail_path_of image_path)]))
          !! thumbnail_path_of image_path = Some (File (Encoded f2 90 thumb)))
    by apply lookup_insert_eq.
  split.
  - exists th, f2, thumb. repeat split; try assumption; congruence.
  - intros HW HH ->. exists f2, thumb. repeat split; try assumption; [congruence |].
    rewrite HW, HH in Eh. vm_compute in Eh. injection Eh as <-. congruence.
Qed.

Lemma thumbnail_dimensions_witness :
  Demo.dims (snd (@process_image_body Plain.pillow Demo.b_jpg Demo.logo_png 400
                                      Demo.world0))
            (thumbnail_path_of Demo.b_jpg) = Some (400, 250).
Proof.
  destruct (proj2 (@thumbnail_dimensions Plain.pillow Demo.b_jpg Demo.logo_png 400
              Demo.world0 _ "JPEG" 90 (Demo.photo 1600 1000)
              ltac:(vm_compute; reflexivity)
              (pair_of_fst _ _ ltac:(vm_compute; reflexivity)))
            eq_refl eq_refl eq_refl) as (f & thumb & E & Hw & Hh).
  unfold Demo.dims. rewrite E, Hw, Hh. reflexivity.
Defined.

(** The thumbnail of a 100 x 29 image at width 400 is 400 x 115, while
    floor(400 * 29 / 100) is 116: 29/100 is not a binary64 number, and
    400 times its nearest one rounds to 115.99999999999999. *)
Lemma thumbnail_height_below_floor :
  fst (@process_image_body Plain.pillow Demo.a_png Demo.logo_png 400 Demo.world0)
  = Returned tt /\
  Demo.dims Demo.world0 Demo.a_png = Some (100, 29) /\
  Demo.dims (snd (@process_image_body Plain.pillow Demo.a_png Demo.logo_png 400
                                      Demo.world0))
            (thumbnail_path_of Demo.a_png) = Some (400, 115) /\
  115 <> 400 * 29 / 100.
Proof.
  split; [vm_compute; reflexivity |].
  split; [vm_compute; reflexivity |].
  split; [vm_compute; reflexivity |].
  vm_compute. discriminate.
Qed.




(** C7. Save ordering and absence of rollback.  The second half of
    [process_image], the thumbnail, runs in the world the first half
    left, in which the watermarked image is already written over the
    original file.  When a step of the second half raises an
    [Exception], [process_image] catches it, prints the error line for
    the file and returns; the files are those the first half left, the
    original overwritten and no thumbnail written; and the loop goes on
    with the next file. *)
Theorem original_saved_before_thumbnail `{Pillow} (image_path logo_path : path)
        (T : Z) (w w1 : world) (image : Image) :
  watermark_original image_path logo_path w = (Returned image, w1) ->
  (exists fmt watermarked,
     files w1 = <[image_path := File (Encoded fmt 95 watermarked)]> (files w)) /\
  process_image_body image_path logo_path T w
  = generate_thumbnail image image_path logo_path T w1 /\
  forall e w2,
    generate_thumbnail image image_path logo_path T w1 = (Raised e, w2) ->
    let w3 := mkWorld (files w1) (stdout w1 ++ [error_line image_path e]) in
    process_image image_path logo_path T w = (Returned tt, w3) /\
    forall total i rest w0,
      w = mkWorld (files w0) (stdout w0 ++ [progress_line total i image_path]) ->
      process_all total i (image_path :: rest) logo_path T w0
      = process_all total (S i) rest logo_path T w3.
Proof.
  intros E1.
  assert (Hbody : process_image_body image_path logo_path T w
                  = generate_thumbnail image image_path logo_path T w1).
  { exact (bind_returned _ (fun im => generate_thumbnail im image_path logo_path T)
                          _ _ _ E1). }
  split; [| split; [exact Hbody |]].
  - apply watermark_original_returned in E1
      as (raw & wm & wi & wi' & f1 & _ & _ & _ & _ & _ & ->).
    now exists f1, wi'.
  - intros e w2 E2 w3.
    pose proof (generate_thumbnail_raised _ _ _ _ _ _ _ E2) as ->.
    assert (Hp : process_image image_path logo_path T w = (Returned tt, w3)).
    { unfold process_image. rewrite (try_except_raised _ _ w w1 e) by congruence.
      reflexivity. }
    split; [exact Hp |].
    intros total i rest w0 ->. rewrite process_all_cons.
    now rewrite (bind_returned _ _ _ _ _ Hp).
Qed.

(** With thumbnail width 0 the thumbnail height of [img/a.png] is 0 and
    [resize] raises after the original was saved. *)
Lemma original_saved_before_thumbnail_witness :
  exists w3,
    @process_image Plain.pillow Demo.a_png Demo.logo_png 0 Demo.world0
    = (Returned tt, w3) /\
    Demo.dims w3 (thumbnail_path_of Demo.a_png) = None.
Proof.
  destruct (@watermark_original Plain.pillow Demo.a_png Demo.logo_png Demo.world0)
    as [o w1] eqn:E1.
  assert (Ho : o = Returned (Demo.photo 100 29)).
  { apply (f_equal fst) in E1. simpl in E1. rewrite <- E1. vm_compute. reflexivity. }
  subst o.
  destruct (@generate_thumbnail Plain.pillow (Demo.photo 100 29) Demo.a_png
              Demo.logo_png 0 w1) as [o2 w2] eqn:E2.
  assert (Ho2 : o2 = Raised (Exception "height and width must be > 0")).
  { apply (f_equal fst) in E2. simpl in E2. rewrite <- E2.
    vm_compute. reflexivity. }
  subst o2.
  destruct (@original_saved_before_thumbnail Plain.pillow _ _ 0 _ _ _ E1)
    as ([f [wi Hf]] & _ & Hr).
  destruct (Hr _ _ E2) as [Hp _].
  eexists. split; [exact Hp |].
  unfold Demo.dims. simpl files. rewrite Hf.
  rewrite lookup_insert_ne by discriminate. vm_compute. reflexivity.
Defined.

(** With thumbnail width 5 the logo scaled for the watermark of the
    thumbnail is 0 pixels wide: [resize] raises inside
    [create_watermark], which prints and calls [sys.exit(1)].  The
    original is saved by then; what propagates is [SystemExit], which
    [process_image] does not catch; no error line for the file is
    printed; and the loop stops, the next file never written (it keeps
    the quality 100 it had, where a processed file has 95). *)
Lemma thumbnail_logo_failure_stops_batch :
  let first := @watermark_original Plain.pillow Demo.b_jpg Demo.logo_png Demo.world0 in
  let one := @process_image Plain.pillow Demo.b_jpg Demo.logo_png 5 Demo.world0 in
  let all := @process_all Plain.pillow 2 1 [Demo.b_jpg; Demo.a_png] Demo.logo_png 5
                          Demo.world0 in
  fst first = Returned (Demo.photo 1600 1000) /\
  fst (@generate_thumbnail Plain.pillow (Demo.photo 1600 1000) Demo.b_jpg
         Demo.logo_png 5 (snd first)) = Exited 1 /\
  fst one = Exited 1 /\
  stdout (snd one) = [watermarked_line Demo.b_jpg;
                      "Error loading logo: height and width must be > 0"] /\
  fst all = Exited 1 /\
  Demo.quality_of Demo.world0 Demo.b_jpg = Some 90 /\
  Demo.quality_of (snd all) Demo.b_jpg = Some 95 /\
  Demo.quality_of Demo.world0 Demo.a_png = Some 100 /\
  Demo.quality_of (snd all) Demo.a_png = Some 100 /\
  Demo.dims (snd all) (thumbnail_path_of Demo.b_jpg) = None.
Proof.
  cbv zeta. repeat split; vm_compute; reflexivity.
Qed.

(** * The batch driver *)

Section Driver.
Context `{Pillow}.

Lemma main_logo_missing (exts : list string) (walk : list path) (args : arguments)
      (w : world) :
  files w !! logo args = None ->
  main exts walk args w
  = (Exited 1, mkWorld (files w) (stdout w ++ [logo_missing_line args])).
Proof.
  intros E. unfold main, exists_, mbind, stateful_bind.
  rewrite E. rewrite bool_decide_eq_false_2 by (intros [x Hx]; discriminate Hx).
  reflexivity.
Qed.

Lemma main_loop (exts : list string) (walk : list path) (args : arguments)
      (w : world) :
  is_Some (files w !! logo args) -> find_images exts walk <> [] ->
  main exts walk args w
  = (process_all (length (find_images exts walk)) 1 (find_images exts walk)
                 (logo args) (thumbnail_width_arg args) ≫=
       (fun _ => print_lines (footer_lines (length (find_images exts walk)))))
      (mkWorld (files w)
               (stdout w ++ header_lines (length (find_images exts walk)) args)).
Proof.
  intros E Hne. unfold main, exists_. unfold mbind at 1, stateful_bind at 1.
  rewrite bool_decide_eq_true_2 by exact E. simpl negb. cbv iota.
  destruct (find_images exts walk) as [| p rest]; [now elim Hne |].
  reflexivity.
Qed.

Lemma main_no_images (exts : list string) (walk : list path) (args : arguments)
      (w : world) :
  is_Some (files w !! logo args) -> find_images exts walk = [] ->
  main exts walk args w
  = (Exited 0, mkWorld (files w) (stdout w ++ ["No image files found to process."])).
Proof.
  intros E Hnone. unfold main, exists_. unfold mbind at 1, stateful_bind at 1.
  rewrite bool_decide_eq_true_2 by exact E. simpl negb. cbv iota.
  rewrite Hnone. reflexivity.
Qed.

(** An exception never leaves [process_image]. *)
Lemma process_image_absorbs (image_path logo_path : path) (T : Z) (w w1 : world)
      (e : exn) :
  process_image_body image_path logo_path T w = (Raised e, w1) ->
  process_image image_path logo_path T w
  = (Returned tt, mkWorld (files w1) (stdout w1 ++ [error_line image_path e])).
Proof. intros E. unfold process_image. now rewrite (try_except_raised _ _ _ _ _ E). Qed.

Lemma process_image_not_raised (image_path logo_path : path) (T : Z) (w w1 : world)
      (e : exn) :
  process_image image_path logo_path T w <> (Raised e, w1).
Proof.
  unfold process_image, try_except.
  destruct (process_image_body image_path logo_path T w) as [[[] | e0 | c] w2];
    discriminate.
Qed.

Lemma process_all_not_raised (total i : nat) (l : list path) (logo_path : path)
      (T : Z) (w w1 : world) (e : exn) :
  process_all total i l logo_path T w <> (Raised e, w1).
Proof.
  revert i w. induction l as [| p rest IH]; intros i w; [discriminate |].
  rewrite process_all_cons. intros E.
  apply bind_inv in E as [([] & s & E1 & E2) | [(e0 & E1 & _) | (c & _ & E2)]].
  - now apply IH in E2.
  - now apply process_image_not_raised in E1.
  - discriminate E2.
Qed.

End Driver.

(** C2. Exit codes.  When the [--logo] path does not exist, [main] prints
    the error naming that path and exits with status 1, the files left
    as they were.  When the logo exists and no image file is found, it
    prints that and exits with status 0.  Otherwise an [Exception] in
    the processing of a file is absorbed by [process_image], which
    prints the error line and returns, so no exception ever leaves
    [main]; and whenever the loop runs to its end, whatever files failed,
    [main] returns and the exit status is 0. *)
Theorem exit_codes `{Pillow} (exts : list string) (walk : list path)
        (args : arguments) (w : world) :
  (files w !! logo args = None ->
   main exts walk args w
   = (Exited 1, mkWorld (files w) (stdout w ++ [logo_missing_line args])) /\
   exit_status (fst (main exts walk args w)) = 1) /\
  (is_Some (files w !! logo args) -> find_images exts walk = [] ->
   main exts walk args w
   = (Exited 0, mkWorld (files w) (stdout w ++ ["No image files found to process."])) /\
   exit_status (fst (main exts walk args w)) = 0) /\
  (forall image_path logo_path T w0 w1 e,
     process_image_body image_path logo_path T w0 = (Raised e, w1) ->
     process_image image_path logo_path T w0
     = (Returned tt, mkWorld (files w1) (stdout w1 ++ [error_line image_path e]))) /\
  (forall e w', main exts walk args w <> (Raised e, w')) /\
  (is_Some (files w !! logo args) -> find_images exts walk <> [] ->
   forall w1,
     process_all (length (find_images exts walk)) 1 (find_images exts walk)
                 (logo args) (thumbnail_width_arg args)
                 (mkWorld (files w)
                    (stdout w ++ header_lines (length (find_images exts walk)) args))
     = (Returned tt, w1) ->
     main exts walk args w
     = (Returned tt,
        mkWorld (files w1)
                (stdout w1 ++ footer_lines (length (find_images exts walk)))) /\
     exit_status (fst (main exts walk args w)) = 0).
Proof.
  split; [| split; [| split; [| split]]].
  - intros E. rewrite (main_logo_missing _ _ _ _ E). now split.
  - intros E Hnone. rewrite (main_no_images _ _ _ _ E Hnone). now split.
  - intros. now apply process_image_absorbs.
  - intros e w' E.
    destruct (files w !! logo args) as [n |] eqn:El.
    + destruct (find_images exts walk) as [| p rest] eqn:Ef.
      * rewrite main_no_images in E by (rewrite ?El; eauto). discriminate E.
      * rewrite main_loop in E by (rewrite ?El, ?Ef; eauto; discriminate).
        apply bind_inv in E as [([] & s & _ & E2) | [(e0 & E1 & _) | (c & _ & E2)]].
        -- discriminate E2.
        -- now apply process_all_not_raised in E1.
        -- discriminate E2.
    + rewrite (main_logo_missing _ _ _ _ El) in E. discriminate E.
  - intros E Hne w1 Hrun. rewrite (main_loop _ _ _ _ E Hne).
    rewrite (bind_returned _ _ _ _ _ Hrun). now split.
Qed.

(** In [Demo.world0]: no file [nologo.png]; and a run over [img/bad.png],
    which fails, and [img/b.jpg] that ends with status 0. *)
Lemma exit_codes_witness :
  exit_status (fst (@main Plain.pillow image_extensions [Demo.bad_png; Demo.b_jpg]
                      (mkArgs ["nologo.png"] 400 []) Demo.world0)) = 1 /\
  exit_status (fst (@main Plain.pillow image_extensions [Demo.bad_png; Demo.b_jpg]
                      (mkArgs Demo.logo_png 400 []) Demo.world0)) = 0.
Proof.
  split.
  - apply (proj1 (@exit_codes Plain.pillow image_extensions
                    [Demo.bad_png; Demo.b_jpg] (mkArgs ["nologo.png"] 400 [])
                    Demo.world0)).
    vm_compute. reflexivity.
  - refine (proj2 (proj2 (proj2 (proj2 (proj2 (@exit_codes Plain.pillow
               image_extensions [Demo.bad_png; Demo.b_jpg]
               (mkArgs Demo.logo_png 400 []) Demo.world0))))
             _ _ _ (pair_of_fst _ _ _))).
    + vm_compute. eauto.
    + vm_compute. discriminate.
    + vm_compute. reflexivity.
Defined.

(** * Failures of the logo *)

Section LogoFailure.
Context `{Pillow}.

Lemma float_of_int_not_exited (z c : Z) : Py.float_of_int z <> Exited c.
Proof. unfold Py.float_of_int. destruct (is_infinity _); discriminate. Qed.

Lemma truediv_not_exited (a b c : Z) : Py.truediv a b <> Exited c.
Proof.
  unfold Py.truediv. destruct (b =? 0); [discriminate |].
  destruct (Py.float_of_int a) as [x | e | c0] eqn:Ea; simpl; try discriminate.
  - destruct (Py.float_of_int b) as [y | e | c0] eqn:Eb; simpl; try discriminate.
    now apply float_of_int_not_exited in Eb.
  - now apply float_of_int_not_exited in Ea.
Qed.

(** Zero divided by anything is zero or not a number: [int] of it is 0
    or raises. *)
Lemma int_of_zero_quotient (x : float) (v : Z) :
  Py.int_of_float (0 / x)%float = Returned v -> v = 0.
Proof.
  unfold Py.int_of_float. rewrite div_spec.
  change (Prim2SF 0%float) with (S754_zero false).
  destruct (Prim2SF x) as [s | s | | s m e]; simpl; intros E;
    try discriminate E; now injection E.
Qed.

Lemma int_of_float_not_exited (x : float) (c : Z) : Py.int_of_float x <> Exited c.
Proof. unfold Py.int_of_float. destruct (Prim2SF x); discriminate. Qed.

(** A watermark too narrow for the logo: scaling the logo to width 0
    raises, whatever the logo. *)
Lemma scale_logo_degenerate (logo_image : Image) (ww : Z) :
  0 < width logo_image -> int_scaled ww 0.8 = Returned 0 ->
  exists e, scale_logo logo_image ww = Raised e.
Proof.
  intros Hpos Hzero. unfold scale_logo.
  destruct (ensure_rgba_size logo_image) as [Hw Hh].
  destruct (Py.truediv _ _) as [aspect | e | c] eqn:Et; simpl;
    [| eauto | now apply truediv_not_exited in Et].
  rewrite Hzero. simpl.
  unfold Py.int_div_float. change (Py.float_of_int 0) with (Returned 0%float).
  simpl. destruct (is_zero aspect); simpl; [eauto |].
  destruct (Py.int_of_float (0 / aspect)) as [v | e | c] eqn:Ei; simpl;
    [| eauto | now apply int_of_float_not_exited in Ei].
  apply int_of_zero_quotient in Ei as ->.
  unfold resize. rewrite Hw.
  replace (width logo_image =? 0) with false by (symmetry; apply Z.eqb_neq; lia).
  simpl. eauto.
Qed.

(** An image less than 10 pixels wide leaves no room for the logo. *)
Lemma narrow_image_no_logo (image_width : Z) :
  0 <= image_width < 10 ->
  exists ww, int_scaled image_width 0.20 = Returned ww /\
             int_scaled ww 0.8 = Returned 0.
Proof.
  intros Hr.
  assert (Hc : image_width = 0 \/ image_width = 1 \/ image_width = 2 \/
               image_width = 3 \/ image_width = 4 \/ image_width = 5 \/
               image_width = 6 \/ image_width = 7 \/ image_width = 8 \/
               image_width = 9) by lia.
  repeat (destruct Hc as [-> | Hc]); try subst image_width;
    eexists; (split; [vm_compute; reflexivity | vm_compute; reflexivity]).
Qed.

End LogoFailure.

(** C8. Not every failure is per-file.  When opening or scaling the logo
    raises inside [create_watermark], the error is printed and
    [sys.exit(1)] is called: [create_watermark] ends in [SystemExit],
    the handler of [process_image], which catches [Exception], lets it
    through, and the loop and [main] end there with status 1, the
    remaining files never processed and no error line printed for the
    file.  An image less than 10 pixels wide is such a case for every
    logo: the logo would be scaled to width 0. *)
Theorem logo_failure_ends_batch `{Pillow} (image_path logo_path : path) (T : Z)
        (w : world) (raw image : Image) (ww : Z) (e : exn) :
  Image_open image_path w = (Returned raw, w) ->
  normalize raw = Returned image ->
  int_scaled (width image) 0.20 = Returned ww ->
  load_logo logo_path ww w = (Raised e, w) ->
  let w' := mkWorld (files w) (stdout w ++ ["Error loading logo: " +:+ exn_str e]) in
  create_watermark logo_path (width image) 0.55 w = (Exited 1, w') /\
  process_image image_path logo_path T w = (Exited 1, w') /\
  (forall total i rest w0,
     w = mkWorld (files w0) (stdout w0 ++ [progress_line total i image_path]) ->
     process_all total i (image_path :: rest) logo_path T w0 = (Exited 1, w')) /\
  (forall exts walk args rest w0,
     logo args = logo_path -> thumbnail_width_arg args = T ->
     is_Some (files w0 !! logo_path) ->
     find_images exts walk = image_path :: rest ->
     w = mkWorld (files w0)
           (stdout w0 ++ header_lines (S (length rest)) args
            ++ [progress_line (S (length rest)) 1 image_path]) ->
     main exts walk args w0 = (Exited 1, w') /\
     exit_status (fst (main exts walk args w0)) = 1).
Proof.
  intros Eo En Eww El w'.
  assert (Hc : create_watermark logo_path (width image) 0.55 w = (Exited 1, w')).
  { pose proof (create_watermark_cases logo_path (width image) 0.55 w) as Hc.
    rewrite Eww, El in Hc. exact Hc. }
  assert (Hb : process_image_body image_path logo_path T w = (Exited 1, w')).
  { unfold process_image_body.
    apply bind_exited. unfold watermark_original.
    rewrite (bind_returned _ _ _ _ _ Eo). rewrite lift_bind, En.
    now apply bind_exited. }
  assert (Hp : process_image image_path logo_path T w = (Exited 1, w')).
  { unfold process_image. now apply try_except_exited. }
  assert (Hall : forall total i rest w0,
     w = mkWorld (files w0) (stdout w0 ++ [progress_line total i image_path]) ->
     process_all total i (image_path :: rest) logo_path T w0 = (Exited 1, w')).
  { intros total i rest w0 Hw. rewrite process_all_cons, <- Hw.
    now apply bind_exited. }
  split; [exact Hc |]. split; [exact Hp |]. split; [exact Hall |].
  intros exts walk args rest w0 Hl HT Hex Hf Hw.
  assert (Hm : main exts walk args w0 = (Exited 1, w')).
  { rewrite main_loop; [| now rewrite Hl | now rewrite Hf].
    rewrite Hf, Hl, HT. apply bind_exited. simpl length.
    apply Hall. rewrite Hw. simpl. now rewrite <- app_assoc. }
  rewrite Hm. now split.
Qed.

(** [img/tiny.png] of [Demo.world0] is 4 pixels wide: the batch ends on
    it with status 1 and [img/a.png], next in the list, is left as it
    was. *)
Lemma logo_failure_ends_batch_witness :
  let r := @main Plain.pillow image_extensions [Demo.tiny_png; Demo.a_png]
                 (mkArgs Demo.logo_png 400 []) Demo.world0 in
  exit_status (fst r) = 1 /\
  files (snd r) !! Demo.a_png = files Demo.world0 !! Demo.a_png.
Proof.
  cbv zeta.
  pose (w := mkWorld (files Demo.world0)
               (stdout Demo.world0
                ++ header_lines 2 (mkArgs Demo.logo_png 400 [])
                ++ [progress_line 2 1 Demo.tiny_png])).
  destruct (@logo_failure_ends_batch Plain.pillow Demo.tiny_png Demo.logo_png 400
              w (Demo.photo 4 4) (Demo.photo 4 4) 0
              (Exception "height and width must be > 0")
              ltac:(vm_compute; reflexivity) ltac:(vm_compute; reflexivity)
              ltac:(vm_compute; reflexivity) ltac:(vm_compute; reflexivity))
    as (_ & _ & _ & Hm).
  destruct (Hm image_extensions [Demo.tiny_png; Demo.a_png]
               (mkArgs Demo.logo_png 400 []) [Demo.a_png] Demo.world0
               eq_refl eq_refl ltac:(vm_compute; eauto)
               ltac:(vm_compute; reflexivity) eq_refl) as [Hmain Hst].
  split; [exact Hst |]. rewrite Hmain. reflexivity.
Defined.

(** * Binary64 rounding, from its specification

    [SFmul] rounds the exact product of two mantissas with
    [binary_round_aux].  The lemmas below read that function as
    arithmetic: shift right by [n] bits, round the quotient to nearest
    with ties to even, renormalize. *)

Import Rounding.

Lemma fexp64_eq (mag : Z) : fexp prec emax mag = fexp64 mag.
Proof. reflexivity. Qed.

Lemma digits2_pos_bounds (p : positive) :
  2 ^ (Z.pos (digits2_pos p) - 1) <= Z.pos p < 2 ^ Z.pos (digits2_pos p).
Proof.
  induction p as [p IH | p IH |]; simpl digits2_pos; [| | simpl; lia];
    rewrite Pos2Z.inj_succ;
    set (d := Z.pos (digits2_pos p)) in *;
    assert (Hd : 1 <= d) by (unfold d; lia);
    replace (Z.succ d - 1) with d by lia;
    rewrite (Z.pow_succ_r 2 d) by lia;
    assert (H2 : 2 ^ d = 2 * 2 ^ (d - 1))
      by (replace d with (Z.succ (d - 1)) at 1 by lia; apply Z.pow_succ_r; lia);
    lia.
Qed.

Lemma pow2_pos (n : Z) : 0 <= n -> 0 < 2 ^ n.
Proof. intros. apply Z.pow_pos_nonneg; lia. Qed.

Lemma pow2_le (a b : Z) : 0 <= a <= b -> 2 ^ a <= 2 ^ b.
Proof. intros. apply Z.pow_le_mono_r; lia. Qed.

Lemma pow2_lt (a b : Z) : 0 <= a < b -> 2 ^ a < 2 ^ b.
Proof. intros. apply Z.pow_lt_mono_r; lia. Qed.

Lemma pow2_split (a b : Z) : 0 <= a -> 0 <= b -> 2 ^ (a + b) = 2 ^ a * 2 ^ b.
Proof. intros. apply Z.pow_add_r; lia. Qed.

(** ** One step and [n] steps of the shift *)

Lemma shr_1_spec (m : Z) (r s : bool) :
  0 <= m ->
  shr_1 (Build_shr_record m r s) = Build_shr_record (m / 2) (Z.odd m) (r || s).
Proof.
  intros Hm. unfold shr_1.
  destruct m as [| p | p]; [reflexivity | | lia].
  destruct p as [p | p |].
  - f_equal. rewrite Pos2Z.inj_xI.
    apply Z.div_unique with (r := 1); lia.
  - f_equal. rewrite Pos2Z.inj_xO.
    apply Z.div_unique with (r := 0); lia.
  - reflexivity.
Qed.

Lemma iter_pos_nat {A} (f : A -> A) (p : positive) (x : A) :
  SpecFloat.iter_pos f p x = Nat.iter (Pos.to_nat p) f x.
Proof.
  revert x. induction p as [p IH | p IH |]; intros x; simpl SpecFloat.iter_pos.
  - rewrite !IH, Pos2Nat.inj_xI, Nat.iter_succ_r.
    replace (2 * Pos.to_nat p)%nat with (Pos.to_nat p + Pos.to_nat p)%nat by lia.
    now rewrite Nat.iter_add.
  - rewrite !IH, Pos2Nat.inj_xO.
    replace (2 * Pos.to_nat p)%nat with (Pos.to_nat p + Pos.to_nat p)%nat by lia.
    now rewrite Nat.iter_add.
  - reflexivity.
Qed.

Lemma shifted_step (M : Z) (j : nat) :
  0 <= M -> shr_1 (shifted M j) = shifted M (S j).
Proof.
  intros HM. destruct j as [| j].
  - unfold shifted. rewrite shr_1_spec by lia.
    change (Z.of_nat 1) with 1. change (2 ^ 1) with 2. change (2 ^ (1 - 1)) with 1.
    pose proof (Z.mod_pos_bound M 2 ltac:(lia)) as Hb.
    rewrite Zodd_mod. f_equal.
    + destruct (Z.eqb_spec (M mod 2) 1), (Z.leb_spec 1 (M mod 2)); try lia; reflexivity.
    + destruct (Z.eqb_spec (M mod 2) 0), (Z.eqb_spec (M mod 2) 1); try lia; reflexivity.
  - unfold shifted.
    set (n := Z.of_nat (S j)).
    assert (Hn : 1 <= n) by (unfold n; lia).
    replace (Z.of_nat (S (S j))) with (n + 1) by (unfold n; lia).
    replace (n + 1 - 1) with n by lia.
    assert (Hp : 0 < 2 ^ n) by (apply pow2_pos; lia).
    assert (Hh : 0 < 2 ^ (n - 1)) by (apply pow2_pos; lia).
    assert (H2 : 2 ^ n = 2 * 2 ^ (n - 1)).
    { replace n with (Z.succ (n - 1)) at 1 by lia. apply Z.pow_succ_r. lia. }
    assert (H3 : 2 ^ (n + 1) = 2 * 2 ^ n).
    { replace (n + 1) with (Z.succ n) by lia. apply Z.pow_succ_r. lia. }
    set (q := M / 2 ^ n). set (r := M mod 2 ^ n).
    assert (HMqr : M = 2 ^ n * q + r) by (apply Z.div_mod; lia).
    assert (Hr : 0 <= r < 2 ^ n) by (apply Z.mod_pos_bound; lia).
    assert (Hq : 0 <= q) by (apply Z.div_pos; lia).
    rewrite shr_1_spec by exact Hq.
    pose proof (Z.div_mod q 2 ltac:(lia)) as Hq2.
    pose proof (Z.mod_pos_bound q 2 ltac:(lia)) as Hb.
    assert (Hb2 : 0 <= 2 ^ n * (q mod 2) <= 2 ^ n) by nia.
    assert (Heq : M = 2 ^ (n + 1) * (q / 2) + (2 ^ n * (q mod 2) + r)).
    { rewrite H3. rewrite HMqr at 1. rewrite Hq2 at 1. ring. }
    assert (Hdiv : M / 2 ^ (n + 1) = q / 2).
    { symmetry. apply Z.div_unique_pos with (r := 2 ^ n * (q mod 2) + r);
        [lia | exact Heq]. }
    assert (Hmod : M mod 2 ^ (n + 1) = 2 ^ n * (q mod 2) + r).
    { symmetry. apply Z.mod_unique_pos with (q := q / 2); [lia | exact Heq]. }
    rewrite Hdiv, Hmod, Zodd_mod.
    assert (Hcase : q mod 2 = 0 \/ q mod 2 = 1) by lia.
    clear Heq Hdiv Hmod Hq2 HMqr.
    set (P := 2 ^ n) in *. set (h := 2 ^ (n - 1)) in *. clearbody P h.
    destruct Hcase as [-> | ->]; rewrite ?Z.mul_0_r, ?Z.mul_1_r, ?Z.add_0_l; f_equal;
      repeat match goal with
             | |- context [Z.eqb ?a ?b] => destruct (Z.eqb_spec a b)
             | |- context [Z.leb ?a ?b] => destruct (Z.leb_spec a b)
             end; simpl; try reflexivity; lia.
Qed.

Lemma iter_shr_1 (M : Z) (j : nat) :
  0 <= M -> Nat.iter j shr_1 (Build_shr_record M false false) = shifted M j.
Proof.
  intros HM. induction j as [| j IH]; [reflexivity |].
  simpl Nat.iter. rewrite IH. now apply shifted_step.
Qed.

Lemma round_shifted (M : Z) (p : positive) :
  0 <= M ->
  round_nearest_even (shr_m (shifted M (Pos.to_nat p)))
                     (loc_of_shr_record (shifted M (Pos.to_nat p)))
  = rne M (Z.pos p).
Proof.
  intros HM. unfold shifted, rne.
  destruct (Pos.to_nat p) as [| j] eqn:Ej; [lia |].
  replace (Z.of_nat (S j)) with (Z.pos p) by lia.
  set (n := Z.pos p).
  assert (Hh : 0 < 2 ^ (n - 1)) by (apply pow2_pos; lia).
  assert (H2 : 2 ^ n = 2 * 2 ^ (n - 1)).
  { replace n with (Z.succ (n - 1)) at 1 by lia. apply Z.pow_succ_r. lia. }
  pose proof (Z.mod_pos_bound M (2 ^ n) ltac:(lia)) as Hr.
  set (r := M mod 2 ^ n) in *. set (h := 2 ^ (n - 1)) in *. set (q := M / 2 ^ n).
  simpl shr_m. unfold loc_of_shr_record, round_nearest_even.
  rewrite <- Z.negb_odd.
  destruct (Z.leb_spec h r), (Z.eqb_spec r 0), (Z.eqb_spec r h), (Z.ltb_spec h r);
    simpl; try lia; try reflexivity; destruct (Z.odd q); reflexivity.
Qed.


(** ** The two shifts of [binary_round_aux] *)

Lemma shr_fexp_shift (M E : Z) (p : positive) :
  0 <= M -> fexp64 (Zdigits2 M + E) - E = Z.pos p ->
  shr_fexp prec emax M E loc_Exact = (shifted M (Pos.to_nat p), E + Z.pos p).
Proof.
  intros HM Hn. unfold shr_fexp. rewrite fexp64_eq, Hn.
  unfold shr, shr_record_of_loc. rewrite iter_pos_nat, iter_shr_1 by exact HM.
  reflexivity.
Qed.

Lemma shr_fexp_id (M E : Z) :
  fexp64 (Zdigits2 M + E) - E <= 0 ->
  shr_fexp prec emax M E loc_Exact = (Build_shr_record M false false, E).
Proof.
  intros Hn. unfold shr_fexp. rewrite fexp64_eq.
  destruct (fexp64 (Zdigits2 M + E) - E) as [| p | p]; [reflexivity | lia | reflexivity].
Qed.

Lemma rne_bounds (M n : Z) : 0 <= M -> 1 <= n -> M / 2 ^ n <= rne M n <= M / 2 ^ n + 1.
Proof. intros. unfold rne. destruct (_ || _); lia. Qed.

(** A mantissa shifted by at least its excess over 53 bits fits 53 bits. *)
Lemma quotient_fits (M : positive) (n : Z) :
  1 <= n -> Z.pos (digits2_pos M) - 53 <= n -> Z.pos M / 2 ^ n < 2 ^ 53.
Proof.
  intros Hn Hd. pose proof (digits2_pos_bounds M) as [_ Hu].
  set (d := Z.pos (digits2_pos M)) in *.
  assert (Hp : 0 < 2 ^ n) by (apply pow2_pos; lia).
  apply Z.div_lt_upper_bound; [exact Hp |].
  destruct (Z.le_gt_cases d 53) as [Hle | Hgt].
  - assert (2 ^ d <= 2 ^ 53) by (apply pow2_le; lia).
    assert (1 * 2 ^ 53 <= 2 ^ n * 2 ^ 53) by (apply Z.mul_le_mono_nonneg_r; lia).
    lia.
  - assert (2 ^ d <= 2 ^ (n + 53)) by (apply pow2_le; lia).
    rewrite pow2_split in H by lia. lia.
Qed.

(** [binary_round_aux] on an exact product, when at least one bit is
    shifted out: the mantissa is rounded to nearest even at the exponent
    of the format, and a mantissa rounded up to [2^53] is renormalized. *)
Lemma binary_round_aux_spec (M : positive) (E : Z) (p : positive) :
  let e' := fexp64 (Z.pos (digits2_pos M) + E) in
  let m := rne (Z.pos M) (Z.pos p) in
  e' - E = Z.pos p ->
  0 <= m <= 2 ^ 53 /\
  binary_round_aux prec emax false (Z.pos M) E loc_Exact
  = if m =? 0 then S754_zero false
    else if m =? 2 ^ 53
         then if e' + 1 <=? 971 then S754_finite false 4503599627370496 (e' + 1)
              else S754_infinity false
         else if e' <=? 971 then S754_finite false (Z.to_pos m) e'
              else S754_infinity false.
Proof.
  intros e' m Hn.
  assert (He' : -1074 <= e') by (unfold e', fexp64; lia).
  assert (Hq : 0 <= Z.pos M / 2 ^ Z.pos p < 2 ^ 53).
  { split; [apply Z.div_pos; [lia | apply pow2_pos; lia] |].
    apply quotient_fits; [lia |]. unfold e', fexp64 in Hn. lia. }
  pose proof (rne_bounds (Z.pos M) (Z.pos p) ltac:(lia) ltac:(lia)) as Hm.
  fold m in Hm.
  split; [lia |].
  unfold binary_round_aux.
  rewrite (shr_fexp_shift (Z.pos M) E p) by (simpl Zdigits2; first [lia | exact Hn]).
  rewrite round_shifted by lia. fold m.
  replace (E + Z.pos p) with e' by lia.
  destruct (Z.eqb_spec m 0) as [H0 | H0].
  - rewrite H0. rewrite shr_fexp_id by (simpl Zdigits2; unfold fexp64; lia).
    reflexivity.
  - destruct (Z.eqb_spec m (2 ^ 53)) as [H53 | H53].
    + rewrite H53.
      assert (Hs : fexp64 (Zdigits2 (2 ^ 53) + e') - e' = 1).
      { change (Zdigits2 (2 ^ 53)) with 54. unfold fexp64. lia. }
      rewrite (shr_fexp_shift (2 ^ 53) e' 1) by first [lia | exact Hs].
      change (shr_m (shifted (2 ^ 53) (Pos.to_nat 1))) with (Z.pos 4503599627370496).
      cbv iota. reflexivity.
    + assert (Hpos : 0 < m) by lia.
      destruct m as [| pm | pm] eqn:Em; try lia.
      assert (Hd : Z.pos (digits2_pos pm) <= 53).
      { pose proof (digits2_pos_bounds pm) as [Hl _].
        destruct (Z.le_gt_cases (Z.pos (digits2_pos pm)) 53) as [Hle | Hgt];
          [exact Hle |].
        assert (2 ^ 53 <= 2 ^ (Z.pos (digits2_pos pm) - 1)) by (apply pow2_le; lia).
        lia. }
      rewrite shr_fexp_id by (simpl Zdigits2; unfold fexp64; lia).
      simpl shr_m. cbv iota. rewrite Pos2Z.id. reflexivity.
Qed.

(** ** Rounding is monotone *)

Lemma rne_scale (M n s : Z) :
  0 <= M -> 1 <= n -> 0 <= s -> rne (M * 2 ^ s) (n + s) = rne M n.
Proof.
  intros HM Hn Hs. unfold rne.
  assert (Hps : 0 < 2 ^ s) by (apply pow2_pos; lia).
  assert (Hpn : 0 < 2 ^ n) by (apply pow2_pos; lia).
  assert (Hph : 0 < 2 ^ (n - 1)) by (apply pow2_pos; lia).
  rewrite (pow2_split n s) by lia.
  replace (n + s - 1) with ((n - 1) + s) by lia.
  rewrite (pow2_split (n - 1) s) by lia.
  rewrite Z.div_mul_cancel_r by lia.
  rewrite Z.mul_mod_distr_r by lia.
  set (q := M / 2 ^ n). set (r := M mod 2 ^ n). set (h := 2 ^ (n - 1)).
  replace (h * 2 ^ s <? r * 2 ^ s) with (h <? r).
  2:{ destruct (Z.ltb_spec h r), (Z.ltb_spec (h * 2 ^ s) (r * 2 ^ s));
        try reflexivity; nia. }
  replace (r * 2 ^ s =? h * 2 ^ s) with (r =? h).
  2:{ destruct (Z.eqb_spec r h), (Z.eqb_spec (r * 2 ^ s) (h * 2 ^ s));
        try reflexivity; nia. }
  reflexivity.
Qed.

Lemma rne_mono (X1 X2 n : Z) : 0 <= X1 <= X2 -> 1 <= n -> rne X1 n <= rne X2 n.
Proof.
  intros HX Hn.
  assert (Hpn : 0 < 2 ^ n) by (apply pow2_pos; lia).
  pose proof (Z.div_mod X1 (2 ^ n) ltac:(lia)) as H1.
  pose proof (Z.div_mod X2 (2 ^ n) ltac:(lia)) as H2.
  pose proof (Z.mod_pos_bound X1 (2 ^ n) ltac:(lia)) as B1.
  pose proof (Z.mod_pos_bound X2 (2 ^ n) ltac:(lia)) as B2.
  assert (Hq : X1 / 2 ^ n <= X2 / 2 ^ n) by (apply Z.div_le_mono; lia).
  unfold rne.
  set (q1 := X1 / 2 ^ n) in *. set (q2 := X2 / 2 ^ n) in *.
  set (r1 := X1 mod 2 ^ n) in *. set (r2 := X2 mod 2 ^ n) in *.
  set (h := 2 ^ (n - 1)).
  destruct (Z.eq_dec q1 q2) as [Heq | Hne].
  - rewrite <- Heq in *. assert (r1 <= r2) by lia.
    destruct (Z.ltb_spec h r1), (Z.ltb_spec h r2), (Z.eqb_spec r1 h), (Z.eqb_spec r2 h),
      (Z.odd q1); simpl; lia.
  - assert (q1 + 1 <= q2) by lia.
    destruct (_ || _), (_ || _); lia.
Qed.

Lemma rne_nonneg (M n : Z) : 0 <= M -> 1 <= n -> 0 <= rne M n.
Proof.
  intros HM Hn. pose proof (rne_bounds M n HM Hn).
  assert (0 <= M / 2 ^ n) by (apply Z.div_pos; [lia | apply pow2_pos; lia]). lia.
Qed.

(** Of two exact products, the smaller rounds to the smaller binary64
    number.  [K] is any offset that makes both exponents non-negative. *)
Lemma rounded_mono (M1 M2 : positive) (E1 E2 K : Z) :
  1 <= fexp64 (Z.pos (digits2_pos M1) + E1) - E1 ->
  1 <= fexp64 (Z.pos (digits2_pos M2) + E2) - E2 ->
  0 <= E1 + K -> 0 <= E2 + K ->
  Z.pos M1 * 2 ^ (E1 + K) <= Z.pos M2 * 2 ^ (E2 + K) ->
  rounded M1 E1 <= rounded M2 E2.
Proof.
  intros Hn1 Hn2 HK1 HK2 HX. unfold rounded.
  pose proof (digits2_pos_bounds M1) as [L1 U1].
  pose proof (digits2_pos_bounds M2) as [L2 U2].
  set (d1 := Z.pos (digits2_pos M1)) in *. set (d2 := Z.pos (digits2_pos M2)) in *.
  assert (Hd1 : 1 <= d1) by (unfold d1; lia).
  assert (Hd2 : 1 <= d2) by (unfold d2; lia).
  set (e1 := fexp64 (d1 + E1)) in *. set (e2 := fexp64 (d2 + E2)) in *.
  assert (He1 : -1074 <= e1) by (unfold e1, fexp64; lia).
  assert (He2 : -1074 <= e2) by (unfold e2, fexp64; lia).
  (* the leading bit of the smaller is not above that of the larger *)
  assert (Hmag : d1 + E1 <= d2 + E2).
  { destruct (Z.le_gt_cases (d1 + E1) (d2 + E2)) as [Hle | Hgt]; [exact Hle |].
    exfalso.
    assert (A1 : 2 ^ (d1 - 1) * 2 ^ (E1 + K) <= Z.pos M1 * 2 ^ (E1 + K)).
    { apply Z.mul_le_mono_nonneg_r; [apply Z.lt_le_incl, pow2_pos; lia | lia]. }
    assert (A2 : Z.pos M2 * 2 ^ (E2 + K) < 2 ^ d2 * 2 ^ (E2 + K)).
    { apply Z.mul_lt_mono_pos_r; [apply pow2_pos; lia | lia]. }
    rewrite <- pow2_split in A1, A2 by lia.
    assert (2 ^ (d2 + (E2 + K)) <= 2 ^ (d1 - 1 + (E1 + K))) by (apply pow2_le; lia).
    lia. }
  assert (He : e1 <= e2) by (unfold e1, e2, fexp64; lia).
  assert (Hr1 : 0 <= rne (Z.pos M1) (e1 - E1)) by (apply rne_nonneg; lia).
  assert (Hr2 : 0 <= rne (Z.pos M2) (e2 - E2)) by (apply rne_nonneg; lia).
  destruct (Z.eq_dec e1 e2) as [Heq | Hne].
  - (* the same exponent: rounding at one scale *)
    rewrite <- Heq.
    apply Z.mul_le_mono_nonneg_r; [apply Z.lt_le_incl, pow2_pos; lia |].
    rewrite <- (rne_scale (Z.pos M1) (e1 - E1) (E1 + K)) by lia.
    replace (e2 - E2) with (e1 - E2) by lia.
    rewrite <- (rne_scale (Z.pos M2) (e1 - E2) (E2 + K)) by lia.
    replace (e1 - E1 + (E1 + K)) with (e1 + K) by lia.
    replace (e1 - E2 + (E2 + K)) with (e1 + K) by lia.
    apply rne_mono; [| lia].
    split; [| exact HX].
    apply Z.mul_nonneg_nonneg; [lia | apply Z.lt_le_incl, pow2_pos; lia].
  - (* a lower exponent: a power of two lies between the two *)
    assert (He2' : e2 = d2 + E2 - 53) by (unfold e1, e2, fexp64 in *; lia).
    assert (Hlt : d1 + E1 < d2 + E2) by (unfold e1, e2, fexp64 in *; lia).
    set (n1 := e1 - E1) in *. set (n2 := e2 - E2) in *.
    assert (Hn2' : n2 = d2 - 53) by (unfold n2; lia).
    assert (Hq2 : 2 ^ 52 <= Z.pos M2 / 2 ^ n2).
    { apply Z.div_le_lower_bound; [apply pow2_pos; lia |].
      rewrite Z.mul_comm, <- pow2_split by lia.
      replace (52 + n2) with (d2 - 1) by lia. exact L2. }
    pose proof (rne_bounds (Z.pos M2) n2 ltac:(lia) ltac:(lia)) as [B2 _].
    assert (W2 : 2 ^ (d2 + E2 - 1 + 1074) <= rne (Z.pos M2) n2 * 2 ^ (e2 + 1074)).
    { replace (d2 + E2 - 1 + 1074) with (52 + (e2 + 1074)) by lia.
      rewrite (pow2_split 52 (e2 + 1074)) by lia.
      apply Z.mul_le_mono_nonneg_r; [apply Z.lt_le_incl, pow2_pos; lia | lia]. }
    destruct (Z.le_gt_cases n1 d1) as [Hge | Hlt1].
    + assert (Hq1 : Z.pos M1 / 2 ^ n1 < 2 ^ (d1 - n1)).
      { apply Z.div_lt_upper_bound; [apply pow2_pos; lia |].
        rewrite <- pow2_split by lia. replace (n1 + (d1 - n1)) with d1 by lia.
        exact U1. }
      pose proof (rne_bounds (Z.pos M1) n1 ltac:(lia) ltac:(lia)) as [_ B1].
      assert (W1 : rne (Z.pos M1) n1 * 2 ^ (e1 + 1074) <= 2 ^ (d1 + E1 + 1074)).
      { replace (d1 + E1 + 1074) with ((d1 - n1) + (e1 + 1074)) by (unfold n1; lia).
        rewrite (pow2_split (d1 - n1) (e1 + 1074)) by lia.
        apply Z.mul_le_mono_nonneg_r; [apply Z.lt_le_incl, pow2_pos; lia | lia]. }
      assert (2 ^ (d1 + E1 + 1074) <= 2 ^ (d2 + E2 - 1 + 1074))
        by (apply pow2_le; unfold n1 in *; lia).
      lia.
    + assert (Hz : rne (Z.pos M1) n1 = 0).
      { assert (Hh : 2 ^ d1 <= 2 ^ (n1 - 1)) by (apply pow2_le; lia).
        assert (Hp : 2 ^ n1 = 2 * 2 ^ (n1 - 1)).
        { replace n1 with (Z.succ (n1 - 1)) at 1 by lia. apply Z.pow_succ_r. lia. }
        assert (Hph : 0 < 2 ^ (n1 - 1)) by (apply pow2_pos; lia).
        unfold rne.
        rewrite (Z.div_small (Z.pos M1) (2 ^ n1)) by lia.
        rewrite (Z.mod_small (Z.pos M1) (2 ^ n1)) by lia.
        destruct (Z.ltb_spec (2 ^ (n1 - 1)) (Z.pos M1)),
          (Z.eqb_spec (Z.pos M1) (2 ^ (n1 - 1))); simpl; lia. }
      rewrite Hz. simpl.
      apply Z.mul_nonneg_nonneg; [lia | apply Z.lt_le_incl, pow2_pos; lia].
Qed.

(** ** From the rounded product to [int] and [round] *)

Lemma shiftl_scaled (m e : Z) :
  -1074 <= e -> Z.shiftl m e = (m * 2 ^ (e + 1074)) / 2 ^ 1074.
Proof.
  intros He.
  assert (H1074 : 0 < 2 ^ 1074) by (apply pow2_pos; lia).
  destruct (Z.le_gt_cases 0 e) as [Hpos | Hneg].
  - rewrite Z.shiftl_mul_pow2 by lia.
    rewrite (pow2_split e 1074) by lia. rewrite Z.mul_assoc.
    rewrite Z.div_mul by lia. reflexivity.
  - rewrite Z.shiftl_div_pow2 by lia.
    assert (Hp : 0 < 2 ^ (e + 1074)) by (apply pow2_pos; lia).
    replace (2 ^ 1074) with (2 ^ (- e) * 2 ^ (e + 1074)).
    2:{ rewrite <- pow2_split by lia. f_equal. lia. }
    rewrite Z.div_mul_cancel_r by lia. reflexivity.
Qed.

Lemma rounded_nonneg (M : positive) (E : Z) :
  1 <= fexp64 (Z.pos (digits2_pos M) + E) - E -> 0 <= rounded M E.
Proof.
  intros Hn. unfold rounded.
  apply Z.mul_nonneg_nonneg; [apply rne_nonneg; lia |].
  apply Z.lt_le_incl, pow2_pos. unfold fexp64. lia.
Qed.

(** [int] of the rounded product. *)
Lemma trunc_binary_round_aux (M : positive) (E v : Z) :
  1 <= fexp64 (Z.pos (digits2_pos M) + E) - E ->
  Py.trunc_sf (binary_round_aux prec emax false (Z.pos M) E loc_Exact) = Returned v ->
  v = rounded M E / 2 ^ 1074.
Proof.
  intros Hn.
  destruct (fexp64 (Z.pos (digits2_pos M) + E) - E) as [| p | p] eqn:En; try lia.
  destruct (binary_round_aux_spec M E p En) as [Hm ->].
  unfold rounded. rewrite En.
  set (e' := fexp64 (Z.pos (digits2_pos M) + E)) in *.
  set (m := rne (Z.pos M) (Z.pos p)) in *.
  assert (He' : -1074 <= e') by (unfold e', fexp64; lia).
  destruct (Z.eqb_spec m 0) as [H0 | H0].
  - rewrite H0. simpl. intros [= <-]. reflexivity.
  - destruct (Z.eqb_spec m (2 ^ 53)) as [H53 | H53].
    + destruct (e' + 1 <=? 971); [| discriminate].
      unfold Py.trunc_sf, cond_Zopp. intros [= <-].
      replace (Z.pos 4503599627370496) with (2 ^ 52) by reflexivity.
      rewrite shiftl_scaled by lia. rewrite H53. f_equal.
      replace (e' + 1 + 1074) with (1 + (e' + 1074)) by lia.
      rewrite (pow2_split 1 (e' + 1074)) by lia.
      replace (2 ^ 53) with (2 ^ 52 * 2 ^ 1) by reflexivity. ring.
    + destruct (e' <=? 971); [| discriminate].
      unfold Py.trunc_sf, cond_Zopp. intros [= <-].
      rewrite Z2Pos.id by lia. apply shiftl_scaled. lia.
Qed.

Lemma round_sf_ge_trunc (m : positive) (e : Z) :
  exists b, Py.round_sf (S754_finite false m e) = Returned b /\
            Z.shiftl (Z.pos m) e <= b.
Proof.
  unfold Py.round_sf, cond_Zopp. eexists. split; [reflexivity |].
  cbv zeta. destruct (if e <? 0 then _ else false); lia.
Qed.

(** [round] of the rounded product, when it cannot overflow. *)
Lemma round_binary_round_aux (M : positive) (E : Z) :
  1 <= fexp64 (Z.pos (digits2_pos M) + E) - E ->
  fexp64 (Z.pos (digits2_pos M) + E) + 1 <= 971 ->
  exists b, Py.round_sf (binary_round_aux prec emax false (Z.pos M) E loc_Exact)
            = Returned b /\
            rounded M E / 2 ^ 1074 <= b.
Proof.
  intros Hn Hfin.
  destruct (fexp64 (Z.pos (digits2_pos M) + E) - E) as [| p | p] eqn:En; try lia.
  destruct (binary_round_aux_spec M E p En) as [Hm ->].
  unfold rounded. rewrite En.
  set (e' := fexp64 (Z.pos (digits2_pos M) + E)) in *.
  set (m := rne (Z.pos M) (Z.pos p)) in *.
  assert (He' : -1074 <= e') by (unfold e', fexp64; lia).
  destruct (Z.eqb_spec m 0) as [H0 | H0].
  - rewrite H0. exists 0. split; [reflexivity |]. simpl. reflexivity.
  - destruct (Z.eqb_spec m (2 ^ 53)) as [H53 | H53].
    + replace (e' + 1 <=? 971) with true by (symmetry; apply Z.leb_le; lia).
      destruct (round_sf_ge_trunc 4503599627370496 (e' + 1)) as (b & Hb & Hle).
      exists b. split; [exact Hb |].
      replace (Z.pos 4503599627370496) with (2 ^ 52) in Hle by reflexivity.
      rewrite shiftl_scaled in Hle by lia. rewrite H53.
      replace (e' + 1 + 1074) with (1 + (e' + 1074)) in Hle by lia.
      rewrite (pow2_split 1 (e' + 1074)) in Hle by lia.
      replace (2 ^ 53 * 2 ^ (e' + 1074)) with (2 ^ 52 * (2 ^ 1 * 2 ^ (e' + 1074)))
        by (replace (2 ^ 53) with (2 ^ 52 * 2 ^ 1) by reflexivity; ring).
      exact Hle.
    + replace (e' <=? 971) with true by (symmetry; apply Z.leb_le; lia).
      destruct (round_sf_ge_trunc (Z.to_pos m) e') as (b & Hb & Hle).
      exists b. split; [exact Hb |].
      rewrite Z2Pos.id in Hle by lia. rewrite shiftl_scaled in Hle by lia.
      exact Hle.
Qed.

Lemma digits2_pos_mul (a b : positive) :
  Z.pos (digits2_pos a) + Z.pos (digits2_pos b) - 1 <= Z.pos (digits2_pos (a * b))
  <= Z.pos (digits2_pos a) + Z.pos (digits2_pos b).
Proof.
  pose proof (digits2_pos_bounds a) as [La Ua].
  pose proof (digits2_pos_bounds b) as [Lb Ub].
  pose proof (digits2_pos_bounds (a * b)) as [Lab Uab].
  rewrite Pos2Z.inj_mul in Lab, Uab.
  set (da := Z.pos (digits2_pos a)) in *. set (db := Z.pos (digits2_pos b)) in *.
  set (dab := Z.pos (digits2_pos (a * b))) in *.
  assert (1 <= da) by (unfold da; lia). assert (1 <= db) by (unfold db; lia).
  assert (1 <= dab) by (unfold dab; lia).
  assert (Hlow : 2 ^ (da - 1 + (db - 1)) <= Z.pos a * Z.pos b).
  { rewrite pow2_split by lia. apply Z.mul_le_mono_nonneg; try lia;
      apply Z.lt_le_incl, pow2_pos; lia. }
  assert (Hup : Z.pos a * Z.pos b < 2 ^ (da + db)).
  { rewrite pow2_split by lia. apply Z.mul_lt_mono_nonneg; lia. }
  split.
  - destruct (Z.le_gt_cases (da + db - 1) dab) as [Hle | Hgt]; [exact Hle |].
    assert (2 ^ dab <= 2 ^ (da - 1 + (db - 1))) by (apply pow2_le; lia). lia.
  - destruct (Z.le_gt_cases dab (da + db)) as [Hle | Hgt]; [exact Hle |].
    assert (2 ^ (da + db) <= 2 ^ (dab - 1)) by (apply pow2_le; lia). lia.
Qed.

(** ** The product of a byte and an opacity *)

Lemma small_int_float (k : Z) :
  1 <= k <= 255 ->
  exists f mk ek,
    Py.float_of_int k = Returned f /\
    Prim2SF f = S754_finite false mk ek /\
    -52 <= ek <= -45 /\
    Z.pos mk = k * 2 ^ (- ek) /\
    Z.pos (digits2_pos mk) = 53.
Proof.
  intros Hk.
  pose (check := fun n : nat =>
    match Py.float_of_int (Z.of_nat n) with
    | Returned f =>
        match Prim2SF f with
        | S754_finite false mk ek =>
            (-52 <=? ek) && (ek <=? -45) && (Z.pos mk =? Z.of_nat n * 2 ^ (- ek))
            && (Z.pos (digits2_pos mk) =? 53)
        | _ => false
        end
    | _ => false
    end).
  assert (Hall : forallb check (seq 1 255) = true) by (vm_compute; reflexivity).
  rewrite forallb_forall in Hall.
  specialize (Hall (Z.to_nat k)).
  assert (Hin : In (Z.to_nat k) (seq 1 255)) by (apply in_seq; lia).
  specialize (Hall Hin). unfold check in Hall.
  rewrite Z2Nat.id in Hall by lia.
  destruct (Py.float_of_int k) as [f | |]; try discriminate Hall.
  destruct (Prim2SF f) as [| | | [] mk ek] eqn:Ef; try discriminate Hall.
  rewrite !andb_true_iff in Hall. destruct Hall as [[[H1 H2] H3] H4].
  apply Z.leb_le in H1, H2. apply Z.eqb_eq in H3, H4.
  exists f, mk, ek. repeat split; try reflexivity; assumption.
Qed.

(** An opacity between 0 and 1 is a zero or a positive number with
    exponent at most -52. *)
Lemma opacity_cases (opacity : float) :
  (0 <=? opacity)%float = true -> (opacity <=? 1)%float = true ->
  (exists s, Prim2SF opacity = S754_zero s) \/
  (exists m e, Prim2SF opacity = S754_finite false m e /\
               -1074 <= e <= -52 /\
               fexp64 (Z.pos (digits2_pos m) + e) = e).
Proof.
  rewrite !leb_spec. intros H0 H1.
  pose proof (Prim2SF_valid opacity) as Hv.
  change (Prim2SF 0%float) with (S754_zero false) in H0.
  change (Prim2SF 1%float) with (S754_finite false 4503599627370496 (-52)) in H1.
  destruct (Prim2SF opacity) as [s | s | | s m e].
  - left. eauto.
  - destruct s; discriminate.
  - discriminate.
  - right. destruct s; [discriminate |].
    exists m, e. split; [reflexivity |].
    unfold valid_binary, bounded, canonical_mantissa in Hv.
    apply andb_true_iff in Hv as [Hc _]. apply Z.eqb_eq in Hc.
    rewrite fexp64_eq in Hc.
    unfold SFleb, SFcompare in H1.
    destruct (Z.compare_spec e (-52)); try discriminate H1;
      (split; [unfold fexp64 in Hc; lia | exact Hc]).
Qed.

(** The mantissa product of a byte and an opacity sheds at least one bit
    and cannot overflow. *)
Lemma product_shape (mk m : positive) (ek e : Z) :
  Z.pos (digits2_pos mk) = 53 -> -52 <= ek <= -45 ->
  -1074 <= e <= -52 -> fexp64 (Z.pos (digits2_pos m) + e) = e ->
  1 <= fexp64 (Z.pos (digits2_pos (mk * m)) + (ek + e)) - (ek + e) /\
  fexp64 (Z.pos (digits2_pos (mk * m)) + (ek + e)) + 1 <= 971.
Proof.
  intros Hdk Hek He Hc.
  pose proof (digits2_pos_mul mk m) as [Hl Hu].
  pose proof (digits2_pos_bounds m) as _.
  assert (1 <= Z.pos (digits2_pos m)) by lia.
  unfold fexp64 in *. lia.
Qed.

(** For an opacity between 0 and 1 and a byte [k], [int(k * opacity)] is
    at most [round(255 * opacity)]. *)
Lemma scaled_le_bound (opacity : float) (k v : Z) :
  (0 <=? opacity)%float = true -> (opacity <=? 1)%float = true ->
  0 <= k <= 255 -> int_scaled k opacity = Returned v ->
  exists bound,
    (Py.int_mul_float 255 opacity ≫= Py.round_float) = Returned bound /\
    0 <= v <= bound.
Proof.
  intros H0 H1 Hk Hv.
  destruct (small_int_float 255 ltac:(lia)) as (f255 & m255 & e255 & F255 & P255 & He255 & Hm255 & Hd255).
  unfold int_scaled, Py.int_mul_float in *.
  rewrite F255. simpl mbind. unfold Py.round_float. rewrite mul_spec, P255.
  assert (Hk0 : Py.float_of_int 0 = Returned 0%float) by reflexivity.
  destruct (opacity_cases opacity H0 H1) as [[s Ho] | (m & e & Ho & He & Hc)].
  - (* the opacity is zero *)
    rewrite Ho. exists 0. split; [reflexivity |].
    destruct (Z.eq_dec k 0) as [-> | Hne].
    + rewrite Hk0 in Hv. simpl in Hv. unfold Py.int_of_float in Hv.
      rewrite mul_spec, Ho in Hv.
      change (Prim2SF 0%float) with (S754_zero false) in Hv.
      simpl in Hv. injection Hv as <-. lia.
    + destruct (small_int_float k ltac:(lia)) as (fk & mk & ek & Fk & Pk & _).
      rewrite Fk in Hv. simpl in Hv. unfold Py.int_of_float in Hv.
      rewrite mul_spec, Ho, Pk in Hv. simpl in Hv. injection Hv as <-. lia.
  - (* the opacity is positive *)
    rewrite Ho. unfold SF64mul, SFmul. simpl xorb.
    destruct (product_shape m255 m e255 e Hd255 He255 He Hc) as [Hn255 Hf255].
    destruct (round_binary_round_aux (m255 * m) (e255 + e) Hn255 Hf255)
      as (bound & Hb & Hle).
    exists bound. split; [exact Hb |].
    assert (Hnn : 0 <= rounded (m255 * m) (e255 + e) / 2 ^ 1074).
    { apply Z.div_pos; [now apply rounded_nonneg | apply pow2_pos; lia]. }
    destruct (Z.eq_dec k 0) as [-> | Hne].
    + rewrite Hk0 in Hv. simpl in Hv. unfold Py.int_of_float in Hv.
      rewrite mul_spec, Ho in Hv.
      change (Prim2SF 0%float) with (S754_zero false) in Hv.
      simpl in Hv. injection Hv as <-. lia.
    + destruct (small_int_float k ltac:(lia))
        as (fk & mk & ek & Fk & Pk & Hek & Hmk & Hdk).
      rewrite Fk in Hv. simpl in Hv. unfold Py.int_of_float in Hv.
      rewrite mul_spec, Ho, Pk in Hv. unfold SF64mul, SFmul in Hv.
      simpl xorb in Hv.
      destruct (product_shape mk m ek e Hdk Hek He Hc) as [Hnk _].
      apply (trunc_binary_round_aux _ _ _ Hnk) in Hv. subst v.
      assert (Hmono : rounded (mk * m) (ek + e) <= rounded (m255 * m) (e255 + e)).
      { apply (rounded_mono _ _ _ _ 1200 Hnk Hn255); try lia.
        rewrite !Pos2Z.inj_mul, Hmk, Hm255.
        replace (ek + e + 1200) with (ek + (e + 1200)) by lia.
        replace (e255 + e + 1200) with (e255 + (e + 1200)) by lia.
        assert (Hp : 0 < 2 ^ (e + 1200)) by (apply pow2_pos; lia).
        assert (Hs1 : 2 ^ (- ek) * 2 ^ (ek + (e + 1200)) = 2 ^ (e + 1200)).
        { rewrite <- pow2_split by lia. f_equal. lia. }
        assert (Hs2 : 2 ^ (- e255) * 2 ^ (e255 + (e + 1200)) = 2 ^ (e + 1200)).
        { rewrite <- pow2_split by lia. f_equal. lia. }
        replace (k * 2 ^ (- ek) * Z.pos m * 2 ^ (ek + (e + 1200)))
          with (k * Z.pos m * (2 ^ (- ek) * 2 ^ (ek + (e + 1200)))) by ring.
        replace (255 * 2 ^ (- e255) * Z.pos m * 2 ^ (e255 + (e + 1200)))
          with (255 * Z.pos m * (2 ^ (- e255) * 2 ^ (e255 + (e + 1200)))) by ring.
        rewrite Hs1, Hs2.
        apply Z.mul_le_mono_nonneg_r; [lia |].
        apply Z.mul_le_mono_nonneg_r; lia. }
      split.
      * apply Z.div_pos; [now apply rounded_nonneg | apply pow2_pos; lia].
      * eapply Z.le_trans; [| exact Hle].
        apply Z.div_le_mono; [apply pow2_pos; lia | exact Hmono].
Qed.

(** ** [int(k * opacity)] in the byte [k] *)

Lemma int_scaled_zero (opacity : float) (v : Z) :
  (0 <=? opacity)%float = true -> (opacity <=? 1)%float = true ->
  int_scaled 0 opacity = Returned v -> v = 0.
Proof.
  intros H0 H1 Hv. unfold int_scaled, Py.int_mul_float in Hv.
  change (Py.float_of_int 0) with (Returned 0%float) in Hv.
  simpl in Hv. unfold Py.int_of_float in Hv. rewrite mul_spec in Hv.
  change (Prim2SF 0%float) with (S754_zero false) in Hv.
  destruct (opacity_cases opacity H0 H1) as [[s Ho] | (m & e & Ho & _)];
    rewrite Ho in Hv; simpl in Hv; now injection Hv as <-.
Qed.

(** For an opacity between 0 and 1, [int(k * opacity)] grows with the
    byte [k]. *)
Lemma int_scaled_mono (opacity : float) (k k' v v' : Z) :
  (0 <=? opacity)%float = true -> (opacity <=? 1)%float = true ->
  0 <= k <= k' -> k' <= 255 ->
  int_scaled k opacity = Returned v -> int_scaled k' opacity = Returned v' ->
  0 <= v <= v'.
Proof.
  intros H0 H1 Hk Hk' Hv Hv'.
  destruct (Z.eq_dec k' 0) as [-> | Hne'].
  { assert (k = 0) as -> by lia.
    apply (int_scaled_zero _ _ H0 H1) in Hv, Hv'. lia. }
  destruct (small_int_float k' ltac:(lia))
    as (fk' & mk' & ek' & Fk' & Pk' & Hek' & Hmk' & Hdk').
  unfold int_scaled, Py.int_mul_float in Hv'.
  rewrite Fk' in Hv'. simpl in Hv'. unfold Py.int_of_float in Hv'.
  rewrite mul_spec, Pk' in Hv'.
  destruct (opacity_cases opacity H0 H1) as [[s Ho] | (m & e & Ho & He & Hc)].
  - (* the opacity is zero *)
    rewrite Ho in Hv'. simpl in Hv'. injection Hv' as <-.
    destruct (Z.eq_dec k 0) as [-> | Hne].
    + apply (int_scaled_zero _ _ H0 H1) in Hv. lia.
    + destruct (small_int_float k ltac:(lia)) as (fk & mk & ek & Fk & Pk & _).
      unfold int_scaled, Py.int_mul_float in Hv.
      rewrite Fk in Hv. simpl in Hv. unfold Py.int_of_float in Hv.
      rewrite mul_spec, Ho, Pk in Hv. simpl in Hv. injection Hv as <-. lia.
  - (* the opacity is positive *)
    rewrite Ho in Hv'. unfold SF64mul, SFmul in Hv'. simpl xorb in Hv'.
    destruct (product_shape mk' m ek' e Hdk' Hek' He Hc) as [Hnk' _].
    apply (trunc_binary_round_aux _ _ _ Hnk') in Hv'. subst v'.
    assert (Hnn : 0 <= rounded (mk' * m) (ek' + e) / 2 ^ 1074).
    { apply Z.div_pos; [now apply rounded_nonneg | apply pow2_pos; lia]. }
    destruct (Z.eq_dec k 0) as [-> | Hne].
    + apply (int_scaled_zero _ _ H0 H1) in Hv. lia.
    + destruct (small_int_float k ltac:(lia))
        as (fk & mk & ek & Fk & Pk & Hek & Hmk & Hdk).
      unfold int_scaled, Py.int_mul_float in Hv.
      rewrite Fk in Hv. simpl in Hv. unfold Py.int_of_float in Hv.
      rewrite mul_spec, Ho, Pk in Hv. unfold SF64mul, SFmul in Hv.
      simpl xorb in Hv.
      destruct (product_shape mk m ek e Hdk Hek He Hc) as [Hnk _].
      apply (trunc_binary_round_aux _ _ _ Hnk) in Hv. subst v.
      assert (Hmono : rounded (mk * m) (ek + e) <= rounded (mk' * m) (ek' + e)).
      { apply (rounded_mono _ _ _ _ 1200 Hnk Hnk'); try lia.
        rewrite !Pos2Z.inj_mul, Hmk, Hmk'.
        replace (ek + e + 1200) with (ek + (e + 1200)) by lia.
        replace (ek' + e + 1200) with (ek' + (e + 1200)) by lia.
        assert (Hp : 0 < 2 ^ (e + 1200)) by (apply pow2_pos; lia).
        assert (Hs1 : 2 ^ (- ek) * 2 ^ (ek + (e + 1200)) = 2 ^ (e + 1200)).
        { rewrite <- pow2_split by lia. f_equal. lia. }
        assert (Hs2 : 2 ^ (- ek') * 2 ^ (ek' + (e + 1200)) = 2 ^ (e + 1200)).
        { rewrite <- pow2_split by lia. f_equal. lia. }
        replace (k * 2 ^ (- ek) * Z.pos m * 2 ^ (ek + (e + 1200)))
          with (k * Z.pos m * (2 ^ (- ek) * 2 ^ (ek + (e + 1200)))) by ring.
        replace (k' * 2 ^ (- ek') * Z.pos m * 2 ^ (ek' + (e + 1200)))
          with (k' * Z.pos m * (2 ^ (- ek') * 2 ^ (ek' + (e + 1200)))) by ring.
        rewrite Hs1, Hs2.
        apply Z.mul_le_mono_nonneg_r; [lia |].
        apply Z.mul_le_mono_nonneg_r; lia. }
      split.
      * apply Z.div_pos; [now apply rounded_nonneg | apply pow2_pos; lia].
      * apply Z.div_le_mono; [apply pow2_pos; lia | exact Hmono].
Qed.

Lemma int_scaled_one (k : Z) :
  0 <= k <= 255 -> int_scaled k 1%float = Returned k.
Proof.
  intros Hk.
  pose (check := fun n : nat =>
    match int_scaled (Z.of_nat n) 1%float with
    | Returned v => v =? Z.of_nat n
    | _ => false
    end).
  assert (Hall : forallb check (seq 0 256) = true) by (vm_compute; reflexivity).
  rewrite forallb_forall in Hall.
  specialize (Hall (Z.to_nat k)). unfold check in Hall.
  rewrite Z2Nat.id in Hall by lia.
  destruct (int_scaled k 1%float) as [v | e | c];
    [| discriminate Hall; apply in_seq; lia | discriminate Hall; apply in_seq; lia].
  f_equal. apply Z.eqb_eq. apply Hall. apply in_seq. lia.
Qed.

Lemma one_sf : Prim2SF 1%float = S754_finite false 4503599627370496 (-52).
Proof. vm_compute. reflexivity. Qed.

Lemma SFleb_finite (m c : positive) (e e' : Z) :
  SFleb (S754_finite false m e) (S754_finite false c e') = true ->
  e < e' \/ (e = e' /\ (m <= c)%positive).
Proof.
  intros H. unfold SFleb, SFcompare in H.
  destruct (Z.compare_spec e e') as [Heq | Hlt | Hgt].
  - right. split; [exact Heq |].
    intros Hg. unfold Pos.compare in Hg. rewrite Hg in H. discriminate H.
  - left. exact Hlt.
  - discriminate H.
Qed.

(** A mantissa [m] at the exponent [e] of a number that is at most
    [C * 2^-52], against [C], both scaled to integers. *)
Lemma mantissa_le (m : positive) (e P T C : Z) :
  C = 2 ^ 52 ->
  e < -52 \/ (e = -52 /\ Z.pos m <= C) ->
  -1074 <= e <= -52 -> fexp64 (Z.pos (digits2_pos m) + e) = e ->
  0 < P -> (e = -52 -> T = P) -> (e < -52 -> T = P * 2 ^ (-52 - e)) ->
  Z.pos m * P <= C * T.
Proof.
  intros HC Hcases He Hc HP HPT HPR.
  destruct Hcases as [Hlt | [Heq Hm1]].
  - unfold fexp64 in Hc.
    pose proof (digits2_pos_bounds m) as [Lm Um].
    assert (Hd : Z.pos (digits2_pos m) <= 53) by lia.
    assert (Hm53 : Z.pos m <= 2 ^ 53).
    { apply Z.lt_le_incl. eapply Z.lt_le_trans; [exact Um |].
      apply Z.pow_le_mono_r; lia. }
    rewrite (HPR Hlt), HC.
    set (R := 2 ^ (-52 - e)).
    assert (HR : 2 ^ 1 <= R).
    { unfold R. apply Z.pow_le_mono_r; lia. }
    clearbody R.
    apply Z.le_trans with (2 ^ 53 * P).
    + apply Z.mul_le_mono_nonneg_r; [clear - HP; lia | exact Hm53].
    + replace (2 ^ 53) with (2 ^ 52 * 2 ^ 1) by (rewrite <- pow2_split; lia).
      rewrite <- Z.mul_assoc. apply Z.mul_le_mono_nonneg_l;
        [apply Z.lt_le_incl, pow2_pos; lia |].
      rewrite (Z.mul_comm P R).
      apply Z.mul_le_mono_nonneg_r; [clear - HP; lia | exact HR].
  - rewrite (HPT Heq).
    apply Z.mul_le_mono_nonneg_r; [clear - HP; lia | exact Hm1].
Qed.

(** The mantissa of an opacity that is at most 1, against that of 1. *)
Lemma mantissa_le_one (opacity : float) (m : positive) (e P T : Z) :
  (opacity <=? 1)%float = true ->
  Prim2SF opacity = S754_finite false m e ->
  -1074 <= e <= -52 -> fexp64 (Z.pos (digits2_pos m) + e) = e ->
  0 < P -> (e = -52 -> T = P) -> (e < -52 -> T = P * 2 ^ (-52 - e)) ->
  Z.pos m * P <= 4503599627370496 * T.
Proof.
  intros H1 Ho He Hc HP HPT HPR.
  rewrite leb_spec, Ho, one_sf in H1.
  apply SFleb_finite in H1.
  apply (mantissa_le m e P T 4503599627370496 eq_refl); assumption.
Qed.

(** For an opacity between 0 and 1, [int(k * opacity)] is at most [k]. *)
Lemma int_scaled_le (opacity : float) (k v : Z) :
  (0 <=? opacity)%float = true -> (opacity <=? 1)%float = true ->
  0 <= k <= 255 -> int_scaled k opacity = Returned v -> 0 <= v <= k.
Proof.
  intros H0 H1 Hk Hv.
  destruct (Z.eq_dec k 0) as [-> | Hne].
  { apply (int_scaled_zero _ _ H0 H1) in Hv. lia. }
  split; [exact (proj1 (int_scaled_mono opacity k k v v H0 H1 ltac:(lia)
                          ltac:(lia) Hv Hv)) |].
  destruct (small_int_float k ltac:(lia))
    as (fk & mk & ek & Fk & Pk & Hek & Hmk & Hdk).
  pose proof (int_scaled_one k Hk) as H1v.
  unfold int_scaled, Py.int_mul_float in Hv, H1v.
  rewrite Fk in Hv, H1v. simpl in Hv, H1v. unfold Py.int_of_float in Hv, H1v.
  rewrite mul_spec, Pk in Hv, H1v.
  destruct (opacity_cases opacity H0 H1) as [[s Ho] | (m & e & Ho & He & Hc)].
  { rewrite Ho in Hv. simpl in Hv. injection Hv as <-. lia. }
  rewrite Ho in Hv. unfold SF64mul, SFmul in Hv. simpl xorb in Hv.
  destruct (product_shape mk m ek e Hdk Hek He Hc) as [Hnk _].
  apply (trunc_binary_round_aux _ _ _ Hnk) in Hv. subst v.
  rewrite one_sf in H1v.
  unfold SF64mul, SFmul in H1v. simpl xorb in H1v.
  assert (Hc1 : fexp64 (Z.pos (digits2_pos 4503599627370496) + -52) = -52)
    by reflexivity.
  destruct (product_shape mk 4503599627370496 ek (-52) Hdk Hek
              ltac:(lia) Hc1) as [Hn1 _].
  apply (trunc_binary_round_aux _ _ _ Hn1) in H1v.
  rewrite H1v at 1.
  apply Z.div_le_mono; [apply pow2_pos; lia |].
  apply (rounded_mono _ _ _ _ 1200 Hnk Hn1); [lia | lia |].
  replace (ek + e + 1200) with ((ek + 52) + (e + 1148)) by lia.
  replace (ek + -52 + 1200) with ((ek + 52) + 1096) by lia.
  rewrite (pow2_split (ek + 52) (e + 1148)) by lia.
  rewrite (pow2_split (ek + 52) 1096) by lia.
  set (A := 2 ^ (ek + 52)).
  assert (HA : 0 < A) by (apply pow2_pos; lia).
  set (P := 2 ^ (e + 1148)).
  assert (HP : 0 < P) by (apply pow2_pos; lia).
  set (T := 2 ^ 1096).
  assert (HPT : e = -52 -> T = P).
  { intros ->. unfold T, P. f_equal. }
  assert (HPR : e < -52 -> T = P * 2 ^ (-52 - e)).
  { intros Hlt. unfold T, P. rewrite <- pow2_split by lia. f_equal. lia. }
  clearbody A P T.
  pose proof (mantissa_le_one opacity m e P T H1 Ho He Hc HP HPT HPR) as Hle.
  rewrite !Pos2Z.inj_mul.
  replace (Z.pos mk * Z.pos m * (A * P)) with (Z.pos mk * A * (Z.pos m * P))
    by ring.
  replace (Z.pos mk * 4503599627370496 * (A * T))
    with (Z.pos mk * A * (4503599627370496 * T)) by ring.
  apply Z.mul_le_mono_nonneg_l; [| exact Hle].
  apply Z.mul_nonneg_nonneg; lia.
Qed.

(** * The opacity of the watermark *)

Section Opacity.
Context `{Pillow}.

Lemma tabulate_spec (f : Z -> outcome Z) (n : nat) (lut : list Z) :
  tabulate f n = Returned lut ->
  length lut = n /\
  forall k, (k < n)%nat ->
    exists v, f (Z.of_nat k) = Returned v /\ nth k lut 0 = CLIP8 v.
Proof.
  revert lut. induction n as [| n IH]; intros lut E.
  - injection E as <-. split; [reflexivity | intros k Hk; lia].
  - simpl in E. apply outcome_bind_inv in E as (l & El & E).
    apply outcome_bind_inv in E as (v & Ev & E). injection E as <-.
    destruct (IH l El) as [Hlen Hl].
    split; [rewrite length_app; simpl; lia |].
    intros k Hk. destruct (Nat.eq_dec k n) as [-> | Hne].
    + exists v. split; [exact Ev |].
      rewrite app_nth2 by lia. rewrite Hlen, Nat.sub_diag. reflexivity.
    + destruct (Hl k ltac:(lia)) as (v' & Ev' & Hn).
      exists v'. split; [exact Ev' |]. rewrite app_nth1 by lia. exact Hn.
Qed.

#[local] Arguments tabulate : simpl never.

(** The last step of [create_watermark], pixel by pixel: the new alpha
    byte is looked up in the table of [int(p * opacity)]. *)
Lemma apply_opacity_pixel (canvas wm : Image) (opacity : float) :
  apply_opacity canvas opacity = Returned wm ->
  mode wm = mode canvas /\ width wm = width canvas /\ height wm = height canvas /\
  forall i j,
    let p := alpha_of (pix canvas i j) in
    (0 <= p <= 255 ->
     exists v, int_scaled p opacity = Returned v /\
               alpha_of (pix wm i j) = CLIP8 v) /\
    (alpha_of (pix wm i j) = 0 \/
     exists k v, 0 <= k <= 255 /\ int_scaled k opacity = Returned v /\
                 alpha_of (pix wm i j) = CLIP8 v).
Proof.
  unfold apply_opacity, point. intros E.
  apply outcome_bind_inv in E as (alpha & Ea & E). injection E as <-.
  apply outcome_bind_inv in Ea as (lut & El & Ea). injection Ea as <-.
  destruct (tabulate_spec _ _ _ El) as [Hlen Hl].
  repeat split; try reflexivity.
  - intros Hp. clear El. simpl in Hp |- *.
    destruct (pix canvas i j) as [[[r g] b] a]. simpl in Hp |- *.
    destruct (Hl (Z.to_nat a) ltac:(lia)) as (v & Ev & Hn).
    rewrite Z2Nat.id in Ev by lia. eauto.
  - clear El. simpl. destruct (pix canvas i j) as [[[r g] b] a]. simpl.
    destruct (Nat.lt_ge_cases (Z.to_nat a) 256) as [Hlt | Hge].
    + right. destruct (Hl (Z.to_nat a) Hlt) as (v & Ev & Hn).
      exists (Z.of_nat (Z.to_nat a)), v. repeat split; try assumption; lia.
    + left. apply nth_overflow. lia.
Qed.

(** The last step on a pixel whose alpha is a byte: the three colour
    bytes stay and the alpha byte [p] becomes [int(p * opacity)], which
    is a byte again and is not above [p]. *)
Lemma apply_opacity_scales (canvas wm : Image) (opacity : float) :
  (0 <=? opacity)%float = true -> (opacity <=? 1)%float = true ->
  apply_opacity canvas opacity = Returned wm ->
  forall i j, 0 <= alpha_of (pix canvas i j) <= 255 ->
    exists v, int_scaled (alpha_of (pix canvas i j)) opacity = Returned v /\
              0 <= v <= alpha_of (pix canvas i j) /\
              pix wm i j = set_alpha (pix canvas i j) v.
Proof.
  unfold apply_opacity, point. intros H0 H1 E i j Hp.
  apply outcome_bind_inv in E as (alpha & Ea & E). injection E as <-.
  apply outcome_bind_inv in Ea as (lut & El & Ea). injection Ea as <-.
  destruct (tabulate_spec _ _ _ El) as [Hlen Hl]. clear El.
  cbn [pix putalpha alpha_band band].
  destruct (pix canvas i j) as [[[r g] b] a]. cbn [alpha_of band set_alpha] in *.
  destruct (Hl (Z.to_nat a) ltac:(lia)) as (v & Ev & Hn).
  rewrite Z2Nat.id in Ev by lia.
  pose proof (int_scaled_le opacity a v H0 H1 Hp Ev) as Hv.
  exists v. split; [exact Ev |]. split; [exact Hv |].
  rewrite Hn. unfold CLIP8. repeat f_equal. lia.
Qed.

End Opacity.

(** C4. Watermark opacity bound.  For an opacity between 0 and 1, every
    watermark that [create_watermark] returns is an RGBA bitmap whose
    alpha bytes are at most [round(255 * opacity)], because the last step
    scales the alpha point-wise: the watermark is the canvas that was
    drawn from the scaled logo, with the same size and the same colour
    bytes, in which the alpha byte [p] of every pixel is replaced by
    [int(p * opacity)], which is not above [p]; binary64 multiplication
    and truncation are monotone. *)
Theorem watermark_alpha_bound `{Pillow} (logo_path : path) (image_width : Z)
        (opacity : float) (w w' : world) (wm : Image) :
  (0 <=? opacity)%float = true -> (opacity <=? 1)%float = true ->
  create_watermark logo_path image_width opacity w = (Returned wm, w') ->
  mode wm = "RGBA" /\
  exists bound ww logo canvas,
    (Py.int_mul_float 255 opacity ≫= Py.round_float) = Returned bound /\
    (forall i j, 0 <= alpha_of (pix wm i j) <= bound) /\
    int_scaled image_width 0.20 = Returned ww /\
    load_logo logo_path ww w = (Returned logo, w) /\
    draw_watermark logo ww = Returned canvas /\
    apply_opacity canvas opacity = Returned wm /\
    size wm = size canvas /\
    (forall i j, 0 <= alpha_of (pix canvas i j) <= 255 ->
       exists v, int_scaled (alpha_of (pix canvas i j)) opacity = Returned v /\
                 0 <= v <= alpha_of (pix canvas i j) /\
                 pix wm i j = set_alpha (pix canvas i j) v).
Proof.
  intros H0 H1 E.
  apply create_watermark_returned in E
    as (_ & ww & logo & canvas & Eww & El & Ed & Ea).
  destruct (apply_opacity_pixel _ _ _ Ea) as (Hmode & Hwd & Hht & Hpix).
  split.
  - rewrite Hmode. unfold draw_watermark in Ed.
    apply outcome_bind_inv in Ed as ([[f tw] th] & _ & Ed).
    apply outcome_bind_inv in Ed as (padding & _ & Ed).
    apply outcome_bind_inv in Ed as (spacing & _ & Ed).
    apply outcome_bind_inv in Ed as (blank & Eb & Ed).
    apply outcome_bind_inv in Ed as (pasted & Ep & Ed).
    injection Ed as <-. simpl.
    apply paste_size in Ep as (_ & _ & ->).
    now apply Image_new_size in Eb as (_ & _ & ->).
  - (* the table has an entry for 0, which gives the bound *)
    assert (Hz : exists v0, int_scaled 0 opacity = Returned v0).
    { unfold apply_opacity, point in Ea.
      apply outcome_bind_inv in Ea as (alpha & Et & _).
      apply outcome_bind_inv in Et as (lut & Elut & _).
      destruct (tabulate_spec _ _ _ Elut) as [_ Hl].
      destruct (Hl 0%nat ltac:(lia)) as (v0 & Ev0 & _). eauto. }
    destruct Hz as [v0 Ev0].
    destruct (scaled_le_bound opacity 0 v0 H0 H1 ltac:(lia) Ev0)
      as (bound & Hb & Hv0).
    exists bound, ww, logo, canvas.
    split; [exact Hb |]. split.
    { intros i j. destruct (Hpix i j) as [_ [Hzero | (k & v & Hk & Ev & Hv)]].
      - rewrite Hzero. lia.
      - destruct (scaled_le_bound opacity k v H0 H1 Hk Ev) as (bound' & Hb' & Hv').
        rewrite Hb in Hb'. injection Hb' as <-.
        rewrite Hv. unfold CLIP8. lia. }
    split; [exact Eww |]. split; [exact El |]. split; [exact Ed |].
    split; [exact Ea |]. split; [unfold size; now rewrite Hwd, Hht |].
    exact (apply_opacity_scales canvas wm opacity H0 H1 Ea).
Qed.

(** On the 1600 pixels wide demo image the logo is drawn opaque, and the
    watermark has alpha 140 = int(255 * 0.55) there. *)
Lemma watermark_alpha_bound_witness :
  exists wm,
    fst (@create_watermark Plain.pillow Demo.logo_png 1600 0.55 Demo.world0)
    = Returned wm /\
    (forall i j, 0 <= alpha_of (pix wm i j) <= 140) /\
    pix wm 40 40 = (10, 20, 30, 140).
Proof.
  destruct (@create_watermark Plain.pillow Demo.logo_png 1600 0.55 Demo.world0)
    as [o w'] eqn:E.
  assert (Ho : exists wm, o = Returned wm).
  { apply (f_equal fst) in E. simpl in E. rewrite <- E. vm_compute. eauto. }
  destruct Ho as [wm ->].
  destruct (@watermark_alpha_bound Plain.pillow Demo.logo_png 1600 0.55
              Demo.world0 w' wm
              ltac:(vm_compute; reflexivity) ltac:(vm_compute; reflexivity) E)
    as (_ & bound & ww & logo & canvas & Hb & Ha & Eww & El & Ed & _ & _ & Hpix).
  vm_compute in Hb. injection Hb as <-.
  exists wm. split; [reflexivity |]. split; [exact Ha |].
  vm_compute in Eww. injection Eww as <-.
  assert (Hc : (fst (@load_logo Plain.pillow Demo.logo_png 320 Demo.world0)
                  ≫= fun logo => @draw_watermark Plain.pillow logo 320
                  ≫= fun canvas => Returned (pix canvas 40 40))
               = Returned (10, 20, 30, 255)) by (vm_compute; reflexivity).
  rewrite El in Hc. cbn [fst mbind outcome_bind] in Hc. rewrite Ed in Hc.
  cbn [mbind outcome_bind] in Hc. injection Hc as Hc.
  destruct (Hpix 40 40) as (v & Ev & _ & Hv).
  { rewrite Hc. cbn. lia. }
  rewrite Hc in Ev, Hv. vm_compute in Ev. injection Ev as <-. exact Hv.
Defined.

(** * Further properties of the discovery and of thumbnail names *)

Section Thumbnails.

#[local] Arguments String.append : simpl nomatch.

(** The stem and the suffix of a name made of a non-empty stem and an
    image extension. *)
Lemma stem_suffix_of_glob (ext pre : string) :
  In ext image_extensions -> pre <> "" ->
  PurePath.stem_of_name (pre +:+ ext) = pre /\
  PurePath.suffix_of_name (pre +:+ ext) = ext.
Proof.
  intros Hext Hne.
  assert (Hpre : (0 < String.length pre)%nat).
  { destruct pre; [now elim Hne | simpl; lia]. }
  split.
  - unfold PurePath.stem_of_name, Str.rfind_dot. simpl in Hext.
    repeat (destruct Hext as [<- | Hext]); try contradiction;
      (rewrite rfind_dot_from_app by (intros; reflexivity);
       rewrite append_length; simpl String.length; simpl Nat.add;
       replace (0 <? String.length pre)%nat with true
         by (symmetry; apply Nat.ltb_lt; lia);
       match goal with
       | |- context [(?a <? ?b)%nat] =>
           replace (a <? b)%nat with true by (symmetry; apply Nat.ltb_lt; lia)
       end;
       simpl andb; cbv iota; apply substring_app_l).
  - apply glob_is_suffix; [exact Hext | |].
    + intros E. apply (f_equal String.length) in E.
      rewrite append_length in E. lia.
    + apply ends_with_spec. now exists pre.
Qed.

Lemma name_snoc (dir : path) (n : string) : PurePath.name (dir ++ [n]) = n.
Proof. unfold PurePath.name. apply last_last. Qed.

Lemma thumbnail_name (p : path) :
  PurePath.name (thumbnail_path_of p)
  = PurePath.stem p +:+ "-thumb" +:+ PurePath.suffix p.
Proof. unfold thumbnail_path_of. apply name_snoc. Qed.

(** The thumbnail of a file the globs select has [-thumb] in its stem and
    the suffix of the file. *)
Lemma thumbnail_stem_suffix (p : path) (ext : string) :
  In ext image_extensions -> Str.ends_with ext (PurePath.name p) = true ->
  Str.contains "-thumb" (PurePath.stem (thumbnail_path_of p)) = true /\
  PurePath.suffix (thumbnail_path_of p) = PurePath.suffix p.
Proof.
  intros Hext Hm. unfold PurePath.stem at 1, PurePath.suffix at 1.
  rewrite thumbnail_name. unfold PurePath.stem, PurePath.suffix.
  apply ends_with_spec in Hm as [pre Hn]. rewrite Hn.
  destruct pre as [| c pre].
  - simpl in Hext.
    repeat (destruct Hext as [<- | Hext]); try contradiction;
      (split; vm_compute; reflexivity).
  - destruct (stem_suffix_of_glob ext (String c pre) Hext) as [Hs Hx];
      [discriminate |].
    rewrite Hs, Hx.
    destruct (stem_suffix_of_glob ext (String c pre +:+ "-thumb") Hext) as [Hs' Hx'];
      [discriminate |].
    rewrite <- append_assoc. rewrite Hs', Hx'. split; [| reflexivity].
    apply contains_spec. exists (String c pre), "". now rewrite append_empty_r.
Qed.

Lemma stem_suffix_split (n : string) :
  n = PurePath.stem_of_name n +:+ PurePath.suffix_of_name n.
Proof.
  unfold PurePath.stem_of_name, PurePath.suffix_of_name.
  destruct (Str.rfind_dot n) as [i |] eqn:Ei; [| now rewrite append_empty_r].
  destruct ((0 <? i)%nat && (i <? String.length n - 1)%nat);
    [| now rewrite append_empty_r].
  apply substring_split.
  apply rfind_dot_from_bound in Ei; [simpl in Ei; lia | discriminate].
Qed.

Lemma thumbnail_differs (p : path) : thumbnail_path_of p <> p.
Proof.
  intros E. apply (f_equal PurePath.name) in E. rewrite thumbnail_name in E.
  apply (f_equal String.length) in E.
  unfold PurePath.stem, PurePath.suffix in E.
  rewrite (stem_suffix_split (PurePath.name p)) in E at 3.
  rewrite !append_length in E. simpl in E. lia.
Qed.

(** Two files the globs select with the same thumbnail are the same
    file. *)
Lemma thumbnail_path_inj (p q : path) (e1 e2 : string) :
  In e1 image_extensions -> Str.ends_with e1 (PurePath.name p) = true ->
  In e2 image_extensions -> Str.ends_with e2 (PurePath.name q) = true ->
  thumbnail_path_of p = thumbnail_path_of q -> p = q.
Proof.
  intros H1 M1 H2 M2 E.
  assert (Hnil : forall (r : path) e, In e image_extensions ->
                   Str.ends_with e (PurePath.name r) = true -> r <> []).
  { intros r e He Hm ->. simpl in He.
    repeat (destruct He as [<- | He]); try contradiction; discriminate Hm. }
  pose proof (proj2 (thumbnail_stem_suffix p e1 H1 M1)) as Sp.
  pose proof (proj2 (thumbnail_stem_suffix q e2 H2 M2)) as Sq.
  rewrite E in Sp. rewrite Sp in Sq.
  pose proof (f_equal PurePath.name E) as En. rewrite !thumbnail_name in En.
  rewrite Sq in En. rewrite <- !append_assoc in En.
  apply append_inj_length in En as [En _]; [| reflexivity].
  apply append_inj_length in En as [En _]; [| reflexivity].
  assert (Hname : PurePath.name p = PurePath.name q).
  { rewrite (stem_suffix_split (PurePath.name p)), (stem_suffix_split (PurePath.name q)).
    unfold PurePath.stem in En. unfold PurePath.suffix in Sq. now rewrite En, Sq. }
  pose proof (f_equal PurePath.parent E) as Ep.
  unfold PurePath.parent, thumbnail_path_of in Ep. rewrite !removelast_last in Ep.
  rewrite (app_removelast_last "" (Hnil p e1 H1 M1)).
  rewrite (app_removelast_last "" (Hnil q e2 H2 M2)).
  unfold PurePath.name in Hname. unfold PurePath.parent in Ep. now rewrite Ep, Hname.
Qed.

End Thumbnails.

(** X1. No path is written twice in a run: the images the discovery
    lists and the thumbnails written beside them are pairwise different
    paths, whatever the iteration order of the extension set and the
    order of the walk.  So no file is processed twice, and no thumbnail
    replaces a listed image or the thumbnail of another file. *)
Theorem no_path_written_twice (exts : list string) (walk : list path) :
  Permutation exts image_extensions -> List.NoDup walk ->
  List.NoDup (find_images exts walk) /\
  List.NoDup (written_paths (find_images exts walk)).
Proof.
  intros Hp Hw.
  pose proof (NoDup_find_images exts walk Hp Hw) as Hn.
  split; [exact Hn |].
  assert (Hext : forall f, In f (find_images exts walk) ->
            exists e, In e image_extensions /\
                      Str.ends_with e (PurePath.name f) = true).
  { intros f Hf. apply In_find_images in Hf as (_ & (e & He & Hm) & _).
    exists e. split; [eapply Permutation_in; eauto | exact Hm]. }
  assert (Hthumb : forall f g, In f (find_images exts walk) ->
            In g (find_images exts walk) -> g <> thumbnail_path_of f).
  { intros f g Hf Hg ->. destruct (Hext _ Hf) as (e & He & Hm).
    apply In_find_images in Hg as (_ & _ & Hc).
    destruct (thumbnail_stem_suffix f e He Hm) as [Hs _]. congruence. }
  unfold written_paths. apply NoDup_flat_map; [exact Hn | |].
  - intros a _. constructor; [| constructor; [intros [] | constructor]].
    intros [E | []]. now apply (thumbnail_differs a).
  - intros a a' b Ha Ha' [<- | [<- | []]] [E | [E | []]].
    + now symmetry.
    + exfalso. now apply (Hthumb a' a Ha' Ha).
    + exfalso. apply (Hthumb a a' Ha Ha'). now symmetry.
    + destruct (Hext _ Ha) as (e1 & H1 & M1). destruct (Hext _ Ha') as (e2 & H2 & M2).
      symmetry in E. exact (thumbnail_path_inj a a' e1 e2 H1 M1 H2 M2 E).
Qed.

Lemma no_path_written_twice_witness :
  List.NoDup (written_paths
                (find_images image_extensions [["a.jpg"]; ["d"; "a.jpg"]; ["a.png"]])).
Proof.
  apply (no_path_written_twice image_extensions
           [["a.jpg"]; ["d"; "a.jpg"]; ["a.png"]] (Permutation_refl _)).
  repeat (constructor; [simpl; intuition discriminate |]). constructor.
Defined.

(** X2. A thumbnail a run writes is never picked up as an image: for a
    file the discovery lists, the path [<stem>-thumb<suffix>] beside it
    is excluded from every discovery, whatever the directory walk.  In
    particular the thumbnail of one listed file is never another listed
    file. *)
Theorem thumbnail_never_rediscovered (exts exts' : list string)
        (walk walk' : list path) (p : path) :
  (forall e, In e exts -> In e image_extensions) ->
  In p (find_images exts walk) ->
  ~ In (thumbnail_path_of p) (find_images exts' walk').
Proof.
  intros Hsub Hp Ht.
  apply In_find_images in Hp as (_ & (ext & He & Hm) & _).
  apply In_find_images in Ht as (_ & _ & Hc).
  destruct (thumbnail_stem_suffix p ext (Hsub _ He) Hm) as [Hs _].
  congruence.
Qed.

Lemma thumbnail_never_rediscovered_witness :
  ~ In (thumbnail_path_of ["img"; "a.png"])
       (find_images image_extensions [["img"; "a.png"]; ["img"; "a-thumb.png"]]).
Proof.
  apply (thumbnail_never_rediscovered image_extensions image_extensions
           [["img"; "a.png"]] _ ["img"; "a.png"]).
  - intros e He. exact He.
  - vm_compute. now left.
Defined.

(** X3. The thumbnail lies beside the original, under another name, and
    for a file the discovery lists it has the suffix of the original, so
    that it is written in the same format. *)
Theorem thumbnail_beside_original (p : path) :
  PurePath.parent (thumbnail_path_of p) = PurePath.parent p /\
  thumbnail_path_of p <> p /\
  (forall exts walk,
     (forall e, In e exts -> In e image_extensions) ->
     In p (find_images exts walk) ->
     PurePath.suffix (thumbnail_path_of p) = PurePath.suffix p).
Proof.
  split; [| split].
  - unfold PurePath.parent, thumbnail_path_of. apply removelast_last.
  - apply thumbnail_differs.
  - intros exts walk Hsub Hp.
    apply In_find_images in Hp as (_ & (ext & He & Hm) & _).
    exact (proj2 (thumbnail_stem_suffix p ext (Hsub _ He) Hm)).
Qed.

(** * Further properties of the compositor *)

Section Compose.
Context `{Pillow}.

Lemma Image_new_returns (m : string) (w h : Z) (c : pixel) :
  0 <= w -> 0 <= h -> Image_new m (w, h) c = Returned (mkImage m w h (fun _ _ => c)).
Proof.
  intros Hw Hh. unfold Image_new.
  replace (w <? 0) with false by (symmetry; apply Z.ltb_ge; lia).
  replace (h <? 0) with false by (symmetry; apply Z.ltb_ge; lia).
  reflexivity.
Qed.

(** An image set on white under its own alpha band. *)
Lemma paste_on_white (im : Image) :
  0 <= width im -> 0 <= height im -> mode im = "RGBA" ->
  Image_new "RGB" (size im) (255, 255, 255, 255) ≫=
    (fun rgb_image => paste rgb_image im (0, 0) (Some (alpha_band im)))
  = Returned (mkImage "RGB" (width im) (height im)
      (fun i j =>
         if in_box (0, 0) im i j
         then map_bands (BLEND (alpha_of (pix im (i - 0) (j - 0))))
                        (255, 255, 255, 255) (pix im (i - 0) (j - 0))
         else (255, 255, 255, 255))).
Proof.
  intros Hw Hh Hm. unfold size. rewrite Image_new_returns by assumption.
  simpl. unfold paste, paste_source. simpl. rewrite Hm, !Z.eqb_refl. simpl.
  reflexivity.
Qed.

Lemma in_box_origin (im : Image) (i j : Z) : in_box (0, 0) im i j = inside im i j.
Proof. unfold in_box, inside. simpl. now rewrite <- !andb_assoc. Qed.

End Compose.

(** X4. Whatever its mode, the image [process_image] goes on with after
    the first conversion is an RGB image of the size of the file's image:
    the conversion never raises. *)
Theorem normalize_rgb `{Pillow} (image : Image) :
  0 <= width image -> 0 <= height image ->
  exists r, normalize image = Returned r /\ mode r = "RGB" /\ size r = size image.
Proof.
  intros Hw Hh. unfold normalize.
  destruct (String.eqb (mode image) "RGBA") eqn:Ea.
  - apply String.eqb_eq in Ea. simpl orb. cbv iota.
    rewrite Ea. simpl String.eqb. cbv iota. rewrite Ea. simpl String.eqb. cbv iota.
    rewrite (paste_on_white image Hw Hh Ea). eexists. split; [reflexivity |].
    now split.
  - destruct (String.eqb (mode image) "LA") eqn:El.
    + apply String.eqb_eq in El. simpl orb. cbv iota.
      rewrite El. simpl String.eqb. cbv iota. rewrite El. simpl String.eqb. cbv iota.
      unfold size. rewrite Image_new_returns by assumption. simpl.
      eexists. split; [reflexivity |]. now split.
    + destruct (String.eqb (mode image) "P") eqn:Ep.
      * simpl orb. cbv iota. simpl mode. simpl String.eqb. cbv iota.
        unfold size. rewrite Image_new_returns by assumption. simpl.
        unfold paste, paste_source. simpl. rewrite !Z.eqb_refl. simpl.
        eexists. split; [reflexivity |]. now split.
      * simpl orb. cbv iota. destruct (String.eqb (mode image) "RGB") eqn:Er.
        -- apply String.eqb_eq in Er. simpl. eexists. split; [reflexivity |].
           now split.
        -- simpl. eexists. split; [reflexivity |]. now split.
Qed.

Lemma normalize_rgb_witness :
  exists r, @normalize Plain.pillow (Plain.solid "LA" 3 2 (7, 7, 7, 0)) = Returned r /\
            mode r = "RGB" /\ size r = (3, 2).
Proof.
  apply (@normalize_rgb Plain.pillow (Plain.solid "LA" 3 2 (7, 7, 7, 0)));
    simpl; lia.
Defined.

(** X5. What the white background does.  An RGBA image is blended onto
    white under its alpha band: every pixel is the blend of white and
    the pixel with the alpha of the pixel as the mask byte.  An LA image
    is pasted with no mask: every pixel of the result is the pixel of
    the image, whatever its alpha, and no white shows. *)
Theorem normalize_white_background `{Pillow} (image : Image) :
  0 <= width image -> 0 <= height image ->
  (mode image = "RGBA" ->
   exists r, normalize image = Returned r /\
     forall i j, inside image i j = true ->
       pix r i j = map_bands (BLEND (alpha_of (pix image i j)))
                             (255, 255, 255, 255) (pix image i j)) /\
  (mode image = "LA" ->
   exists r, normalize image = Returned r /\
     forall i j, inside image i j = true -> pix r i j = pix image i j).
Proof.
  intros Hw Hh. split; intros Hm; unfold normalize; rewrite Hm; simpl String.eqb;
    simpl orb; cbv iota; rewrite Hm; simpl String.eqb; cbv iota.
  - rewrite (paste_on_white image Hw Hh Hm). eexists. split; [reflexivity |].
    intros i j Hin. cbn [pix]. rewrite in_box_origin, Hin. now rewrite !Z.sub_0_r.
  - unfold size. rewrite Image_new_returns by assumption.
    unfold mbind, outcome_bind, paste, paste_source. cbn [mode]. rewrite Hm.
    eexists. split; [reflexivity |].
    intros i j Hin. cbn [pix]. rewrite (in_box_origin image), Hin.
    simpl. now rewrite !Z.sub_0_r.
Qed.

Lemma normalize_white_background_witness :
  exists r, @normalize Plain.pillow (Plain.solid "LA" 3 2 (7, 7, 7, 0)) = Returned r /\
            pix r 1 1 = (7, 7, 7, 0).
Proof.
  destruct (proj2 (@normalize_white_background Plain.pillow
                     (Plain.solid "LA" 3 2 (7, 7, 7, 0))
                     ltac:(simpl; lia) ltac:(simpl; lia)) eq_refl) as [r [Hr Hp]].
  exists r. split; [exact Hr |]. exact (Hp 1 1 eq_refl).
Defined.


(** X7. The result of [apply_watermark] is an RGBA image of the size of
    the base image, and outside the rectangle of the watermark at the
    anchor every pixel is the pixel of the base image (made RGBA). *)
Theorem watermark_stays_in_box `{Pillow} (image watermark r : Image)
        (position : string) (padding : Z) :
  apply_watermark image watermark position padding = Returned r ->
  mode r = "RGBA" /\ size r = size image /\
  forall i j,
    in_box (anchor position padding (width image) (height image)
                   (width watermark) (height watermark)) watermark i j = false ->
    pix r i j = pix (ensure_rgba image) i j.
Proof.
  intros E. pose proof (apply_watermark_size _ _ _ _ _ E) as [Hw Hh].
  rewrite apply_watermark_paste in E.
  pose proof (paste_size _ _ _ _ _ E) as (_ & _ & Hm).
  rewrite ensure_rgba_mode in Hm.
  split; [exact Hm |]. split; [unfold size; now rewrite Hw, Hh |].
  intros i j. revert E. unfold paste.
  destruct (anchor _ _ _ _ _ _) as [x y].
  destruct (negb _); [discriminate |]. destruct (negb _); [discriminate |].
  intros [= <-] Hbox. unfold in_box in Hbox. cbn [pix]. now rewrite Hbox.
Qed.

Lemma watermark_stays_in_box_witness :
  exists r, @apply_watermark Plain.pillow (Plain.solid "RGB" 100 80 (1, 2, 3, 255))
              (Plain.solid "RGBA" 30 20 (9, 9, 9, 128)) "top_right" 20 = Returned r /\
            mode r = "RGBA" /\ pix r 0 0 = (1, 2, 3, 255).
Proof.
  assert (Hr : exists r, @apply_watermark Plain.pillow
                           (Plain.solid "RGB" 100 80 (1, 2, 3, 255))
                           (Plain.solid "RGBA" 30 20 (9, 9, 9, 128)) "top_right" 20
                         = Returned r).
  { rewrite apply_watermark_paste.
    rewrite paste_self_mask by (apply ensure_rgba_mode || reflexivity). eauto. }
  destruct Hr as [r Hr].
  exists r. split; [exact Hr |].
  destruct (@watermark_stays_in_box Plain.pillow _ _ _ _ _ Hr) as (Hm & _ & Hp).
  split; [exact Hm |]. rewrite (Hp 0 0 eq_refl). reflexivity.
Defined.

(** X8. With one of the four corner names, a padding that is not
    negative and a watermark that fits beside it, the rectangle of the
    watermark lies inside the image, [padding] pixels from each of the
    two edges the name gives; when the watermark and the padding are
    wider than the image, the rectangle of a right corner starts left of
    the image (and [paste] clips it). *)
Theorem corner_box_inside (position : string) (padding W Hh w h : Z) :
  In position ["top_right"; "top_left"; "bottom_right"; "bottom_left"] ->
  0 <= padding ->
  let x := fst (anchor position padding W Hh w h) in
  let y := snd (anchor position padding W Hh w h) in
  (w + padding <= W -> h + padding <= Hh ->
   0 <= x /\ x + w <= W /\ 0 <= y /\ y + h <= Hh) /\
  (In position ["top_right"; "bottom_right"] -> W - (x + w) = padding) /\
  (In position ["top_left"; "bottom_left"] -> x = padding) /\
  (In position ["top_right"; "top_left"] -> y = padding) /\
  (In position ["bottom_right"; "bottom_left"] -> Hh - (y + h) = padding) /\
  (In position ["top_right"; "bottom_right"] -> W < w + padding -> x < 0).
Proof.
  intros Hpos Hpad. simpl in Hpos.
  destruct Hpos as [<- | [<- | [<- | [<- | []]]]]; simpl;
    (split; [lia |]);
    repeat split; intros Hin; simpl in Hin;
    repeat (destruct Hin as [Hin | Hin]; try discriminate Hin); try contradiction;
    lia.
Qed.

Lemma corner_box_inside_witness :
  anchor "bottom_right" 20 100 80 30 20 = (50, 40).
Proof.
  pose proof (corner_box_inside "bottom_right" 20 100 80 30 20
                ltac:(simpl; tauto) ltac:(lia)) as (_ & H1 & _ & _ & H2 & _).
  cbv zeta in H1, H2. specialize (H1 ltac:(simpl; tauto)).
  specialize (H2 ltac:(simpl; tauto)).
  destruct (anchor "bottom_right" 20 100 80 30 20) as [x y]. simpl in H1, H2.
  f_equal; lia.
Defined.

(** * Further properties of [create_watermark] *)

Section Watermark.
Context `{Pillow}.

Lemma int_scaled_not_exited (z : Z) (f : float) (c : Z) : int_scaled z f <> Exited c.
Proof.
  unfold int_scaled, Py.int_mul_float.
  destruct (Py.float_of_int z) as [x | e | c0] eqn:Ez; simpl; try discriminate.
  - apply int_of_float_not_exited.
  - now apply float_of_int_not_exited in Ez.
Qed.

Lemma resize_not_exited (im : Image) (sz : Z * Z) (c : Z) : resize im sz <> Exited c.
Proof.
  unfold resize. destruct sz as [w h].
  destruct (_ && _); [discriminate |]. destruct (_ || _); discriminate.
Qed.

Lemma scale_logo_not_exited (logo_image : Image) (ww c : Z) :
  scale_logo logo_image ww <> Exited c.
Proof.
  unfold scale_logo.
  destruct (Py.truediv _ _) as [aspect | e | c0] eqn:Et; simpl;
    [| discriminate | now apply truediv_not_exited in Et].
  destruct (int_scaled ww 0.8) as [lw | e | c0] eqn:Ew; simpl;
    [| discriminate | now apply int_scaled_not_exited in Ew].
  unfold Py.int_div_float.
  destruct (Py.float_of_int lw) as [x | e | c0] eqn:Ex; simpl;
    [| discriminate | now apply float_of_int_not_exited in Ex].
  destruct (is_zero aspect); simpl; [discriminate |].
  destruct (Py.int_of_float (x / aspect)) as [v | e | c0] eqn:Ei; simpl;
    [| discriminate | now apply int_of_float_not_exited in Ei].
  apply (resize_not_exited (ensure_rgba logo_image) (lw, v)).
Qed.

Lemma load_logo_not_exited (p : path) (ww : Z) (w w' : world) (c : Z) :
  load_logo p ww w <> (Exited c, w').
Proof.
  unfold load_logo. intros E.
  apply bind_inv in E as [(a & s' & _ & E2) | [(e & _ & E2) | (c0 & E1 & _)]].
  - unfold lift in E2. injection E2 as E2 _. now apply scale_logo_not_exited in E2.
  - discriminate E2.
  - now apply Image_open_not_exited in E1.
Qed.

Lemma tabulate_not_exited (f : Z -> outcome Z) (n : nat) (c : Z) :
  (forall k c', f k <> Exited c') -> tabulate f n <> Exited c.
Proof.
  intros Hf. revert c. induction n as [| n IH]; intros c Et; [discriminate Et |].
  cbn [tabulate] in Et.
  destruct (tabulate f n) as [l | e | c1] eqn:En; simpl in Et; try discriminate Et.
  - destruct (f (Z.of_nat n)) as [v | e | c1] eqn:Ev; simpl in Et;
      try discriminate Et.
    now apply Hf in Ev.
  - now apply (IH c1).
Qed.

Lemma apply_opacity_not_exited (canvas : Image) (opacity : float) (c : Z) :
  apply_opacity canvas opacity <> Exited c.
Proof.
  unfold apply_opacity, point. intros E.
  destruct (tabulate _ 256) as [lut | e | c0] eqn:Et; simpl in E; try discriminate E.
  apply tabulate_not_exited in Et; [exact Et |].
  intros k c'. apply int_scaled_not_exited.
Qed.

Lemma fit_text_not_exited (ww c : Z) : fit_text ww <> Exited c.
Proof.
  unfold fit_text. intros Ef.
  destruct (int_scaled ww 0.15) as [ts | e | c0] eqn:Ets; simpl in Ef;
    [| discriminate Ef | now apply int_scaled_not_exited in Ets].
  destruct (textbbox text (choose_font ts)) as [[[x0 y0] x1] y1].
  destruct (ww <? x1 - x0); [| discriminate Ef].
  destruct (Py.truediv ww (x1 - x0)) as [ratio | e | c0] eqn:Er;
    simpl in Ef; [| discriminate Ef | now apply truediv_not_exited in Er].
  unfold Py.int_mul_float in Ef.
  destruct (Py.float_of_int ts) as [x | e | c0] eqn:Ex; simpl in Ef;
    [| discriminate Ef | now apply float_of_int_not_exited in Ex].
  destruct (Py.int_of_float _) as [v | e | c0] eqn:Ei; simpl in Ef;
    [| discriminate Ef | now apply int_of_float_not_exited in Ei].
  destruct (textbbox text _) as [[[a0 b0] a1] b1]. discriminate Ef.
Qed.

Lemma paste_not_exited (dst src : Image) (box : Z * Z) (mask : option Image) (c : Z) :
  paste dst src box mask <> Exited c.
Proof.
  unfold paste. destruct box as [x y]. destruct mask as [m |]; [| discriminate].
  destruct (negb _); [discriminate |]. destruct (negb _); discriminate.
Qed.

Lemma outcome_bind_exited {A B} (m : outcome A) (k : A -> outcome B) (c : Z) :
  m ≫= k = Exited c -> m = Exited c \/ exists a, m = Returned a /\ k a = Exited c.
Proof.
  destruct m; simpl; intros E; try discriminate E; [right; eauto | left; now injection E as ->].
Qed.

Lemma draw_watermark_not_exited (logo_image : Image) (ww c : Z) :
  draw_watermark logo_image ww <> Exited c.
Proof.
  unfold draw_watermark. intros Ec.
  apply outcome_bind_exited in Ec as [Ec | ([[f tw] th] & _ & Ec)];
    [now apply fit_text_not_exited in Ec |].
  cbv beta iota zeta in Ec.
  apply outcome_bind_exited in Ec as [Ec | (pd & _ & Ec)];
    [now apply int_scaled_not_exited in Ec |].
  apply outcome_bind_exited in Ec as [Ec | (sp & _ & Ec)];
    [now apply int_scaled_not_exited in Ec |].
  apply outcome_bind_exited in Ec as [Ec | (blank & _ & Ec)].
  { unfold Image_new in Ec. destruct (_ || _); discriminate Ec. }
  apply outcome_bind_exited in Ec as [Ec | (pasted & _ & Ec)];
    [now apply paste_not_exited in Ec | discriminate Ec].
Qed.

(** How [create_watermark] can end, and the world it leaves. *)
Lemma create_watermark_ends (logo_path : path) (image_width : Z) (opacity : float)
      (w : world) :
  (exists wm, create_watermark logo_path image_width opacity w = (Returned wm, w)) \/
  (exists e, create_watermark logo_path image_width opacity w = (Raised e, w)) \/
  (exists e, create_watermark logo_path image_width opacity w
             = (Exited 1, mkWorld (files w)
                            (stdout w ++ ["Error loading logo: " +:+ exn_str e]))).
Proof.
  pose proof (create_watermark_cases logo_path image_width opacity w) as Hc.
  destruct (int_scaled image_width 0.20) as [ww | e | c] eqn:Ew;
    [| right; left; eauto | now apply int_scaled_not_exited in Ew].
  destruct (load_logo logo_path ww w) as [[logo_image | e | c] w1] eqn:El.
  - rewrite Hc.
    destruct (draw_watermark logo_image ww) as [cv | e | c] eqn:Ec; simpl.
    + destruct (apply_opacity cv opacity) as [wm | e | c] eqn:Ea.
      * left. eauto.
      * right. left. eauto.
      * now apply apply_opacity_not_exited in Ea.
    + right. left. eauto.
    + now apply draw_watermark_not_exited in Ec.
  - right. right. eauto.
  - now apply load_logo_not_exited in El.
Qed.

(** With no room for the logo, scaling it raises, whatever the logo. *)
Lemma scale_logo_no_room (logo_image : Image) (ww : Z) :
  int_scaled ww 0.8 = Returned 0 -> exists e, scale_logo logo_image ww = Raised e.
Proof.
  intros Hzero. unfold scale_logo.
  destruct (Py.truediv _ _) as [aspect | e | c] eqn:Et; simpl;
    [| eauto | now apply truediv_not_exited in Et].
  assert (Hne : height (ensure_rgba logo_image) <> 0).
  { intros E0. unfold Py.truediv in Et. rewrite E0 in Et. discriminate Et. }
  rewrite Hzero. simpl.
  unfold Py.int_div_float. change (Py.float_of_int 0) with (Returned 0%float).
  simpl. destruct (is_zero aspect); simpl; [eauto |].
  destruct (Py.int_of_float (0 / aspect)) as [v | e | c] eqn:Ei; simpl;
    [| eauto | now apply int_of_float_not_exited in Ei].
  apply int_of_zero_quotient in Ei as ->.
  unfold resize.
  replace (height (ensure_rgba logo_image) =? 0) with false
    by (symmetry; now apply Z.eqb_neq).
  rewrite andb_false_r. simpl. eauto.
Qed.

Lemma create_watermark_narrow (logo_path : path) (image_width : Z) (opacity : float)
      (w : world) :
  0 <= image_width < 10 ->
  exists e, create_watermark logo_path image_width opacity w
            = (Exited 1, mkWorld (files w)
                           (stdout w ++ ["Error loading logo: " +:+ exn_str e])).
Proof.
  intros Hr. destruct (narrow_image_no_logo image_width Hr) as (ww & Eww & Ez).
  pose proof (create_watermark_cases logo_path image_width opacity w) as Hc.
  rewrite Eww in Hc.
  assert (Hl : exists e, load_logo logo_path ww w = (Raised e, w)).
  { unfold load_logo.
    destruct (Image_open logo_path w) as [[im | e | c] w1] eqn:Eo;
      pose proof (Image_open_world _ _ _ _ Eo) as ->.
    - rewrite (bind_returned _ _ _ _ _ Eo).
      destruct (scale_logo_no_room im ww Ez) as [e Ee].
      exists e. unfold lift. now rewrite Ee.
    - exists e. now apply bind_raised.
    - now apply Image_open_not_exited in Eo. }
  destruct Hl as [e El]. rewrite El in Hc. eauto.
Qed.

End Watermark.

(** X9. [create_watermark] writes no file.  It ends in one of three
    ways: it returns or raises and leaves the world as it was, console
    included; or it leaves through [sys.exit], always with status 1 and
    after printing the one line that says the logo could not be
    loaded. *)
Theorem create_watermark_effects `{Pillow} (logo_path : path) (image_width : Z)
        (opacity : float) (w : world) :
  let r := create_watermark logo_path image_width opacity w in
  files (snd r) = files w /\
  ((forall c, fst r <> Exited c) -> snd r = w) /\
  (forall c, fst r = Exited c ->
     c = 1 /\
     exists e, stdout (snd r) = stdout w ++ ["Error loading logo: " +:+ exn_str e]).
Proof.
  cbv zeta.
  destruct (create_watermark_ends logo_path image_width opacity w)
    as [[wm ->] | [[e ->] | [e ->]]]; simpl.
  - split; [reflexivity |]. split; [reflexivity | discriminate].
  - split; [reflexivity |]. split; [reflexivity | discriminate].
  - split; [reflexivity |]. split.
    + intros Hn. now elim (Hn 1).
    + intros c [= <-]. split; [reflexivity | eauto].
Qed.

(** X10. An image less than 10 pixels wide leaves no room for the logo:
    the logo would be scaled to width 0, so [create_watermark] ends in
    [sys.exit(1)] for every logo file, readable or not, and processing
    such an image ends the batch before any file is written. *)
Theorem narrow_image_exits `{Pillow} (image_path logo_path : path) (opacity : float)
        (image_width T : Z) (w : world) :
  0 <= image_width < 10 ->
  (exists e, create_watermark logo_path image_width opacity w
             = (Exited 1, mkWorld (files w)
                            (stdout w ++ ["Error loading logo: " +:+ exn_str e]))) /\
  (forall raw image,
     Image_open image_path w = (Returned raw, w) ->
     normalize raw = Returned image -> width image = image_width ->
     exists e, process_image image_path logo_path T w
               = (Exited 1, mkWorld (files w)
                              (stdout w ++ ["Error loading logo: " +:+ exn_str e]))).
Proof.
  intros Hr. split; [now apply create_watermark_narrow |].
  intros raw image Eo En Hw.
  destruct (create_watermark_narrow logo_path image_width 0.55 w Hr) as [e Hc].
  exists e. unfold process_image. apply try_except_exited.
  unfold process_image_body. apply bind_exited. unfold watermark_original.
  rewrite (bind_returned _ _ _ _ _ Eo). rewrite lift_bind, En, Hw.
  now apply bind_exited.
Qed.

Lemma narrow_image_exits_witness :
  exists e, @create_watermark Plain.pillow ["no-such-logo.png"] 9 0.55 Demo.world0
            = (Exited 1, mkWorld (files Demo.world0)
                           (stdout Demo.world0
                            ++ ["Error loading logo: " +:+ exn_str e])).
Proof.
  exact (proj1 (@narrow_image_exits Plain.pillow [] ["no-such-logo.png"] 0.55 9 400
                  Demo.world0 ltac:(lia))).
Defined.

(** X11. A thumbnail width from 0 to 9 never gives a thumbnail: the
    second half of [process_image] writes no file, and it ends in an
    exception (the world left as it was) or, once the image is resized,
    in [sys.exit(1)] from the watermark of the thumbnail. *)
Theorem small_thumbnail_width_no_thumbnail `{Pillow} (image : Image)
        (image_path logo_path : path) (T : Z) (w : world) :
  0 <= T < 10 ->
  (exists e, generate_thumbnail image image_path logo_path T w = (Raised e, w)) \/
  (exists e, generate_thumbnail image image_path logo_path T w
             = (Exited 1, mkWorld (files w)
                            (stdout w ++ ["Error loading logo: " +:+ exn_str e]))).
Proof.
  intros Hr. unfold generate_thumbnail. rewrite lift_bind.
  destruct (thumbnail_height_of T image) as [th | e | c] eqn:Eh; [| left; eauto |].
  - rewrite lift_bind.
    destruct (resize image (T, th)) as [thumbnail | e | c] eqn:Es; [| left; eauto |].
    + apply resize_size in Es as [Hw _].
      destruct (create_watermark_narrow logo_path (width thumbnail) 0.55 w
                  ltac:(lia)) as [e Hc].
      right. exists e. now apply bind_exited.
    + now apply resize_not_exited in Es.
  - exfalso. unfold thumbnail_height_of in Eh.
    destruct (Py.truediv _ _) as [a | e | c0] eqn:Et; simpl in Eh;
      [| discriminate Eh | now apply truediv_not_exited in Et].
    now apply int_scaled_not_exited in Eh.
Qed.

Lemma small_thumbnail_width_no_thumbnail_witness :
  (exists e, @generate_thumbnail Plain.pillow (Demo.photo 100 29) Demo.a_png
               Demo.logo_png 9 Demo.world0 = (Raised e, Demo.world0)) \/
  (exists e, @generate_thumbnail Plain.pillow (Demo.photo 100 29) Demo.a_png
               Demo.logo_png 9 Demo.world0
             = (Exited 1, mkWorld (files Demo.world0)
                            (stdout Demo.world0
                             ++ ["Error loading logo: " +:+ exn_str e]))).
Proof.
  apply (@small_thumbnail_width_no_thumbnail Plain.pillow (Demo.photo 100 29)
           Demo.a_png Demo.logo_png 9 Demo.world0).
  lia.
Defined.

(** * How the processing of a file ends *)

Section Ends.
Context `{Pillow}.

Lemma normalize_not_exited (image : Image) (c : Z) : normalize image <> Exited c.
Proof.
  unfold normalize. destruct (_ || _).
  - intros E. apply outcome_bind_exited in E as [E | (rgb & _ & E)].
    + unfold Image_new, size in E. destruct (_ || _); discriminate E.
    + now apply paste_not_exited in E.
  - destruct (negb _); discriminate.
Qed.

Lemma apply_watermark_not_exited (image wm : Image) (position : string)
      (padding c : Z) :
  apply_watermark image wm position padding <> Exited c.
Proof. rewrite apply_watermark_paste. apply paste_not_exited. Qed.

Lemma flatten_for_not_exited (p : path) (im : Image) (c : Z) :
  flatten_for p im <> Exited c.
Proof.
  unfold flatten_for. destruct (is_jpeg_suffix _); [| discriminate].
  destruct (String.eqb _ _); [| discriminate].
  intros E. apply outcome_bind_exited in E as [E | (rgb & _ & E)].
  - unfold Image_new, size in E. destruct (_ || _); discriminate E.
  - now apply paste_not_exited in E.
Qed.

Lemma thumbnail_height_of_not_exited (T : Z) (image : Image) (c : Z) :
  thumbnail_height_of T image <> Exited c.
Proof.
  unfold thumbnail_height_of. intros E.
  apply outcome_bind_exited in E as [E | (a & _ & E)].
  - now apply truediv_not_exited in E.
  - now apply int_scaled_not_exited in E.
Qed.

(** The first half ends in one of three ways: the original is
    overwritten and the line printed; an exception, the world as it was;
    or [sys.exit(1)] from the watermark, before anything is written. *)
Lemma watermark_original_ends (p lp : path) (w : world) :
  (exists image fmt wi,
     watermark_original p lp w
     = (Returned image,
        mkWorld (<[p := File (Encoded fmt 95 wi)]> (files w))
                (stdout w ++ [watermarked_line p]))) \/
  (exists e, watermark_original p lp w = (Raised e, w)) \/
  (exists e, watermark_original p lp w
             = (Exited 1, mkWorld (files w)
                            (stdout w ++ ["Error loading logo: " +:+ exn_str e]))).
Proof.
  unfold watermark_original.
  destruct (Image_open p w) as [[raw | e | c] w0] eqn:Eo;
    pose proof (Image_open_world _ _ _ _ Eo) as ->.
  2:{ right. left. exists e. now apply bind_raised. }
  2:{ now apply Image_open_not_exited in Eo. }
  rewrite (bind_returned _ _ _ _ _ Eo). cbv beta. rewrite lift_bind.
  destruct (normalize raw) as [image | e | c] eqn:En.
  2:{ right. left. eauto. }
  2:{ now apply normalize_not_exited in En. }
  destruct (create_watermark_ends lp (width image) 0.55 w)
    as [[wm Hc] | [[e Hc] | [e Hc]]].
  2:{ right. left. exists e. now apply bind_raised. }
  2:{ right. right. exists e. now apply bind_exited. }
  rewrite (bind_returned _ _ _ _ _ Hc). cbv beta. rewrite lift_bind.
  destruct (apply_watermark image wm "top_right" 20) as [wi | e | c] eqn:Ea.
  2:{ right. left. eauto. }
  2:{ now apply apply_watermark_not_exited in Ea. }
  rewrite lift_bind.
  destruct (flatten_for p wi) as [wi' | e | c] eqn:Ef.
  2:{ right. left. eauto. }
  2:{ now apply flatten_for_not_exited in Ef. }
  destruct (save wi' p 95 w) as [[[] | e | c] w2] eqn:Es.
  - pose proof (save_returned _ _ _ _ _ Es) as [fmt ->].
    rewrite (bind_returned _ _ _ _ _ Es). left. exists image, fmt, wi'. reflexivity.
  - pose proof (save_raised _ _ _ _ _ _ Es) as ->.
    right. left. exists e. now apply bind_raised.
  - now apply save_not_exited in Es.
Qed.

(** So does the second half. *)
Lemma generate_thumbnail_ends (image : Image) (p lp : path) (T : Z) (w : world) :
  (exists fmt wt,
     generate_thumbnail image p lp T w
     = (Returned tt,
        mkWorld (<[thumbnail_path_of p := File (Encoded fmt 90 wt)]> (files w))
                (stdout w ++ [thumbnail_line (thumbnail_path_of p)]))) \/
  (exists e, generate_thumbnail image p lp T w = (Raised e, w)) \/
  (exists e, generate_thumbnail image p lp T w
             = (Exited 1, mkWorld (files w)
                            (stdout w ++ ["Error loading logo: " +:+ exn_str e]))).
Proof.
  unfold generate_thumbnail. rewrite lift_bind.
  destruct (thumbnail_height_of T image) as [th | e | c] eqn:Eh.
  2:{ right. left. eauto. }
  2:{ now apply thumbnail_height_of_not_exited in Eh. }
  rewrite lift_bind.
  destruct (resize image (T, th)) as [thumbnail | e | c] eqn:Er.
  2:{ right. left. eauto. }
  2:{ now apply resize_not_exited in Er. }
  destruct (create_watermark_ends lp (width thumbnail) 0.55 w)
    as [[wm Hc] | [[e Hc] | [e Hc]]].
  2:{ right. left. exists e. now apply bind_raised. }
  2:{ right. right. exists e. now apply bind_exited. }
  rewrite (bind_returned _ _ _ _ _ Hc). cbv beta. rewrite lift_bind.
  destruct (apply_watermark thumbnail wm "top_right" 10) as [wt | e | c] eqn:Ea.
  2:{ right. left. eauto. }
  2:{ now apply apply_watermark_not_exited in Ea. }
  cbv zeta. rewrite lift_bind.
  destruct (flatten_for (thumbnail_path_of p) wt) as [wt' | e | c] eqn:Ef.
  2:{ right. left. eauto. }
  2:{ now apply flatten_for_not_exited in Ef. }
  destruct (save wt' (thumbnail_path_of p) 90 w) as [[[] | e | c] w2] eqn:Es.
  - pose proof (save_returned _ _ _ _ _ Es) as [fmt ->].
    rewrite (bind_returned _ _ _ _ _ Es). left. exists fmt, wt'. reflexivity.
  - pose proof (save_raised _ _ _ _ _ _ Es) as ->.
    right. left. exists e. now apply bind_raised.
  - now apply save_not_exited in Es.
Qed.

(** The five ways [process_image] ends. *)
Lemma process_image_ends (p lp : path) (T : Z) (w : world) :
  (exists fmt wi fmt' wt,
     process_image p lp T w
     = (Returned tt,
        mkWorld (<[thumbnail_path_of p := File (Encoded fmt' 90 wt)]>
                   (<[p := File (Encoded fmt 95 wi)]> (files w)))
                (stdout w ++ [watermarked_line p;
                              thumbnail_line (thumbnail_path_of p)]))) \/
  (exists e,
     process_image p lp T w
     = (Returned tt, mkWorld (files w) (stdout w ++ [error_line p e]))) \/
  (exists e fmt wi,
     process_image p lp T w
     = (Returned tt,
        mkWorld (<[p := File (Encoded fmt 95 wi)]> (files w))
                (stdout w ++ [watermarked_line p; error_line p e]))) \/
  (exists e,
     process_image p lp T w
     = (Exited 1, mkWorld (files w)
                    (stdout w ++ ["Error loading logo: " +:+ exn_str e]))) \/
  (exists e fmt wi,
     process_image p lp T w
     = (Exited 1,
        mkWorld (<[p := File (Encoded fmt 95 wi)]> (files w))
                (stdout w ++ [watermarked_line p;
                              "Error loading logo: " +:+ exn_str e]))).
Proof.
  destruct (watermark_original_ends p lp w)
    as [(image & fmt & wi & Ho) | [[e Ho] | [e Ho]]].
  - destruct (generate_thumbnail_ends image p lp T
                (mkWorld (<[p := File (Encoded fmt 95 wi)]> (files w))
                         (stdout w ++ [watermarked_line p])))
      as [(fmt' & wt & Hg) | [[e Hg] | [e Hg]]]; simpl in Hg;
      rewrite <- ?app_assoc in Hg; simpl in Hg.
    + left. exists fmt, wi, fmt', wt. unfold process_image.
      apply try_except_returned. unfold process_image_body.
      now rewrite (bind_returned _ _ _ _ _ Ho).
    + right. right. left. exists e, fmt, wi. unfold process_image.
      assert (Hb : process_image_body p lp T w
                   = (Raised e, mkWorld (<[p := File (Encoded fmt 95 wi)]> (files w))
                                        (stdout w ++ [watermarked_line p]))).
      { unfold process_image_body. now rewrite (bind_returned _ _ _ _ _ Ho). }
      rewrite (try_except_raised _ _ _ _ _ Hb). unfold print. simpl.
      now rewrite <- app_assoc.
    + right. right. right. right. exists e, fmt, wi. unfold process_image.
      apply try_except_exited. unfold process_image_body.
      now rewrite (bind_returned _ _ _ _ _ Ho).
  - right. left. exists e. unfold process_image.
    assert (Hb : process_image_body p lp T w = (Raised e, w)).
    { unfold process_image_body. now apply bind_raised. }
    now rewrite (try_except_raised _ _ _ _ _ Hb).
  - right. right. right. left. exists e. unfold process_image.
    apply try_except_exited. unfold process_image_body. now apply bind_exited.
Qed.

End Ends.

(** X12. What the processing of one file shows on the console.
    [process_image] ends in one of five ways and in no other: it
    returns after the two success lines; it returns after one error
    line, no file written; it returns after the success line of the
    original and an error line, the original overwritten and no
    thumbnail; or it leaves through [sys.exit(1)] after the line about
    the logo, before anything is written or with the original already
    overwritten.  It never raises, and never exits with another
    status. *)
Theorem console_lines_per_file `{Pillow} (p lp : path) (T : Z) (w : world) :
  let r := process_image p lp T w in
  let wrote := watermarked_line p in
  let logo_line e := "Error loading logo: " +:+ exn_str e in
  (fst r = Returned tt /\
   stdout (snd r) = stdout w ++ [wrote; thumbnail_line (thumbnail_path_of p)] /\
   is_Some (files (snd r) !! p) /\
   is_Some (files (snd r) !! thumbnail_path_of p)) \/
  (exists e, fst r = Returned tt /\
   stdout (snd r) = stdout w ++ [error_line p e] /\ files (snd r) = files w) \/
  (exists e, fst r = Returned tt /\
   stdout (snd r) = stdout w ++ [wrote; error_line p e] /\
   is_Some (files (snd r) !! p) /\
   files (snd r) !! thumbnail_path_of p = files w !! thumbnail_path_of p) \/
  (exists e, fst r = Exited 1 /\
   stdout (snd r) = stdout w ++ [logo_line e] /\ files (snd r) = files w) \/
  (exists e, fst r = Exited 1 /\
   stdout (snd r) = stdout w ++ [wrote; logo_line e] /\
   is_Some (files (snd r) !! p) /\
   files (snd r) !! thumbnail_path_of p = files w !! thumbnail_path_of p).
Proof.
  cbv zeta.
  assert (Hne : p <> thumbnail_path_of p).
  { intros E. now apply (thumbnail_differs p). }
  destruct (process_image_ends p lp T w)
    as [(fmt & wi & fmt' & wt & ->) | [[e ->] | [(e & fmt & wi & ->) |
        [[e ->] | (e & fmt & wi & ->)]]]]; simpl.
  - left. split; [reflexivity |]. split; [reflexivity |]. split.
    + rewrite lookup_insert_ne by congruence. rewrite lookup_insert_eq. eauto.
    + rewrite lookup_insert_eq. eauto.
  - right. left. exists e. auto.
  - right. right. left. exists e. split; [reflexivity |]. split; [reflexivity |].
    split; [rewrite lookup_insert_eq; eauto | now rewrite lookup_insert_ne].
  - right. right. right. left. exists e. auto.
  - right. right. right. right. exists e. split; [reflexivity |].
    split; [reflexivity |].
    split; [rewrite lookup_insert_eq; eauto | now rewrite lookup_insert_ne].
Qed.

(** X13. A path that cannot be opened as an image (no such file, a
    directory whose name ends in an image extension, or a file Pillow
    does not identify) costs one error line: [process_image] returns,
    no file is changed, and the loop goes on with the next file. *)
Theorem unreadable_image_reported `{Pillow} (p lp : path) (T : Z) (w : world) :
  files w !! p = None \/ files w !! p = Some Directory \/
  files w !! p = Some (File Unidentified) ->
  exists e,
    process_image p lp T w
    = (Returned tt, mkWorld (files w) (stdout w ++ [error_line p e])) /\
    forall total i rest,
      process_all total i (p :: rest) lp T w
      = process_all total (S i) rest lp T
          (mkWorld (files w)
                   (stdout w ++ [progress_line total i p; error_line p e])).
Proof.
  intros Hf.
  assert (Ho : exists e, forall out, Image_open p (mkWorld (files w) out)
                                     = (Raised e, mkWorld (files w) out)).
  { unfold Image_open. simpl.
    destruct Hf as [-> | [-> | ->]]; eexists; intros out; reflexivity. }
  destruct Ho as [e Ho]. exists e.
  assert (Hp : forall out, process_image p lp T (mkWorld (files w) out)
                 = (Returned tt, mkWorld (files w) (out ++ [error_line p e]))).
  { intros out. unfold process_image.
    assert (Hb : process_image_body p lp T (mkWorld (files w) out)
                 = (Raised e, mkWorld (files w) out)).
    { unfold process_image_body. apply bind_raised. unfold watermark_original.
      apply bind_raised. apply Ho. }
    now rewrite (try_except_raised _ _ _ _ _ Hb). }
  split.
  - specialize (Hp (stdout w)). now destruct w.
  - intros total i rest. rewrite process_all_cons.
    rewrite (bind_returned _ _ _ _ _ (Hp _)). cbv beta.
    now rewrite <- app_assoc.
Qed.

Lemma unreadable_image_reported_witness :
  exists e,
    @process_image Plain.pillow Demo.bad_png Demo.logo_png 400 Demo.world0
    = (Returned tt, mkWorld (files Demo.world0)
                      (stdout Demo.world0 ++ [error_line Demo.bad_png e])).
Proof.
  destruct (@unreadable_image_reported Plain.pillow Demo.bad_png Demo.logo_png 400
              Demo.world0 ltac:(right; right; vm_compute; reflexivity)) as [e [He _]].
  exists e. exact He.
Defined.

(** * Footprints *)

Section Footprints.
Context `{Pillow}.




Lemma grows_print (keep : list path) (w : world) (lines : list string) :
  grows keep w (mkWorld (files w) (stdout w ++ lines)).
Proof. repeat split; simpl; eauto. Qed.

Lemma grows_insert (keep : list path) (w : world) (p : path) (n : node)
      (lines : list string) :
  In p keep -> grows keep w (mkWorld (<[p := n]> (files w)) (stdout w ++ lines)).
Proof.
  intros Hp. repeat split; simpl; eauto.
  - intros q Hq. apply lookup_insert_ne. congruence.
  - intros q Hq. apply lookup_insert_is_Some.
    destruct (decide (p = q)); auto.
Qed.

Lemma footprint_process_image (p lp : path) (T : Z) :
  footprint [p; thumbnail_path_of p] (process_image p lp T).
Proof.
  intros w.
  destruct (process_image_ends p lp T w)
    as [(fmt & wi & fmt' & wt & ->) | [[e ->] | [(e & fmt & wi & ->) |
        [[e ->] | (e & fmt & wi & ->)]]]]; cbn [snd].
  - split; [| split]; simpl.
    + intros q Hq. rewrite !lookup_insert_ne; [reflexivity | |];
        intros <-; apply Hq; simpl; auto.
    + intros q Hq. apply lookup_insert_is_Some.
      destruct (decide (thumbnail_path_of p = q)); [auto |].
      right. split; [assumption |]. apply lookup_insert_is_Some.
      destruct (decide (p = q)); auto.
    + eauto.
  - apply grows_print.
  - apply grows_insert. now left.
  - apply grows_print.
  - apply grows_insert. now left.
Qed.



End Footprints.


(** * The opacity step *)

Section OpacityTables.

Lemma full_table :
  tabulate (fun p => int_scaled p 1%float) 256
  = Returned (map Z.of_nat (seq 0 256)).
Proof. vm_compute. reflexivity. Qed.

Lemma zero_table :
  tabulate (fun p => int_scaled p 0%float) 256 = Returned (repeat 0 256).
Proof. vm_compute. reflexivity. Qed.

Lemma nth_identity (a : Z) :
  0 <= a <= 255 -> nth (Z.to_nat a) (map Z.of_nat (seq 0 256)) 0 = a.
Proof.
  intros Ha. change 0 with (Z.of_nat 0) at 1.
  rewrite map_nth, seq_nth by lia. lia.
Qed.

End OpacityTables.

(** X15. The two ends of the opacity scale, and what the step never
    touches.  With opacity 1.0 the watermark keeps every alpha byte; with
    opacity 0.0 every pixel becomes fully transparent; and for every
    opacity the mode, the size and the three colour bytes of every pixel
    are those of the canvas. *)
Theorem opacity_extremes `{Pillow} (wm : Image) :
  (exists r, apply_opacity wm 1%float = Returned r /\
     forall i j, 0 <= alpha_of (pix wm i j) <= 255 -> pix r i j = pix wm i j) /\
  (exists r, apply_opacity wm 0%float = Returned r /\
     forall i j, alpha_of (pix r i j) = 0) /\
  (forall opacity r, apply_opacity wm opacity = Returned r ->
     mode r = mode wm /\ size r = size wm /\
     forall i j, band 0 (pix r i j) = band 0 (pix wm i j) /\
                 band 1 (pix r i j) = band 1 (pix wm i j) /\
                 band 2 (pix r i j) = band 2 (pix wm i j)).
Proof.
  split; [| split].
  - unfold apply_opacity, point. rewrite full_table.
    remember (map Z.of_nat (seq 0 256)) as lut eqn:Hl.
    eexists. split; [reflexivity |].
    intros i j Ha. cbn [pix putalpha alpha_band band].
    destruct (pix wm i j) as [[[r g] b] a]. cbn [alpha_of band set_alpha] in *.
    rewrite Hl, nth_identity by exact Ha. reflexivity.
  - unfold apply_opacity, point. rewrite zero_table.
    remember (repeat 0 256) as lut eqn:Hl.
    eexists. split; [reflexivity |].
    intros i j. cbn [pix putalpha alpha_band band].
    destruct (pix wm i j) as [[[r g] b] a]. cbn [alpha_of band set_alpha].
    rewrite Hl. apply nth_repeat.
  - intros opacity r E. unfold apply_opacity, point in E.
    apply outcome_bind_inv in E as (alpha & Ea & E). injection E as <-.
    apply outcome_bind_inv in Ea as (lut & _ & Ea). injection Ea as <-.
    split; [reflexivity |]. split; [reflexivity |].
    intros i j. cbn [pix putalpha alpha_band].
    destruct (pix wm i j) as [[[r g] b] a]. cbn [set_alpha band]. auto.
Qed.

(** * The shape of the watermark *)

Section Shape.
Context `{Pillow}.

Lemma draw_watermark_shape (logo_image : Image) (ww : Z) (canvas : Image) :
  draw_watermark logo_image ww = Returned canvas ->
  exists f tw th padding spacing,
    fit_text ww = Returned (f, tw, th) /\
    int_scaled ww 0.1 = Returned padding /\
    int_scaled ww 0.05 = Returned spacing /\
    mode canvas = "RGBA" /\
    width canvas = Z.max (width logo_image) tw + padding * 2 /\
    height canvas = height logo_image + spacing + th + padding * 2.
Proof.
  unfold draw_watermark. intros Ed.
  apply outcome_bind_inv in Ed as ([[f tw] th] & Ef & Ed).
  apply outcome_bind_inv in Ed as (padding & Ep & Ed).
  apply outcome_bind_inv in Ed as (spacing & Es & Ed).
  apply outcome_bind_inv in Ed as (blank & Eb & Ed).
  apply outcome_bind_inv in Ed as (pasted & Epa & Ed).
  injection Ed as <-. cbn [mode width height].
  apply paste_size in Epa as (Hw & Hh & Hm).
  apply Image_new_size in Eb as (Hw' & Hh' & Hm').
  exists f, tw, th, padding, spacing. repeat split; try assumption; congruence.
Qed.

Lemma scale_logo_shape (raw : Image) (ww : Z) (logo_image : Image) :
  scale_logo raw ww = Returned logo_image ->
  exists lw, int_scaled ww 0.8 = Returned lw /\ width logo_image = lw /\
             mode logo_image = "RGBA".
Proof.
  unfold scale_logo. intros E.
  apply outcome_bind_inv in E as (aspect & _ & E).
  apply outcome_bind_inv in E as (lw & Elw & E).
  apply outcome_bind_inv in E as (q & _ & E).
  apply outcome_bind_inv in E as (lh & _ & E).
  exists lw. split; [exact Elw |].
  pose proof (resize_size _ _ _ _ E) as [Hw _]. split; [exact Hw |].
  unfold resize in E. destruct (_ && _).
  - injection E as <-. apply ensure_rgba_mode.
  - destruct (_ || _); [discriminate E |]. injection E as <-.
    cbn [mode]. apply ensure_rgba_mode.
Qed.

Lemma load_logo_returned (lp : path) (ww : Z) (w w' : world) (logo_image : Image) :
  load_logo lp ww w = (Returned logo_image, w') ->
  exists raw, Image_open lp w = (Returned raw, w) /\
              scale_logo raw ww = Returned logo_image.
Proof.
  unfold load_logo. intros E.
  apply bind_returned_inv in E as (raw & s & Eo & E).
  pose proof (Image_open_world _ _ _ _ Eo) as ->.
  unfold lift in E. injection E as E _. eauto.
Qed.

Lemma apply_watermark_mode (image wm r : Image) (position : string) (padding : Z) :
  apply_watermark image wm position padding = Returned r -> mode r = "RGBA".
Proof.
  rewrite apply_watermark_paste. intros E.
  apply paste_size in E as (_ & _ & ->). apply ensure_rgba_mode.
Qed.

End Shape.

(** X16. The two stages fit: every watermark [create_watermark] returns
    is an RGBA bitmap, so [apply_watermark] composites it onto every
    image, at every position and padding, without raising, and the
    result has the size of the image. *)
Theorem watermark_always_applies `{Pillow} (logo_path : path) (image_width : Z)
        (opacity : float) (w w' : world) (wm : Image) :
  create_watermark logo_path image_width opacity w = (Returned wm, w') ->
  mode wm = "RGBA" /\
  forall image position padding,
    exists r, apply_watermark image wm position padding = Returned r /\
              mode r = "RGBA" /\ size r = size image.
Proof.
  intros E.
  apply create_watermark_returned in E as (_ & ww & logo_image & canvas & _ & _ & Ed & Ea).
  assert (Hm : mode wm = "RGBA").
  { destruct (apply_opacity_pixel _ _ _ Ea) as (-> & _).
    now destruct (draw_watermark_shape _ _ _ Ed)
      as (f & tw & th & pd & sp & _ & _ & _ & Hm & _). }
  split; [exact Hm |]. intros image position padding.
  rewrite apply_watermark_paste.
  rewrite paste_self_mask by (apply ensure_rgba_mode || exact Hm).
  eexists. split; [reflexivity |]. split; [reflexivity |].
  unfold size. cbn [width height]. now destruct (ensure_rgba_size image) as [-> ->].
Qed.

Lemma watermark_always_applies_witness :
  exists wm r,
    fst (@create_watermark Plain.pillow Demo.logo_png 1600 0.55 Demo.world0)
    = Returned wm /\
    @apply_watermark Plain.pillow (Demo.photo 1600 1000) wm "top_right" 20
    = Returned r.
Proof.
  destruct (@create_watermark Plain.pillow Demo.logo_png 1600 0.55 Demo.world0)
    as [o w'] eqn:E.
  assert (Ho : exists wm, o = Returned wm).
  { apply (f_equal fst) in E. simpl in E. rewrite <- E. vm_compute. eauto. }
  destruct Ho as [wm ->].
  destruct (@watermark_always_applies Plain.pillow Demo.logo_png 1600 0.55
              Demo.world0 w' wm E) as [_ Ha].
  destruct (Ha (Demo.photo 1600 1000) "top_right" 20) as (r & Hr & _).
  exists wm, r. split; [reflexivity | exact Hr].
Defined.

(** X17. The size of the watermark.  With [ww = int(image_width * 0.20)],
    the logo is scaled to the width [int(ww * 0.8)], and the bitmap
    [create_watermark] returns is as wide as the wider of the logo and
    the text plus [int(ww * 0.1)] on either side, and as high as the
    logo, [int(ww * 0.05)] of spacing, the text and the same padding
    above and below: pasting the logo, drawing the text and applying
    the opacity do not change the canvas. *)
Theorem watermark_canvas_size `{Pillow} (logo_path : path) (image_width : Z)
        (opacity : float) (w w' : world) (wm : Image) :
  create_watermark logo_path image_width opacity w = (Returned wm, w') ->
  exists ww logo_image f text_width text_height padding spacing,
    int_scaled image_width 0.20 = Returned ww /\
    load_logo logo_path ww w = (Returned logo_image, w) /\
    int_scaled ww 0.8 = Returned (width logo_image) /\
    fit_text ww = Returned (f, text_width, text_height) /\
    int_scaled ww 0.1 = Returned padding /\
    int_scaled ww 0.05 = Returned spacing /\
    width wm = Z.max (width logo_image) text_width + padding * 2 /\
    height wm = height logo_image + spacing + text_height + padding * 2.
Proof.
  intros E.
  apply create_watermark_returned in E
    as (_ & ww & logo_image & canvas & Eww & El & Ed & Ea).
  destruct (apply_opacity_pixel _ _ _ Ea) as (_ & Hw & Hh & _).
  destruct (draw_watermark_shape _ _ _ Ed)
    as (f & tw & th & pd & sp & Ef & Ep & Es & _ & Hcw & Hch).
  destruct (load_logo_returned _ _ _ _ _ El) as (raw & _ & Esc).
  destruct (scale_logo_shape _ _ _ Esc) as (lw & Elw & Hlw & _).
  exists ww, logo_image, f, tw, th, pd, sp.
  rewrite Hlw. repeat split; try assumption; congruence.
Qed.

Lemma watermark_canvas_size_witness :
  exists wm logo_image,
    fst (@create_watermark Plain.pillow Demo.logo_png 1600 0.55 Demo.world0)
    = Returned wm /\
    width wm = Z.max (width logo_image) 96 + 32 * 2 /\
    height wm = height logo_image + 16 + 11 + 32 * 2.
Proof.
  destruct (@create_watermark Plain.pillow Demo.logo_png 1600 0.55 Demo.world0)
    as [o w'] eqn:E.
  assert (Ho : exists wm, o = Returned wm).
  { apply (f_equal fst) in E. simpl in E. rewrite <- E. vm_compute. eauto. }
  destruct Ho as [wm ->].
  destruct (@watermark_canvas_size Plain.pillow Demo.logo_png 1600 0.55
              Demo.world0 w' wm E)
    as (ww & logo_image & f & tw & th & pd & sp & Eww & _ & _ & Ef & Ep & Es
        & Hw & Hh).
  vm_compute in Eww. injection Eww as <-.
  vm_compute in Ef. injection Ef as <- <- <-.
  vm_compute in Ep. injection Ep as <-.
  vm_compute in Es. injection Es as <-.
  exists wm, logo_image. split; [reflexivity |]. split; [exact Hw | exact Hh].
Defined.

(** * What is written, and in which format *)

Section Formats.
Context `{Pillow}.

Lemma format_cases (ext fmt : string) :
  format_of_extension ext = Some fmt ->
  (fmt = "JPEG" /\ (ext = ".jpg" \/ ext = ".jpeg")) \/ (fmt = "PNG" /\ ext = ".png").
Proof.
  unfold format_of_extension.
  destruct (String.eqb ext ".jpg") eqn:E1.
  - apply String.eqb_eq in E1. intros [= <-]. auto.
  - destruct (String.eqb ext ".jpeg") eqn:E2; simpl.
    + apply String.eqb_eq in E2. intros [= <-]. auto.
    + destruct (String.eqb ext ".png") eqn:E3; [| discriminate].
      apply String.eqb_eq in E3. intros [= <-]. auto.
Qed.

(** Where [os.path.splitext] and [PurePath.suffix] both find an
    extension, it is the same one. *)
Lemma splitext_suffix (n : string) :
  splitext_ext n <> "" -> PurePath.suffix_of_name n <> "" ->
  splitext_ext n = PurePath.suffix_of_name n.
Proof.
  unfold splitext_ext, PurePath.suffix_of_name.
  destruct (Str.rfind_dot n) as [i |]; [| congruence].
  destruct (all_dots n i); [congruence |].
  destruct (_ && _); congruence.
Qed.

Lemma save_inv (im : Image) (p : path) (q : Z) (w w' : world) :
  save im p q w = (Returned tt, w') ->
  exists fmt,
    format_of_extension (Str.lower (splitext_ext (PurePath.name p))) = Some fmt /\
    writable_mode fmt (mode im) = true /\
    w' = mkWorld (<[p := File (Encoded fmt q im)]> (files w)) (stdout w).
Proof.
  unfold save.
  destruct (format_of_extension _) as [fmt |]; [| discriminate].
  destruct (writable_mode fmt (mode im)) eqn:Ew; simpl; [| discriminate].
  destruct (files w !! p) as [[| c] |]; try discriminate;
    intros [= <-]; exists fmt; auto.
Qed.

(** An RGBA image flattened for a path and saved there: a JPEG holds an
    RGB image, a PNG the RGBA image. *)
Lemma flatten_then_save (p : path) (wi wi' : Image) (q : Z) (w w' : world) :
  mode wi = "RGBA" -> flatten_for p wi = Returned wi' ->
  save wi' p q w = (Returned tt, w') ->
  exists fmt,
    w' = mkWorld (<[p := File (Encoded fmt q wi')]> (files w)) (stdout w) /\
    ((is_jpeg_suffix (PurePath.suffix p) = true /\ fmt = "JPEG" /\ mode wi' = "RGB") \/
     (is_jpeg_suffix (PurePath.suffix p) = false /\ fmt = "PNG" /\
      mode wi' = "RGBA" /\ wi' = wi)).
Proof.
  intros Hm Ef Es. apply save_inv in Es as (fmt & Efmt & Ew & ->).
  exists fmt. split; [reflexivity |].
  unfold flatten_for in Ef.
  destruct (is_jpeg_suffix (PurePath.suffix p)) eqn:Ej.
  - left. split; [reflexivity |].
    assert (Hrgb : mode wi' = "RGB").
    { rewrite Hm in Ef. simpl String.eqb in Ef. cbv iota in Ef.
      apply outcome_bind_inv in Ef as (rgb & E1 & E2).
      unfold size in E1. apply Image_new_size in E1 as (_ & _ & Hr).
      apply paste_size in E2 as (_ & _ & ->). exact Hr. }
    split; [| exact Hrgb].
    apply format_cases in Efmt as [[-> _] | [_ Hpng]]; [reflexivity | exfalso].
    assert (Hs : splitext_ext (PurePath.name p) <> "").
    { intros E0. rewrite E0 in Hpng. discriminate Hpng. }
    assert (Hx : PurePath.suffix p <> "").
    { intros E0. rewrite E0 in Ej. discriminate Ej. }
    unfold PurePath.suffix in Hx, Ej.
    rewrite <- (splitext_suffix _ Hs Hx) in Ej.
    unfold is_jpeg_suffix in Ej. cbv zeta in Ej. rewrite Hpng in Ej.
    discriminate Ej.
  - right. split; [reflexivity |]. injection Ef as <-.
    apply format_cases in Efmt as [[-> _] | [-> _]].
    + rewrite Hm in Ew. discriminate Ew.
    + auto.
Qed.

Lemma watermark_original_saved (p lp : path) (w w1 : world) (image : Image) :
  watermark_original p lp w = (Returned image, w1) ->
  exists wm wi wi' w2,
    apply_watermark image wm "top_right" 20 = Returned wi /\
    flatten_for p wi = Returned wi' /\
    save wi' p 95 w = (Returned tt, w2) /\
    w1 = mkWorld (files w2) (stdout w2 ++ [watermarked_line p]).
Proof.
  unfold watermark_original. intros E.
  apply bind_returned_inv in E as (raw & s1 & E1 & E).
  pose proof (Image_open_world _ _ _ _ E1) as ->.
  apply lift_returned_inv in E as (im & E2 & E).
  apply bind_returned_inv in E as (wm & s3 & E3 & E).
  pose proof (create_watermark_returned _ _ _ _ _ _ E3) as [-> _].
  apply lift_returned_inv in E as (wi & E4 & E).
  apply lift_returned_inv in E as (wi' & E5 & E).
  apply bind_returned_inv in E as ([] & s6 & E6 & E).
  apply bind_returned_inv in E as ([] & s7 & E7 & E).
  unfold print in E7. injection E7 as <-.
  unfold mret, stateful_ret in E. injection E as <- <-.
  exists wm, wi, wi', s6. auto.
Qed.

Lemma generate_thumbnail_saved (image : Image) (p lp : path) (T : Z) (w w' : world) :
  generate_thumbnail image p lp T w = (Returned tt, w') ->
  exists thumbnail wm wt wt' w2,
    apply_watermark thumbnail wm "top_right" 10 = Returned wt /\
    flatten_for (thumbnail_path_of p) wt = Returned wt' /\
    save wt' (thumbnail_path_of p) 90 w = (Returned tt, w2) /\
    w' = mkWorld (files w2) (stdout w2 ++ [thumbnail_line (thumbnail_path_of p)]).
Proof.
  unfold generate_thumbnail. intros E.
  apply lift_returned_inv in E as (th & E1 & E).
  apply lift_returned_inv in E as (thumbnail & E2 & E).
  apply bind_returned_inv in E as (wm & s3 & E3 & E).
  pose proof (create_watermark_returned _ _ _ _ _ _ E3) as [-> _].
  apply lift_returned_inv in E as (wt & E4 & E).
  apply lift_returned_inv in E as (wt' & E5 & E).
  apply bind_returned_inv in E as ([] & s6 & E6 & E).
  unfold print in E. injection E as <-.
  exists thumbnail, wm, wt, wt', s6. auto.
Qed.

End Formats.

(** X18. What a completed [process_image] leaves on disk.  The original
    is rewritten at quality 95 and the thumbnail written at quality 90,
    each in the format of its extension; a file with a JPEG suffix holds
    an RGB image (the alpha flattened onto white), and every other file
    that could be saved is a PNG holding the RGBA image
    [apply_watermark] returned, so a PNG that was RGB becomes RGBA. *)
Theorem saved_formats `{Pillow} (p lp : path) (T : Z) (w w' : world) :
  process_image_body p lp T w = (Returned tt, w') ->
  exists fmt wi fmt' wt,
    files w' = <[thumbnail_path_of p := File (Encoded fmt' 90 wt)]>
                 (<[p := File (Encoded fmt 95 wi)]> (files w)) /\
    ((is_jpeg_suffix (PurePath.suffix p) = true /\ fmt = "JPEG" /\ mode wi = "RGB") \/
     (is_jpeg_suffix (PurePath.suffix p) = false /\ fmt = "PNG" /\ mode wi = "RGBA")) /\
    ((is_jpeg_suffix (PurePath.suffix (thumbnail_path_of p)) = true /\
      fmt' = "JPEG" /\ mode wt = "RGB") \/
     (is_jpeg_suffix (PurePath.suffix (thumbnail_path_of p)) = false /\
      fmt' = "PNG" /\ mode wt = "RGBA")).
Proof.
  intros E. apply process_image_body_returned in E as (image & w1 & Eo & Eg).
  apply watermark_original_saved in Eo as (wm & wi & wi' & w2 & Ea & Ef & Es & ->).
  apply generate_thumbnail_saved in Eg as (th & wm' & wt & wt' & w3 & Ea' & Ef' & Es' & ->).
  destruct (flatten_then_save _ _ _ _ _ _ (apply_watermark_mode _ _ _ _ _ Ea) Ef Es)
    as (fmt & -> & Hf).
  destruct (flatten_then_save _ _ _ _ _ _ (apply_watermark_mode _ _ _ _ _ Ea') Ef' Es')
    as (fmt' & -> & Hf').
  exists fmt, wi', fmt', wt'. split; [reflexivity |]. split.
  - destruct Hf as [Hf | (? & ? & ? & _)]; [left; exact Hf | right; auto].
  - destruct Hf' as [Hf' | (? & ? & ? & _)]; [left; exact Hf' | right; auto].
Qed.

Lemma saved_formats_witness :
  exists fmt wi fmt' wt,
    files (snd (@process_image_body Plain.pillow Demo.b_jpg Demo.logo_png 400
                  Demo.world0))
    = <[thumbnail_path_of Demo.b_jpg := File (Encoded fmt' 90 wt)]>
        (<[Demo.b_jpg := File (Encoded fmt 95 wi)]> (files Demo.world0)) /\
    fmt = "JPEG" /\ mode wi = "RGB" /\ fmt' = "JPEG" /\ mode wt = "RGB".
Proof.
  destruct (@saved_formats Plain.pillow Demo.b_jpg Demo.logo_png 400 Demo.world0 _
              (pair_of_fst _ _ ltac:(vm_compute; reflexivity)))
    as (fmt & wi & fmt' & wt & Hfiles & Hf & Hf').
  exists fmt, wi, fmt', wt. split; [exact Hfiles |].
  destruct Hf as [(_ & -> & ->) | (Hj & _)]; [| discriminate Hj].
  destruct Hf' as [(_ & -> & ->) | (Hj & _)]; [| discriminate Hj].
  auto.
Defined.

(** * The console of a run *)

Section Console.
Context `{Pillow}.

Lemma process_all_announces (total i : nat) (l : list path) (lp : path) (T : Z)
      (w w' : world) :
  process_all total i l lp T w = (Returned tt, w') ->
  exists lines,
    stdout w' = stdout w ++ lines /\
    forall k p, l !! k = Some p -> In (progress_line total (i + k) p) lines.
Proof.
  revert i w. induction l as [| q rest IH]; intros i w E.
  - injection E as <-. exists []. split; [now rewrite app_nil_r |].
    intros k p Hk. discriminate Hk.
  - rewrite process_all_cons in E.
    apply bind_returned_inv in E as ([] & s & E1 & E2).
    pose proof (footprint_process_image q lp T
                  (mkWorld (files w) (stdout w ++ [progress_line total i q]))) as G.
    rewrite E1 in G. destruct G as (_ & _ & [l1 O1]). cbn [snd stdout] in O1.
    apply IH in E2 as (l2 & O2 & Hl2).
    exists ([progress_line total i q] ++ l1 ++ l2). split.
    + rewrite O2, O1. now rewrite <- !app_assoc.
    + intros k p Hk. destruct k as [| k].
      * injection Hk as <-. rewrite Nat.add_0_r. now left.
      * apply in_or_app. right. apply in_or_app. right.
        replace (i + S k)%nat with (S i + k)%nat by lia. now apply Hl2.
Qed.

End Console.

(** X19. What a run that reaches its end has printed: the logo exists,
    some image was found, and the console holds the three header lines
    with the number of images found and an empty line, then the lines
    of the loop, among them for the k-th image (from 1) its progress
    line with [k] and the total, then an empty line and the completion
    line with the same total, whatever number of files failed. *)
Theorem every_file_announced `{Pillow} (exts : list string) (walk : list path)
        (args : arguments) (w w' : world) :
  main exts walk args w = (Returned tt, w') ->
  let found := find_images exts walk in
  let n := length found in
  is_Some (files w !! logo args) /\ found <> [] /\
  exists lines,
    stdout w' = stdout w ++ header_lines n args ++ lines ++ footer_lines n /\
    forall k p, found !! k = Some p -> In (progress_line n (S k) p) lines.
Proof.
  intros E. cbv zeta.
  destruct (files w !! logo args) as [nd |] eqn:El.
  2:{ rewrite (main_logo_missing _ _ _ _ El) in E. discriminate E. }
  split; [eauto |].
  destruct (find_images exts walk) as [| p rest] eqn:Ef.
  { rewrite main_no_images in E by (rewrite ?El; eauto). discriminate E. }
  split; [discriminate |].
  rewrite main_loop in E by (rewrite ?El, ?Ef; eauto; discriminate).
  rewrite Ef in E.
  apply bind_returned_inv in E as ([] & s & E1 & E2).
  apply process_all_announces in E1 as (lines & O & Hl).
  unfold print_lines in E2. injection E2 as <-.
  exists lines. split.
  - cbn [stdout]. rewrite O. cbn [stdout]. now rewrite <- !app_assoc.
  - intros k q Hk. exact (Hl k q Hk).
Qed.

Lemma every_file_announced_witness :
  exists lines,
    stdout (snd (@main Plain.pillow image_extensions [Demo.bad_png; Demo.b_jpg]
                   (mkArgs Demo.logo_png 400 []) Demo.world0))
    = stdout Demo.world0 ++ header_lines 2 (mkArgs Demo.logo_png 400 [])
      ++ lines ++ footer_lines 2 /\
    In (progress_line 2 2 Demo.bad_png) lines.
Proof.
  destruct (@every_file_announced Plain.pillow image_extensions
              [Demo.bad_png; Demo.b_jpg] (mkArgs Demo.logo_png 400 []) Demo.world0 _
              (pair_of_fst _ _ ltac:(vm_compute; reflexivity)))
    as (_ & _ & lines & Ho & Hl).
  exists lines. split; [exact Ho |].
  exact (Hl 1%nat Demo.bad_png ltac:(vm_compute; reflexivity)).
Defined.

(** * The choice of the font *)

Section Fonts.
Context `{Pillow}.

Lemma first_font_skips (pre rest : list string) (text_size : Z) :
  (forall q, In q pre -> font_file_exists q = false \/ truetype q text_size = None) ->
  first_font (pre ++ rest) text_size = first_font rest text_size.
Proof.
  induction pre as [| q pre IH]; intros Hq; [reflexivity |].
  simpl. destruct (Hq q ltac:(now left)) as [-> | Ht].
  - apply IH. intros q' Hq'. apply Hq. now right.
  - rewrite Ht. destruct (font_file_exists q); apply IH;
      intros q' Hq'; apply Hq; now right.
Qed.

End Fonts.

(** X20. The font is the first of the three system font paths that
    exists and loads at the requested size, whatever comes after it in
    the list; when none exists or none loads, the built-in default font
    is used and nothing is raised. *)
Theorem font_choice `{Pillow} (text_size : Z) :
  ((forall q, In q font_paths ->
      font_file_exists q = false \/ truetype q text_size = None) ->
   choose_font text_size = load_default) /\
  (forall pre q post f,
     font_paths = pre ++ q :: post ->
     (forall q', In q' pre ->
        font_file_exists q' = false \/ truetype q' text_size = None) ->
     font_file_exists q = true -> truetype q text_size = Some f ->
     choose_font text_size = f).
Proof.
  unfold choose_font. split.
  - intros Hn. rewrite <- (app_nil_r font_paths).
    now rewrite (first_font_skips font_paths [] text_size Hn).
  - intros pre q post f -> Hpre Hq Ht.
    rewrite (first_font_skips pre (q :: post) text_size Hpre).
    simpl. now rewrite Hq, Ht.
Qed.

(** * Processing a file again *)

Section SecondPass.
Context `{Pillow}.

Lemma Image_open_inv (p : path) (w w' : world) (raw : Image) :
  Image_open p w = (Returned raw, w') ->
  exists f q im, files w !! p = Some (File (Encoded f q im)) /\ raw = decode f q im.
Proof.
  unfold Image_open.
  destruct (files w !! p) as [[| [f q im |]] |]; try discriminate.
  intros [= <- _]. eauto.
Qed.

Lemma normalize_returns (image : Image) :
  0 <= width image -> 0 <= height image ->
  exists r, normalize image = Returned r /\ mode r = "RGB" /\
            width r = width image /\ height r = height image.
Proof.
  intros Hw Hh. unfold normalize.
  destruct (String.eqb (mode image) "RGBA") eqn:Ea.
  - apply String.eqb_eq in Ea. simpl orb. cbv iota.
    rewrite Ea. simpl String.eqb. cbv iota. rewrite Ea. simpl String.eqb. cbv iota.
    rewrite (paste_on_white image Hw Hh Ea). eexists. split; [reflexivity |]. auto.
  - destruct (String.eqb (mode image) "LA") eqn:El.
    + apply String.eqb_eq in El. simpl orb. cbv iota.
      rewrite El. simpl String.eqb. cbv iota. rewrite El. simpl String.eqb. cbv iota.
      unfold size. rewrite Image_new_returns by assumption. simpl.
      eexists. split; [reflexivity |]. auto.
    + destruct (String.eqb (mode image) "P") eqn:Ep.
      * simpl orb. cbv iota. simpl mode. simpl String.eqb. cbv iota.
        unfold size. rewrite Image_new_returns by assumption. simpl.
        unfold paste, paste_source. simpl. rewrite !Z.eqb_refl. simpl.
        eexists. split; [reflexivity |]. auto.
      * simpl orb. cbv iota. destruct (String.eqb (mode image) "RGB") eqn:Er.
        -- apply String.eqb_eq in Er. simpl. eexists. split; [reflexivity |]. auto.
        -- simpl. eexists. split; [reflexivity |]. auto.
Qed.

Lemma create_watermark_mode (lp : path) (iw : Z) (opacity : float) (w w' : world)
      (wm : Image) :
  create_watermark lp iw opacity w = (Returned wm, w') -> mode wm = "RGBA".
Proof.
  intros E.
  apply create_watermark_returned in E as (_ & ww & logo_image & canvas & _ & _ & Ed & Ea).
  destruct (apply_opacity_pixel _ _ _ Ea) as (-> & _).
  now destruct (draw_watermark_shape _ _ _ Ed)
    as (f & tw & th & pd & sp & _ & _ & _ & Hm & _).
Qed.

Lemma apply_watermark_returns (image wm : Image) (position : string) (padding : Z) :
  mode wm = "RGBA" ->
  exists r, apply_watermark image wm position padding = Returned r /\
            mode r = "RGBA" /\ width r = width image /\ height r = height image.
Proof.
  intros Hm. rewrite apply_watermark_paste.
  rewrite paste_self_mask by (apply ensure_rgba_mode || exact Hm).
  eexists. split; [reflexivity |]. split; [reflexivity |].
  cbn [width height]. apply ensure_rgba_size.
Qed.

Lemma flatten_for_returns (p : path) (wi : Image) :
  mode wi = "RGBA" -> 0 <= width wi -> 0 <= height wi ->
  exists r, flatten_for p wi = Returned r /\
            mode r = (if is_jpeg_suffix (PurePath.suffix p) then "RGB" else "RGBA") /\
            width r = width wi /\ height r = height wi.
Proof.
  intros Hm Hw Hh. unfold flatten_for. destruct (is_jpeg_suffix _).
  - rewrite Hm. simpl String.eqb. cbv iota. rewrite (paste_on_white wi Hw Hh Hm).
    eexists. split; [reflexivity |]. auto.
  - exists wi. auto.
Qed.

Lemma save_returns (im : Image) (p : path) (q : Z) (w : world) (fmt : string) :
  format_of_extension (Str.lower (splitext_ext (PurePath.name p))) = Some fmt ->
  writable_mode fmt (mode im) = true -> files w !! p <> Some Directory ->
  save im p q w
  = (Returned tt, mkWorld (<[p := File (Encoded fmt q im)]> (files w)) (stdout w)).
Proof.
  intros Ef Ew Hd. unfold save. rewrite Ef, Ew. simpl.
  destruct (files w !! p) as [[| c] |]; [now elim Hd | reflexivity | reflexivity].
Qed.

(** When the first half completes, and what that takes. *)
Lemma watermark_original_inv (p lp : path) (w w1 : world) (image : Image) :
  watermark_original p lp w = (Returned image, w1) ->
  exists raw wm wi wi' fmt,
    Image_open p w = (Returned raw, w) /\ normalize raw = Returned image /\
    create_watermark lp (width image) 0.55 w = (Returned wm, w) /\
    apply_watermark image wm "top_right" 20 = Returned wi /\
    flatten_for p wi = Returned wi' /\
    format_of_extension (Str.lower (splitext_ext (PurePath.name p))) = Some fmt /\
    writable_mode fmt (mode wi') = true /\
    w1 = mkWorld (<[p := File (Encoded fmt 95 wi')]> (files w))
                 (stdout w ++ [watermarked_line p]).
Proof.
  unfold watermark_original. intros E.
  apply bind_returned_inv in E as (raw & s1 & E1 & E).
  pose proof (Image_open_world _ _ _ _ E1) as ->.
  apply lift_returned_inv in E as (im & E2 & E).
  apply bind_returned_inv in E as (wm & s3 & E3 & E).
  pose proof (create_watermark_returned _ _ _ _ _ _ E3) as [-> _].
  apply lift_returned_inv in E as (wi & E4 & E).
  apply lift_returned_inv in E as (wi' & E5 & E).
  apply bind_returned_inv in E as ([] & s6 & E6 & E).
  apply save_inv in E6 as (fmt & Efmt & Ew & ->).
  apply bind_returned_inv in E as ([] & s7 & E7 & E).
  unfold print in E7. injection E7 as <-.
  unfold mret, stateful_ret in E. injection E as <- <-.
  exists raw, wm, wi, wi', fmt. repeat split; assumption.
Qed.

Lemma watermark_original_returns (p lp : path) (w : world) (raw image wm : Image)
      (fmt : string) :
  Image_open p w = (Returned raw, w) -> normalize raw = Returned image ->
  create_watermark lp (width image) 0.55 w = (Returned wm, w) ->
  0 <= width image -> 0 <= height image ->
  format_of_extension (Str.lower (splitext_ext (PurePath.name p))) = Some fmt ->
  writable_mode fmt (if is_jpeg_suffix (PurePath.suffix p) then "RGB" else "RGBA")
  = true ->
  files w !! p <> Some Directory ->
  exists wi',
    watermark_original p lp w
    = (Returned image,
       mkWorld (<[p := File (Encoded fmt 95 wi')]> (files w))
               (stdout w ++ [watermarked_line p])).
Proof.
  intros Eo En Ec Hw Hh Efmt Ewr Hd.
  destruct (apply_watermark_returns image wm "top_right" 20
              (create_watermark_mode _ _ _ _ _ _ Ec)) as (wi & Ea & Hm & Hww & Hwh).
  destruct (flatten_for_returns p wi Hm ltac:(lia) ltac:(lia))
    as (wi' & Ef & Hm' & _).
  rewrite <- Hm' in Ewr.
  exists wi'. unfold watermark_original.
  rewrite (bind_returned _ _ _ _ _ Eo). cbv beta. rewrite lift_bind, En. cbv beta iota.
  rewrite (bind_returned _ _ _ _ _ Ec). cbv beta. rewrite lift_bind, Ea. cbv beta iota.
  rewrite lift_bind, Ef. cbv beta iota.
  rewrite (bind_returned _ _ _ _ _ (save_returns wi' p 95 w fmt Efmt Ewr Hd)).
  reflexivity.
Qed.

Lemma generate_thumbnail_inv (image : Image) (p lp : path) (T : Z) (w w' : world) :
  generate_thumbnail image p lp T w = (Returned tt, w') ->
  exists th thumbnail wm wt wt' fmt,
    thumbnail_height_of T image = Returned th /\
    resize image (T, th) = Returned thumbnail /\
    create_watermark lp (width thumbnail) 0.55 w = (Returned wm, w) /\
    apply_watermark thumbnail wm "top_right" 10 = Returned wt /\
    flatten_for (thumbnail_path_of p) wt = Returned wt' /\
    format_of_extension
      (Str.lower (splitext_ext (PurePath.name (thumbnail_path_of p)))) = Some fmt /\
    writable_mode fmt (mode wt') = true /\
    w' = mkWorld (<[thumbnail_path_of p := File (Encoded fmt 90 wt')]> (files w))
                 (stdout w ++ [thumbnail_line (thumbnail_path_of p)]).
Proof.
  unfold generate_thumbnail. intros E.
  apply lift_returned_inv in E as (th & E1 & E).
  apply lift_returned_inv in E as (thumbnail & E2 & E).
  apply bind_returned_inv in E as (wm & s3 & E3 & E).
  pose proof (create_watermark_returned _ _ _ _ _ _ E3) as [-> _].
  apply lift_returned_inv in E as (wt & E4 & E).
  apply lift_returned_inv in E as (wt' & E5 & E).
  apply bind_returned_inv in E as ([] & s6 & E6 & E).
  apply save_inv in E6 as (fmt & Efmt & Ew & ->).
  unfold print in E. injection E as <-.
  exists th, thumbnail, wm, wt, wt', fmt. repeat split; assumption.
Qed.

Lemma generate_thumbnail_returns (image : Image) (p lp : path) (T : Z) (w : world)
      (th : Z) (thumbnail wm : Image) (fmt : string) :
  thumbnail_height_of T image = Returned th ->
  resize image (T, th) = Returned thumbnail ->
  create_watermark lp (width thumbnail) 0.55 w = (Returned wm, w) ->
  0 <= width thumbnail -> 0 <= height thumbnail ->
  format_of_extension
    (Str.lower (splitext_ext (PurePath.name (thumbnail_path_of p)))) = Some fmt ->
  writable_mode fmt (if is_jpeg_suffix (PurePath.suffix (thumbnail_path_of p))
                     then "RGB" else "RGBA") = true ->
  files w !! thumbnail_path_of p <> Some Directory ->
  exists wt',
    generate_thumbnail image p lp T w
    = (Returned tt,
       mkWorld (<[thumbnail_path_of p := File (Encoded fmt 90 wt')]> (files w))
               (stdout w ++ [thumbnail_line (thumbnail_path_of p)])).
Proof.
  intros Eh Er Ec Hw Hh Efmt Ewr Hd.
  destruct (apply_watermark_returns thumbnail wm "top_right" 10
              (create_watermark_mode _ _ _ _ _ _ Ec)) as (wt & Ea & Hm & Hww & Hwh).
  destruct (flatten_for_returns (thumbnail_path_of p) wt Hm ltac:(lia) ltac:(lia))
    as (wt' & Ef & Hm' & _).
  rewrite <- Hm' in Ewr.
  exists wt'. unfold generate_thumbnail.
  rewrite lift_bind, Eh. cbv beta iota. rewrite lift_bind, Er. cbv beta iota.
  rewrite (bind_returned _ _ _ _ _ Ec). cbv beta. rewrite lift_bind, Ea.
  cbv beta iota zeta. rewrite lift_bind, Ef. cbv beta iota.
  rewrite (bind_returned _ _ _ _ _
             (save_returns wt' (thumbnail_path_of p) 90 w fmt Efmt Ewr Hd)).
  reflexivity.
Qed.

Lemma flatten_for_mode (p : path) (wi wi' : Image) :
  mode wi = "RGBA" -> 0 <= width wi -> 0 <= height wi ->
  flatten_for p wi = Returned wi' ->
  mode wi' = (if is_jpeg_suffix (PurePath.suffix p) then "RGB" else "RGBA").
Proof.
  intros Hm Hw Hh Ef.
  destruct (flatten_for_returns p wi Hm Hw Hh) as (r & Er & Hr & _).
  rewrite Ef in Er. now injection Er as <-.
Qed.

Lemma thumbnail_height_of_size (T : Z) (a b : Image) :
  width a = width b -> height a = height b ->
  thumbnail_height_of T a = thumbnail_height_of T b.
Proof. intros Hw Hh. unfold thumbnail_height_of. now rewrite Hw, Hh. Qed.

Lemma resize_same_size (a b rb : Image) (sz : Z * Z) :
  width a = width b -> height a = height b ->
  resize b sz = Returned rb ->
  exists ra, resize a sz = Returned ra /\
             width ra = width rb /\ height ra = height rb.
Proof.
  intros Hw Hh. unfold resize. destruct sz as [x y]. rewrite Hw, Hh.
  destruct (_ && _).
  - intros [= <-]. exists a. auto.
  - destruct (_ || _); [discriminate |]. intros [= <-].
    eexists. split; [reflexivity |]. auto.
Qed.

Lemma resize_nonneg (im r : Image) (x y : Z) :
  resize im (x, y) = Returned r -> 0 <= width im -> 0 <= height im ->
  0 <= width r /\ 0 <= height r.
Proof.
  unfold resize. destruct (_ && _).
  - intros [= <-]. auto.
  - destruct ((x <? 1) || (y <? 1)) eqn:E; [discriminate |]. intros [= <-] _ _.
    apply orb_false_iff in E as [E1 E2].
    apply Z.ltb_ge in E1, E2. simpl. lia.
Qed.

End SecondPass.

(** X21. Processing a file a second time does not fail.  When the codecs
    give back an image of the mode and size that was written, the logo
    is neither the image nor its thumbnail, and the image in the file
    has no negative dimension, a [process_image] that completed on a
    file completes again on the files it left: the watermarked original
    is opened, watermarked again and rewritten, and the thumbnail is
    replaced. *)
Theorem second_pass_completes `{Pillow} (p lp : path) (T : Z) (w w1 : world) :
  (forall fmt q im, mode (decode fmt q im) = mode im /\
                    width (decode fmt q im) = width im /\
                    height (decode fmt q im) = height im) ->
  lp <> p -> lp <> thumbnail_path_of p ->
  (forall fmt q im, files w !! p = Some (File (Encoded fmt q im)) ->
                    0 <= width im /\ 0 <= height im) ->
  process_image_body p lp T w = (Returned tt, w1) ->
  exists w2,
    process_image_body p lp T w1 = (Returned tt, w2) /\
    process_image p lp T w1 = (Returned tt, w2) /\
    stdout w2 = stdout w1 ++ [watermarked_line p;
                              thumbnail_line (thumbnail_path_of p)].
Proof.
  intros Hdec Hlp Hlt Hnn E.
  assert (Hne : thumbnail_path_of p <> p) by apply thumbnail_differs.
  apply process_image_body_returned in E as (image & wa & Eo & Eg).
  apply watermark_original_inv in Eo
    as (raw & wm & wi & wi' & fmt & Eopen & En & Ec & Ea & Ef & Efmt & Ewr & ->).
  apply generate_thumbnail_inv in Eg
    as (th & thumbnail & wm' & wt & wt' & fmt' & Eh & Er & Ec' & Ea' & Ef' & Efmt'
        & Ewr' & ->).
  cbn [files stdout] in *.
  (* the sizes of the first pass *)
  destruct (Image_open_inv _ _ _ _ Eopen) as (f0 & q0 & im0 & Hfile & ->).
  destruct (Hnn _ _ _ Hfile) as [Hw0 Hh0].
  destruct (Hdec f0 q0 im0) as (_ & Hdw & Hdh).
  destruct (normalize_size _ _ En) as [Hiw Hih].
  assert (Hw : 0 <= width image) by lia. assert (Hh : 0 <= height image) by lia.
  pose proof (apply_watermark_mode _ _ _ _ _ Ea) as Hmi.
  destruct (apply_watermark_size _ _ _ _ _ Ea) as [Hwiw Hwih].
  destruct (flatten_for_size _ _ _ Ef) as [Hfw Hfh].
  pose proof (flatten_for_mode p wi wi' Hmi ltac:(lia) ltac:(lia) Ef) as Hmode.
  rewrite Hmode in Ewr.
  destruct (resize_nonneg _ _ _ _ Er Hw Hh) as [Htw Hth].
  pose proof (apply_watermark_mode _ _ _ _ _ Ea') as Hmt.
  destruct (apply_watermark_size _ _ _ _ _ Ea') as [Hwtw Hwth].
  pose proof (flatten_for_mode (thumbnail_path_of p) wt wt' Hmt
                ltac:(lia) ltac:(lia) Ef') as Hmode'.
  rewrite Hmode' in Ewr'.
  (* the second pass, first half *)
  set (files1 := <[thumbnail_path_of p := File (Encoded fmt' 90 wt')]>
                   (<[p := File (Encoded fmt 95 wi')]> (files w))).
  set (out1 := (stdout w ++ [watermarked_line p])
               ++ [thumbnail_line (thumbnail_path_of p)]).
  set (w1 := mkWorld files1 out1).
  assert (Hp1 : files w1 !! p = Some (File (Encoded fmt 95 wi'))).
  { unfold w1, files1. cbn [files]. rewrite lookup_insert_ne by exact Hne.
    apply lookup_insert_eq. }
  assert (Hl1 : files w1 !! lp = files w !! lp).
  { unfold w1, files1. cbn [files]. rewrite !lookup_insert_ne; congruence. }
  pose proof (Image_open_file p w1 fmt 95 wi' Hp1) as Eopen2.
  destruct (Hdec fmt 95 wi') as (_ & Hd2w & Hd2h).
  assert (Hn2w : 0 <= width (decode fmt 95 wi')) by lia.
  assert (Hn2h : 0 <= height (decode fmt 95 wi')) by lia.
  destruct (normalize_returns (decode fmt 95 wi') Hn2w Hn2h)
    as (image2 & En2 & _ & Hi2w & Hi2h).
  assert (Hsw : width image2 = width image) by lia.
  assert (Hsh : height image2 = height image) by lia.
  pose proof (create_watermark_same_logo lp (width image) 0.55 w w1 wm Hl1 Ec) as Ec2.
  rewrite <- Hsw in Ec2.
  assert (Hi2nw : 0 <= width image2) by lia.
  assert (Hi2nh : 0 <= height image2) by lia.
  assert (Hnd1 : files w1 !! p <> Some Directory) by (rewrite Hp1; discriminate).
  destruct (watermark_original_returns p lp w1 _ image2 wm fmt Eopen2 En2 Ec2
              Hi2nw Hi2nh Efmt Ewr Hnd1)
    as (wi2 & Eo2).
  (* second half *)
  set (w2a := mkWorld (<[p := File (Encoded fmt 95 wi2)]> (files w1))
                      (stdout w1 ++ [watermarked_line p])) in *.
  assert (Hl2 : files w2a !! lp = files w !! lp).
  { unfold w2a. cbn [files]. rewrite lookup_insert_ne by congruence. exact Hl1. }
  assert (Ht2 : files w2a !! thumbnail_path_of p
                = Some (File (Encoded fmt' 90 wt'))).
  { unfold w2a, w1, files1. cbn [files].
    rewrite lookup_insert_ne by congruence. apply lookup_insert_eq. }
  pose proof (thumbnail_height_of_size T image2 image Hsw Hsh) as Eh2.
  rewrite Eh in Eh2.
  destruct (resize_same_size image2 image thumbnail (T, th) Hsw Hsh Er)
    as (thumbnail2 & Er2 & Hrw & Hrh).
  assert (Hl0 : files (mkWorld (<[p := File (Encoded fmt 95 wi')]> (files w))
                               (stdout w ++ [watermarked_line p])) !! lp
                = files w !! lp).
  { cbn [files]. apply lookup_insert_ne. congruence. }
  pose proof (create_watermark_same_logo lp (width thumbnail) 0.55 _ w2a wm'
                (eq_trans Hl2 (eq_sym Hl0)) Ec') as Ec2'.
  rewrite <- Hrw in Ec2'.
  assert (Ht2w : 0 <= width thumbnail2) by lia.
  assert (Ht2h : 0 <= height thumbnail2) by lia.
  assert (Hnd2 : files w2a !! thumbnail_path_of p <> Some Directory)
    by (rewrite Ht2; discriminate).
  destruct (generate_thumbnail_returns image2 p lp T w2a th thumbnail2 wm' fmt'
              Eh2 Er2 Ec2' Ht2w Ht2h Efmt' Ewr' Hnd2)
    as (wt2 & Eg2).
  assert (Hb : process_image_body p lp T w1
               = (Returned tt,
                  mkWorld (<[thumbnail_path_of p := File (Encoded fmt' 90 wt2)]>
                             (files w2a))
                          (stdout w2a ++ [thumbnail_line (thumbnail_path_of p)]))).
  { unfold process_image_body. rewrite (bind_returned _ _ _ _ _ Eo2). exact Eg2. }
  eexists. split; [exact Hb |]. split.
  - unfold process_image. now apply try_except_returned.
  - unfold w2a. cbn [stdout]. now rewrite <- app_assoc.
Qed.

Lemma second_pass_completes_witness :
  exists w2,
    @process_image_body Plain.pillow Demo.b_jpg Demo.logo_png 400
      (snd (@process_image_body Plain.pillow Demo.b_jpg Demo.logo_png 400
              Demo.world0))
    = (Returned tt, w2).
Proof.
  destruct (@second_pass_completes Plain.pillow Demo.b_jpg Demo.logo_png 400
              Demo.world0 _
              ltac:(intros; auto)
              ltac:(discriminate) ltac:(discriminate)
              ltac:(intros fmt q im Hf; vm_compute in Hf;
                    injection Hf as _ _ <-; simpl; lia)
              (pair_of_fst _ _ ltac:(vm_compute; reflexivity)))
    as (w2 & Hb & _).
  exists w2. exact Hb.
Defined.

(** * The opacity step keeps the order of the alpha bytes *)

(** X22. The opacity step keeps the order of transparency.  For an
    opacity between 0 and 1, of two pixels of the canvas whose alpha
    bytes are in 0..255 the more opaque one is not less opaque
    afterwards, and no pixel becomes more opaque than it was: binary64
    multiplication and truncation are monotone. *)
Theorem opacity_keeps_order (canvas wm : Image) (opacity : float) :
  (0 <=? opacity)%float = true -> (opacity <=? 1)%float = true ->
  apply_opacity canvas opacity = Returned wm ->
  (forall i j i' j',
     0 <= alpha_of (pix canvas i j) <= alpha_of (pix canvas i' j') ->
     alpha_of (pix canvas i' j') <= 255 ->
     alpha_of (pix wm i j) <= alpha_of (pix wm i' j')) /\
  (forall i j,
     0 <= alpha_of (pix canvas i j) <= 255 ->
     0 <= alpha_of (pix wm i j) <= alpha_of (pix canvas i j)).
Proof.
  intros H0 H1 E.
  destruct (apply_opacity_pixel _ _ _ E) as (_ & _ & _ & Hpix).
  split.
  - intros i j i' j' Ha Hb.
    destruct (proj1 (Hpix i j) ltac:(lia)) as (v & Ev & ->).
    destruct (proj1 (Hpix i' j') ltac:(lia)) as (v' & Ev' & ->).
    pose proof (int_scaled_mono opacity _ _ v v' H0 H1 Ha Hb Ev Ev') as Hm.
    unfold CLIP8. lia.
  - intros i j Ha.
    destruct (proj1 (Hpix i j) Ha) as (v & Ev & ->).
    pose proof (int_scaled_le opacity _ v H0 H1 Ha Ev). unfold CLIP8. lia.
Qed.

Lemma opacity_keeps_order_witness :
  exists wm,
    apply_opacity (Plain.solid "RGBA" 2 2 (1, 2, 3, 200)) 0.55%float
    = Returned wm /\
    0 <= alpha_of (pix wm 0 0) <= 200.
Proof.
  destruct (apply_opacity (Plain.solid "RGBA" 2 2 (1, 2, 3, 200)) 0.55%float)
    as [wm | e | c] eqn:E;
    [| exfalso; vm_compute in E; discriminate E
     | exfalso; vm_compute in E; discriminate E].
  exists wm. split; [reflexivity |].
  exact (proj2 (opacity_keeps_order _ wm 0.55%float
                  ltac:(vm_compute; reflexivity) ltac:(vm_compute; reflexivity) E)
               0 0 ltac:(cbn; lia)).
Defined.
